(** * faf: allocation-free directory reading and number scanning

    A shallow embedding of the Go package [github.com/thediveo/faf]:
    the byte-buffer scanner [Bytestring] (bytestring.go), the full-buffer
    parser [ParseUint], the raw directory record view [RawDirEntry64] and
    the directory iterator [ReadDir] (readdir.go), followed by the
    properties of these functions.

    Conventions.  A Go [[]byte] is a [list byte]; Go's [int], [uintptr]
    and the lengths of slices are unbounded [Z] (a slice never comes close
    to 2^63 elements); a [uint64] is a [Z] reduced with [wrap64] wherever
    the Go code does arithmetic on it, a [byte] value computed by
    arithmetic is reduced with [wrap8].  A function that can panic or
    whose loop the model bounds returns an [outcome]. *)

From Stdlib Require Import Strings.String Strings.Byte.
From Stdlib Require Import ZArith List Bool Lia.
Import ListNotations.
Local Open Scope Z_scope.

(** ** Outcomes of Go function calls *)

Inductive outcome (A : Type) : Type :=
| Ret (a : A)   (* the function returned [a] *)
| Panic         (* run-time panic: index or slice bounds out of range *)
| OutOfFuel.    (* the iteration budget given to the model ran out *)

Arguments Ret {A} a.
Arguments Panic {A}.
Arguments OutOfFuel {A}.

Definition bind {A B : Type} (m : outcome A) (k : A -> outcome B) : outcome B :=
  match m with
  | Ret a => k a
  | Panic => Panic
  | OutOfFuel => OutOfFuel
  end.

Notation "x <- m ;; k" := (bind m (fun x => k))
  (at level 61, m at next level, right associativity).
Notation "' p <- m ;; k" := (bind m (fun x => let p := x in k))
  (at level 61, p pattern, m at next level, right associativity).

(** ** Machine integers and byte slices *)

Definition wrap64 (z : Z) : Z := z mod 2 ^ 64.
Definition wrap8 (z : Z) : Z := z mod 2 ^ 8.
Definition MaxUint64 : Z := 2 ^ 64 - 1.

(** The numeric value of a byte. *)
Definition u8 (c : byte) : Z := Z.of_N (Byte.to_N c).
Arguments u8 c%_byte.

(** The byte of a numeric value (taken modulo 256). *)
Definition byte_of_Z (z : Z) : byte :=
  match Byte.of_N (Z.to_N (wrap8 z)) with
  | Some c => c
  | None => x00
  end.

(** Go's [len]. *)
Definition len {A : Type} (l : list A) : Z := Z.of_nat (List.length l).

(** Go's index expression [l[i]] on a byte slice. *)
Definition index (l : list byte) (i : Z) : outcome byte :=
  if (0 <=? i) && (i <? len l) then Ret (nth (Z.to_nat i) l x00) else Panic.

(** The elements [lo], ..., [hi - 1] of [l]. *)
Definition sublist {A : Type} (lo hi : Z) (l : list A) : list A :=
  firstn (Z.to_nat (hi - lo)) (skipn (Z.to_nat lo) l).

(** Go's slice expression [l[lo:hi]].  Go checks [hi] against the capacity
    of [l]; in this package the upper bound of a slice expression has been
    compared with [len l] before, or is the number of bytes just written
    into [l], so the check against the length decides the same way. *)
Definition slice (l : list byte) (lo hi : Z) : outcome (list byte) :=
  if (0 <=? lo) && (lo <=? hi) && (hi <=? len l) then Ret (sublist lo hi l) else Panic.

(** [bytes.Equal] and the comparison of a byte slice with a string. *)
Fixpoint bytes_Equal (x y : list byte) : bool :=
  match x, y with
  | [], [] => true
  | c :: x', d :: y' => Byte.eqb c d && bytes_Equal x' y'
  | _, _ => false
  end.

(** A Go string constant as bytes. *)
Definition str (s : String.string) : list byte := String.list_byte_of_string s.
Arguments str s%_string.

(** ** bytestring.go: the scanner *)

Record Bytestring : Type := mkBytestring {
  b : list byte;  (* line contents *)
  pos : Z         (* parsing position within the line contents *)
}.

Definition NewBytestring (l : list byte) : Bytestring :=
  {| pos := 0; b := l |}.

Definition set_pos (bs : Bytestring) (p : Z) : Bytestring :=
  {| b := b bs; pos := p |}.

(** Iterations that a scanning loop starting at the cursor can need: each
    one but the last moves the cursor one byte closer to the end. *)
Definition scan_fuel (l : list byte) (p : Z) : nat := S (Z.to_nat (len l - p)).

Definition EOL (bs : Bytestring) : bool := pos bs >=? len (b bs).

Fixpoint SkipSpace_loop (fuel : nat) (bs : Bytestring) : outcome (bool * Bytestring) :=
  match fuel with
  | O => OutOfFuel
  | S fuel' =>
      if pos bs >=? len (b bs) then Ret (true, bs)
      else
        ch <- index (b bs) (pos bs) ;;
        if negb (u8 ch =? u8 " ") then Ret (false, bs)
        else SkipSpace_loop fuel' (set_pos bs (pos bs + 1))
  end.

Definition SkipSpace (bs : Bytestring) : outcome (bool * Bytestring) :=
  SkipSpace_loop (scan_fuel (b bs) (pos bs)) bs.

Definition SkipText (bs : Bytestring) (s : list byte) : outcome (bool * Bytestring) :=
  if (pos bs >=? len (b bs)) || (pos bs + len s >? len (b bs)) then Ret (false, bs)
  else
    w <- slice (b bs) (pos bs) (pos bs + len s) ;;
    if negb (bytes_Equal s w) then Ret (false, bs)
    else Ret (true, set_pos bs (pos bs + len s)).

Definition Next (bs : Bytestring) : outcome (byte * bool * Bytestring) :=
  if pos bs >=? len (b bs) then Ret (x00, false, bs)
  else
    ch <- index (b bs) (pos bs) ;;
    Ret (ch, true, set_pos bs (pos bs + 1)).

Definition cutoffDecimalUint64 : Z := (2 ^ 64 - 1) / 10 + 1.

Fixpoint Uint64_loop (fuel : nat) (bs : Bytestring) (num : Z) (ok : bool)
  : outcome (Z * bool * Bytestring) :=
  match fuel with
  | O => OutOfFuel
  | S fuel' =>
      if pos bs >=? len (b bs) then
        if negb ok then Ret (0, false, bs) else Ret (num, true, bs)
      else
        ch <- index (b bs) (pos bs) ;;
        if (u8 ch <? u8 "0") || (u8 ch >? u8 "9") then
          if negb ok then Ret (0, false, bs) else Ret (num, true, bs)
        else if num >=? cutoffDecimalUint64 then Ret (0, false, bs)
        else
          Uint64_loop fuel' (set_pos bs (pos bs + 1))
            (wrap64 (num * 10 + wrap8 (u8 ch - u8 "0"))) true
  end.

Definition Uint64 (bs : Bytestring) : outcome (Z * bool * Bytestring) :=
  Uint64_loop (scan_fuel (b bs) (pos bs)) bs 0 false.

Definition cutoffHexUint64 : Z := Z.shiftl 1 60.

(** The digit selection of [HexUint64]: [Some digit] for 0-9, a-f, A-F. *)
Definition hex_digit (ch : byte) : option Z :=
  if (u8 ch >=? u8 "0") && (u8 ch <=? u8 "9") then Some (wrap8 (u8 ch - u8 "0"))
  else if (u8 ch >=? u8 "a") && (u8 ch <=? u8 "f") then Some (wrap8 (u8 ch - u8 "a" + 10))
  else if (u8 ch >=? u8 "A") && (u8 ch <=? u8 "F") then Some (wrap8 (u8 ch - u8 "A" + 10))
  else None.

Fixpoint HexUint64_loop (fuel : nat) (bs : Bytestring) (num : Z) (ok : bool)
  : outcome (Z * bool * Bytestring) :=
  match fuel with
  | O => OutOfFuel
  | S fuel' =>
      if pos bs >=? len (b bs) then
        if negb ok then Ret (0, false, bs) else Ret (num, true, bs)
      else
        ch <- index (b bs) (pos bs) ;;
        match hex_digit ch with
        | None => if negb ok then Ret (0, false, bs) else Ret (num, true, bs)
        | Some digit =>
            if num >=? cutoffHexUint64 then Ret (0, false, bs)
            else
              HexUint64_loop fuel' (set_pos bs (pos bs + 1))
                (wrap64 (wrap64 (Z.shiftl num 4) + digit)) true
        end
  end.

Definition HexUint64 (bs : Bytestring) : outcome (Z * bool * Bytestring) :=
  HexUint64_loop (scan_fuel (b bs) (pos bs)) bs 0 false.

(** The two inner loops of [NumFields]: [Some p] when the loop is left by
    [break] with the local position [p], [None] when the function returns
    from inside the loop. *)
Fixpoint NumFields_spaces (fuel : nat) (l : list byte) (p : Z) : outcome (option Z) :=
  match fuel with
  | O => OutOfFuel
  | S fuel' =>
      if p >=? len l then Ret None
      else
        ch <- index l p ;;
        if negb (u8 ch =? u8 " ") then Ret (Some p)
        else NumFields_spaces fuel' l (p + 1)
  end.

Fixpoint NumFields_field (fuel : nat) (l : list byte) (p : Z) : outcome (option Z) :=
  match fuel with
  | O => OutOfFuel
  | S fuel' =>
      if p >=? len l then Ret None
      else
        ch <- index l p ;;
        if u8 ch =? u8 " " then Ret (Some p)
        else NumFields_field fuel' l (p + 1)
  end.

Fixpoint NumFields_loop (fuel : nat) (l : list byte) (p : Z) (num : Z) : outcome Z :=
  match fuel with
  | O => OutOfFuel
  | S fuel' =>
      r <- NumFields_spaces (scan_fuel l p) l p ;;
      match r with
      | None => Ret num
      | Some p1 =>
          let num := num + 1 in
          r <- NumFields_field (scan_fuel l p1) l p1 ;;
          match r with
          | None => Ret num
          | Some p2 => NumFields_loop fuel' l p2 num
          end
      end
  end.

Definition NumFields (bs : Bytestring) : outcome (Z * Bytestring) :=
  num <- NumFields_loop (scan_fuel (b bs) (pos bs)) (b bs) (pos bs) 0 ;;
  Ret (num, bs).

(** ** The full-buffer parser

    [ParseUint] creates its scanner with [newBytestring], the constructor
    of bytestring.go under its unexported name. *)

Definition ParseUint (l : list byte) : outcome (Z * bool) :=
  let buff := NewBytestring l in
  '(val, ok, buff) <- Uint64 buff ;;
  if negb ok then Ret (0, ok)
  else if negb (EOL buff) then Ret (0, false)
  else Ret (val, ok).

(** ** The raw directory record view

    [unix.Dirent] of golang.org/x/sys/unix on Linux is
    [{Ino uint64; Off int64; Reclen uint16; Type uint8; Name [256]int8}];
    the constants below are [unsafe.Offsetof] and [unsafe.Sizeof] of its
    fields. *)

Definition Offsetof_Ino : Z := 0.
Definition Sizeof_Ino : Z := 8.
Definition Offsetof_Reclen : Z := 16.
Definition Sizeof_Reclen : Z := 2.
Definition Offsetof_Type : Z := 18.
Definition Offsetof_Name : Z := 19.

(** The byte order of the machine, as [binary.NativeEndian] sees it. *)
Inductive ByteOrder : Type := LittleEndian | BigEndian.

Definition DirEntryType : Type := byte.

Record DirEntry : Type := mkDirEntry {
  Ino : Z;
  Name : list byte;
  Type_ : DirEntryType
}.

Fixpoint decode_le (w : list byte) : Z :=
  match w with
  | [] => 0
  | c :: w' => u8 c + 256 * decode_le w'
  end.

Definition decode_be (w : list byte) : Z :=
  fold_left (fun acc c => acc * 256 + u8 c) w 0.

(** The number that the bytes [w] denote in the given byte order. *)
Definition native_decode (order : ByteOrder) (w : list byte) : Z :=
  match order with
  | LittleEndian => decode_le w
  | BigEndian => decode_be w
  end.

Module RawDirEntry64.
Section Native.

Variable NativeEndian : ByteOrder.

(** [binary.NativeEndian.Uint16], [Uint32] and [Uint64] ([size] is 2, 4
    or 8): they read the first [size] bytes and panic on a shorter slice. *)
Definition NativeEndian_Uint (size : Z) (w : list byte) : outcome Z :=
  if len w <? size then Panic
  else
    let w := firstn (Z.to_nat size) w in
    Ret (match NativeEndian with
         | LittleEndian => decode_le w
         | BigEndian => decode_be w
         end).

Definition readUint (d : list byte) (offset size : Z) : outcome (Z * bool) :=
  if offset + size >? len d then Ret (0, false)
  else
    match size with
    | 8 => w <- slice d offset (offset + size) ;;
           v <- NativeEndian_Uint 8 w ;; Ret (v, true)
    | 4 => w <- slice d offset (offset + size) ;;
           v <- NativeEndian_Uint 4 w ;; Ret (v, true)
    | 2 => w <- slice d offset (offset + size) ;;
           v <- NativeEndian_Uint 2 w ;; Ret (v, true)
    | _ => Ret (0, false)
    end.

Definition Ino (d : list byte) : outcome (Z * bool) :=
  readUint d Offsetof_Ino Sizeof_Ino.

Definition Len (d : list byte) : outcome (Z * bool) :=
  readUint d Offsetof_Reclen Sizeof_Reclen.

Definition Type_ (d : list byte) : outcome (DirEntryType * bool) :=
  let offset := Offsetof_Type in
  if offset >=? len d then Ret (x00, false)
  else
    c <- index d offset ;;
    Ret (c, true).

(** The loop of [Name]: [Some w] when it returns [w] from inside the loop,
    [None] when the loop condition ends it. *)
Fixpoint Name_loop (fuel : nat) (d : list byte) (nameoffset namelen p : Z)
  : outcome (option (list byte)) :=
  match fuel with
  | O => OutOfFuel
  | S fuel' =>
      if p <? wrap64 (nameoffset + namelen) then
        c <- index d p ;;
        if u8 c =? 0 then
          w <- slice d nameoffset p ;; Ret (Some w)
        else Name_loop fuel' d nameoffset namelen (wrap64 (p + 1))
      else Ret None
  end.

Definition Name (d : list byte) : outcome (list byte * bool) :=
  '(dentryLen, ok) <- Len d ;;
  if negb ok then Ret ([], false)
  else
    let nameoffset := Offsetof_Name in
    let namelen := wrap64 (dentryLen - nameoffset) in
    if wrap64 (nameoffset + namelen) >? len d then Ret ([], false)
    else
      r <- Name_loop (scan_fuel d nameoffset) d nameoffset namelen nameoffset ;;
      match r with
      | Some w => Ret (w, true)
      | None =>
          w <- slice d nameoffset (wrap64 (nameoffset + namelen)) ;;
          Ret (w, true)
      end.

End Native.
End RawDirEntry64.

(** ** readdir.go: the directory iterator *)

Definition readDirBufferSize : Z := 8192.

(** What one [syscall.Getdents] call on the open directory does: it fails,
    or it fills the start of the buffer with [filled].  An open directory
    is the list of the results of the calls still to come; when the list
    is used up, the call returns 0 bytes (end of directory). *)
Inductive getdents_result : Type :=
| GetdentsErr
| GetdentsOk (filled : list byte).

Definition dirstream : Type := list getdents_result.

(** [syscall.Getdents(fd, buff)]: the count, whether [err != nil], the
    buffer afterwards, and the directory afterwards. *)
Definition Getdents (fd : dirstream) (buff : list byte)
  : Z * bool * list byte * dirstream :=
  match fd with
  | [] => (0, false, buff, [])
  | GetdentsErr :: fd' => (-1, true, buff, fd')
  | GetdentsOk filled :: fd' =>
      (len filled, false, filled ++ skipn (List.length filled) buff, fd')
  end.

(** The variables of the iteration function, with the entries handed to
    [yield] so far. *)
Record readdir_state : Type := mkState {
  st_buff : list byte;
  st_pos : Z;
  st_avail : Z;
  st_fd : dirstream;
  st_yielded : list DirEntry
}.

Definition with_pos (st : readdir_state) (p : Z) : readdir_state :=
  {| st_buff := st_buff st; st_pos := p; st_avail := st_avail st;
     st_fd := st_fd st; st_yielded := st_yielded st |}.

Definition with_yielded (st : readdir_state) (e : DirEntry) : readdir_state :=
  {| st_buff := st_buff st; st_pos := st_pos st; st_avail := st_avail st;
     st_fd := st_fd st; st_yielded := st_yielded st ++ [e] |}.

(** How one pass through the body of the [for] loop ends. *)
Inductive flow : Type :=
| Continue (st : readdir_state)   (* next iteration *)
| Return (st : readdir_state).    (* the iteration function returns *)

(** How a run of the iteration function ends. *)
Inductive ending : Type :=
| Returned     (* it returned: the sequence is over *)
| Panicked     (* it panicked *)
| Unfinished.  (* it was still looping when the budget ran out *)

Section Iterator.

Variable NativeEndian : ByteOrder.

(** The consumer of the sequence: given the entries it has seen, whether
    it wants more after the next one. *)
Variable yield : list DirEntry -> DirEntry -> bool.

(** "(re)fill the buffer when necessary": [None] when the function
    returns there. *)
Definition refill (st : readdir_state) : option readdir_state :=
  if st_pos st >=? st_avail st then
    let '(avail, err, buff, fd) := Getdents (st_fd st) (st_buff st) in
    if err || (avail <=? 0) then None
    else Some {| st_buff := buff; st_pos := 0; st_avail := avail;
                 st_fd := fd; st_yielded := st_yielded st |}
  else Some st.

Definition ReadDir_body (st : readdir_state) : outcome flow :=
  match refill st with
  | None => Ret (Return st)
  | Some st =>
      dentry <- slice (st_buff st) (st_pos st) (st_avail st) ;;
      '(dentryLen, ok) <- RawDirEntry64.Len NativeEndian dentry ;;
      if negb ok || (dentryLen >? len dentry) then Ret (Return st)
      else
        let st := with_pos st (st_pos st + dentryLen) in
        '(ino, ok) <- RawDirEntry64.Ino NativeEndian dentry ;;
        if negb ok || (ino =? 0) then Ret (Continue st)
        else
          '(name, ok) <- RawDirEntry64.Name NativeEndian dentry ;;
          if negb ok then Ret (Return st)
          else if bytes_Equal name (str ".") || bytes_Equal name (str "..")
          then Ret (Continue st)
          else
            '(typ, ok) <- RawDirEntry64.Type_ dentry ;;
            if negb ok then Ret (Return st)
            else
              let dirEntry := {| Ino := ino; Name := name; Type_ := typ |} in
              if negb (yield (st_yielded st) dirEntry)
              then Ret (Return (with_yielded st dirEntry))
              else Ret (Continue (with_yielded st dirEntry))
  end.

(** The [for] loop, at most [fuel] passes: the entries yielded, and how
    the function ended.  A panic of the body comes from the record view,
    before the entry of that pass is yielded. *)
Fixpoint ReadDir_loop (fuel : nat) (st : readdir_state) : list DirEntry * ending :=
  match fuel with
  | O => (st_yielded st, Unfinished)
  | S fuel' =>
      match ReadDir_body st with
      | Ret (Continue st') => ReadDir_loop fuel' st'
      | Ret (Return st') => (st_yielded st', Returned)
      | Panic => (st_yielded st, Panicked)
      | OutOfFuel => (st_yielded st, Unfinished)
      end
  end.

(** [ReadDir(name)]: [opened] is what [unix.Open] gives for the name
    ([None] when it fails), [buff] the buffer taken from the pool. *)
Definition ReadDir (opened : option dirstream) (buff : list byte) (fuel : nat)
  : list DirEntry * ending :=
  match opened with
  | None => ([], Returned)
  | Some fd =>
      ReadDir_loop fuel
        {| st_buff := buff; st_pos := 0; st_avail := 0; st_fd := fd; st_yielded := [] |}
  end.

End Iterator.

(** ** readfile.go: reading a whole file

    [ReadFile] works on the capacity of the buffer it is given, so here
    a byte slice comes with its backing array: [arr] is the array from
    the first element of the slice up to its capacity, [blen] the length
    of the slice, and [backing] names the array (two slices share their
    array when the names are equal; a new array gets the next name). *)

Record byteslice : Type := mkSlice {
  arr : list byte;
  blen : Z;
  backing : nat
}.

(** Go's [cap] and the elements of the slice. *)
Definition cap (s : byteslice) : Z := len (arr s).
Definition contents (s : byteslice) : list byte := firstn (Z.to_nat (blen s)) (arr s).

(** The slice expression [s[:hi]], which may reach up to the capacity. *)
Definition reslice (s : byteslice) (hi : Z) : outcome byteslice :=
  if (0 <=? hi) && (hi <=? cap s)
  then Ret {| arr := arr s; blen := hi; backing := backing s |}
  else Panic.

(** [make([]byte, 0, size)], the new array named after [s]'s. *)
Definition make_after (s : byteslice) (size : Z) : byteslice :=
  {| arr := repeat x00 (Z.to_nat size); blen := 0; backing := S (backing s) |}.

(** What the next [unix.Read] on an open file does: it delivers bytes,
    at most [limit] of them, or it fails and returns the count [n] with
    the error.  An open file is the bytes not yet read and the behaviour
    of the reads to come; when that list is used up, a read delivers as
    many bytes as there is room for. *)
Inductive read_event : Type :=
| ReadAtMost (limit : Z)
| ReadFails (n : Z).

Record file : Type := mkFile {
  f_rest : list byte;
  f_events : list read_event
}.

(** [unix.Read(fd, p)] with [room = len(p)]: the count, whether
    [err != nil], the bytes written to the start of [p], and the file
    afterwards. *)
Definition Read (f : file) (room : Z) : Z * bool * list byte * file :=
  match f_events f with
  | ReadFails n :: events => (n, true, [], {| f_rest := f_rest f; f_events := events |})
  | ReadAtMost limit :: events =>
      let k := Z.to_nat (Z.min room limit) in
      (len (firstn k (f_rest f)), false, firstn k (f_rest f),
       {| f_rest := skipn k (f_rest f); f_events := events |})
  | [] =>
      let k := Z.to_nat room in
      (len (firstn k (f_rest f)), false, firstn k (f_rest f),
       {| f_rest := skipn k (f_rest f); f_events := [] |})
  end.

(** The array after [w] has been written into it from index [at]. *)
Definition write_at (a : list byte) (at_ : Z) (w : list byte) : list byte :=
  firstn (Z.to_nat at_) a ++ w ++ skipn (Z.to_nat at_ + length w) a.

Section ReadFileModel.

(** The capacity the runtime chooses when [append] grows a full slice of
    the given capacity; [append] makes room for the new element in any
    case. *)
Variable growslice : Z -> Z.

(** [d := append(buffer[:cap(buffer)], 0); buffer = d[:len(buffer)]]:
    a new array with the old elements, the appended 0 and zeroed spare
    capacity. *)
Definition grow (s : byteslice) : byteslice :=
  {| arr := arr s ++ x00 :: repeat x00 (Z.to_nat (growslice (cap s) - cap s - 1));
     blen := blen s;
     backing := S (backing s) |}.

Fixpoint ReadFile_loop (fuel : nat) (fd : file) (buffer : byteslice)
  : outcome (byteslice * bool) :=
  match fuel with
  | O => OutOfFuel
  | S fuel' =>
      p <- slice (arr buffer) (blen buffer) (cap buffer) ;;
      let '(n, err, w, fd) := Read fd (len p) in
      let buffer := {| arr := write_at (arr buffer) (blen buffer) w;
                       blen := blen buffer; backing := backing buffer |} in
      buffer <- reslice buffer (blen buffer + n) ;;
      if err then Ret (buffer, false)
      else if n =? 0 then Ret (buffer, true)
      else if blen buffer =? cap buffer then ReadFile_loop fuel' fd (grow buffer)
      else ReadFile_loop fuel' fd buffer
  end.

(** [ReadFile(name, buffer)]: [opened] is what [unix.Open] gives for the
    name ([None] when it fails).  Every pass of the loop but the last
    reads at least one of the bytes left, which bounds the passes. *)
Definition ReadFile (opened : option file) (buffer : byteslice)
  : outcome (byteslice * bool) :=
  match opened with
  | None => Ret (buffer, false)
  | Some fd =>
      let size := 512 in
      buffer <- reslice buffer 0 ;;
      let buffer := if size >? cap buffer then make_after buffer size else buffer in
      ReadFile_loop (S (length (f_rest fd))) fd buffer
  end.

End ReadFileModel.

(** Reads that deliver something whenever something is left. *)
Definition delivers (e : read_event) : Prop :=
  match e with
  | ReadAtMost limit => 1 <= limit
  | ReadFails _ => False
  end.

(** ** Digit strings and their values

    The mathematical reading of a digit string, independent of the
    scanner: a digit's value is its place in the digit alphabet. *)

Fixpoint index_of (c : byte) (alphabet : list byte) : option Z :=
  match alphabet with
  | [] => None
  | a :: alphabet' =>
      if Byte.eqb c a then Some 0
      else option_map Z.succ (index_of c alphabet')
  end.

Definition dec_digit_value (c : byte) : option Z :=
  index_of c (str "0123456789").

Definition hex_digit_value (c : byte) : option Z :=
  match index_of c (str "0123456789abcdef") with
  | Some v => Some v
  | None => option_map (Z.add 10) (index_of c (str "ABCDEF"))
  end.

Definition is_digit (value : byte -> option Z) (c : byte) : Prop :=
  value c <> None.

(** The value of the digit string [cs] in base [base], continuing from
    the value [acc] of the digits before it. *)
Definition digits_value (value : byte -> option Z) (base : Z) (acc : Z) (cs : list byte) : Z :=
  fold_left (fun a c => a * base + match value c with Some v => v | None => 0 end) cs acc.

Definition dec_value (cs : list byte) : Z := digits_value dec_digit_value 10 0 cs.
Definition hex_value (cs : list byte) : Z := digits_value hex_digit_value 16 0 cs.

(** A scan stops in front of [post]: at the end, or at a non-digit. *)
Definition stops (value : byte -> option Z) (post : list byte) : Prop :=
  match post with
  | [] => True
  | c :: _ => value c = None
  end.

(** ** Formatting, after [strconv.FormatUint]

    The digit loop of [strconv.formatBits]: the least significant digit
    is produced first and written in front of those already produced.  A
    64-bit value has at most 64 digits in any base. *)

Definition strconv_digits : list byte := str "0123456789abcdefghijklmnopqrstuvwxyz".

Fixpoint formatBits (fuel : nat) (u base : Z) (a : list byte) : list byte :=
  match fuel with
  | O => a
  | S fuel' =>
      if u >=? base then
        let q := u / base in
        formatBits fuel' q base (nth (Z.to_nat (u - q * base)) strconv_digits x00 :: a)
      else nth (Z.to_nat u) strconv_digits x00 :: a
  end.

Definition FormatUint (u base : Z) : list byte := formatBits 64 u base [].

(** ** Entry types and their descriptions

    The values of [unix.DT_FIFO], [DT_CHR], [DT_DIR], [DT_BLK], [DT_REG],
    [DT_LNK] and [DT_SOCK] of golang.org/x/sys/unix on Linux. *)

Definition DT_FIFO : byte := x01.
Definition DT_CHR : byte := x02.
Definition DT_DIR : byte := x04.
Definition DT_BLK : byte := x06.
Definition DT_REG : byte := x08.
Definition DT_LNK : byte := x0a.
Definition DT_SOCK : byte := x0c.

Definition DirEntryFIFO : DirEntryType := DT_FIFO.
Definition DirEntryChar : DirEntryType := DT_CHR.
Definition DirEntryBlock : DirEntryType := DT_BLK.
Definition DirEntryDir : DirEntryType := DT_DIR.
Definition DirEntryRegular : DirEntryType := DT_REG.
Definition DirEntrySymlink : DirEntryType := DT_LNK.
Definition DirEntrySocket : DirEntryType := DT_SOCK.

Definition dirEntryTypeDescription : list (DirEntryType * list byte) :=
  [ (DirEntryFIFO, str "FIFO/pipe");
    (DirEntryChar, str "char device");
    (DirEntryBlock, str "block device");
    (DirEntryDir, str "directory");
    (DirEntryRegular, str "regular file");
    (DirEntrySymlink, str "symbolic link");
    (DirEntrySocket, str "socket") ].

(** The lookup [desc, ok := dirEntryTypeDescription[t]]. *)
Fixpoint description_of (t : DirEntryType) (table : list (DirEntryType * list byte))
  : option (list byte) :=
  match table with
  | [] => None
  | (k, desc) :: table' => if Byte.eqb t k then Some desc else description_of t table'
  end.

(** [DirEntryType.String]; [fmt.Sprintf] with [%d] writes the decimal
    text of the type. *)
Definition DirEntryType_String (t : DirEntryType) : list byte :=
  match description_of t dirEntryTypeDescription with
  | Some desc => desc
  | None => str "DirEntryType(" ++ FormatUint (u8 t) 10 ++ str ")"
  end.

(** [DirEntry.IsDir] and its siblings. *)
Definition IsDir (d : DirEntry) : bool := Byte.eqb (Type_ d) DT_DIR.
Definition IsRegular (d : DirEntry) : bool := Byte.eqb (Type_ d) DT_REG.
Definition IsSymlink (d : DirEntry) : bool := Byte.eqb (Type_ d) DT_LNK.
Definition IsPipe (d : DirEntry) : bool := Byte.eqb (Type_ d) DT_FIFO.
Definition IsSocket (d : DirEntry) : bool := Byte.eqb (Type_ d) DT_SOCK.
Definition IsCharDev (d : DirEntry) : bool := Byte.eqb (Type_ d) DT_CHR.
Definition IsBlockDev (d : DirEntry) : bool := Byte.eqb (Type_ d) DT_BLK.

(** All values of a byte, and a test that the elements of a list of
    byte strings are pairwise different. *)
Definition all_bytes : list byte := map (fun n => byte_of_Z (Z.of_nat n)) (seq 0 256).

Fixpoint all_different (l : list (list byte)) : bool :=
  match l with
  | [] => true
  | x :: l' => negb (existsb (bytes_Equal x) l') && all_different l'
  end.

(** ** Well-formed directory data

    What [getdents64] puts into the buffer for one entry: the inode, the
    offset of the next entry, the record length, the type, the name with
    its terminating NUL, and padding up to the record length. *)

Record dirent : Type := mkDirent {
  d_ino : Z;
  d_off : Z;
  d_type : byte;
  d_name : list byte;
  d_pad : list byte
}.

Definition d_reclen (r : dirent) : Z :=
  Offsetof_Name + len (d_name r) + 1 + len (d_pad r).

Fixpoint encode_le (size : nat) (z : Z) : list byte :=
  match size with
  | O => []
  | S size' => byte_of_Z z :: encode_le size' (z / 256)
  end.

Definition encode_uint (order : ByteOrder) (size : nat) (z : Z) : list byte :=
  match order with
  | LittleEndian => encode_le size z
  | BigEndian => rev (encode_le size z)
  end.

Definition encode_dirent (order : ByteOrder) (r : dirent) : list byte :=
  encode_uint order 8 (d_ino r) ++ encode_uint order 8 (d_off r)
  ++ encode_uint order 2 (d_reclen r) ++ [d_type r]
  ++ d_name r ++ [x00] ++ d_pad r.

Definition encode_batch (order : ByteOrder) (rs : list dirent) : list byte :=
  concat (map (encode_dirent order) rs).

Definition wf_dirent (r : dirent) : Prop :=
  0 <= d_ino r < 2 ^ 64 /\ Forall (fun c => c <> x00) (d_name r) /\ d_reclen r < 2 ^ 16.

(** A batch is what one successful, non-empty read delivers. *)
Definition wf_batch (rs : list dirent) : Prop :=
  rs <> [] /\ Forall wf_dirent rs.

(** A directory that is read without error in the batches [dir]. *)
Definition dirstream_of (order : ByteOrder) (dir : list (list dirent)) : dirstream :=
  map (fun rs => GetdentsOk (encode_batch order rs)) dir.

Definition bytes_eqb (x y : list byte) : bool :=
  if list_eq_dec Byte.byte_eq_dec x y then true else false.

(** The entries that are to be reported: not a tombstone, not "." or "..". *)
Definition real_entry (r : dirent) : bool :=
  negb (d_ino r =? 0) && negb (bytes_eqb (d_name r) (str "."))
  && negb (bytes_eqb (d_name r) (str "..")).

Definition cooked (r : dirent) : DirEntry :=
  {| Ino := d_ino r; Name := d_name r; Type_ := d_type r |}.

(** The name region of a record cut at its first NUL. *)
Fixpoint until_NUL (region : list byte) : list byte :=
  match region with
  | [] => []
  | c :: region' => if Byte.eqb c x00 then [] else c :: until_NUL region'
  end.

(** The state of the iteration in the middle of a batch: the records
    before the scan position take up [prefix], the records [rs] are still
    to be scanned, and [stale] is what earlier reads left in the rest of
    the buffer. *)
Definition scan_state (order : ByteOrder) (prefix : list byte) (rs : list dirent)
           (stale : list byte) (fd : dirstream) (yielded : list DirEntry) : readdir_state :=
  {| st_buff := prefix ++ encode_batch order rs ++ stale;
     st_pos := len prefix;
     st_avail := len prefix + len (encode_batch order rs);
     st_fd := fd;
     st_yielded := yielded |}.

(** The entries a consumer is handed out of the sequence [es], having
    seen [seen] before: all up to and including the first one at which it
    declines to go on. *)
Fixpoint consumed (yield : list DirEntry -> DirEntry -> bool) (seen es : list DirEntry)
  : list DirEntry :=
  match es with
  | [] => []
  | e :: es' => if yield seen e then e :: consumed yield (seen ++ [e]) es' else [e]
  end.

(** Whether the consumer declines to go on at some entry of [es]. *)
Fixpoint declines (yield : list DirEntry -> DirEntry -> bool) (seen es : list DirEntry)
  : bool :=
  match es with
  | [] => false
  | e :: es' => if yield seen e then declines yield (seen ++ [e]) es' else true
  end.

(** The entries of the records [rs] that are to be reported. *)
Definition entries (rs : list dirent) : list DirEntry :=
  map cooked (filter real_entry rs).

(** A read that ends the directory: none is left, or the next one fails
    or delivers nothing. *)
Definition stream_ends (tail : dirstream) : Prop :=
  match tail with
  | [] => True
  | GetdentsErr :: _ => True
  | GetdentsOk filled :: _ => filled = []
  end.

(** Bytes at the scan position that are no complete record: too few to
    hold the record length, or fewer than the record length says. *)
Definition broken_record (order : ByteOrder) (junk : list byte) : Prop :=
  junk <> []
  /\ (len junk < Offsetof_Reclen + Sizeof_Reclen
      \/ exists reclen, RawDirEntry64.Len order junk = Ret (reclen, true) /\ len junk < reclen).

(** The state of the iteration in the middle of a batch that ends with
    the bytes [junk] behind its last complete record. *)
Definition scan_state_junk (order : ByteOrder) (prefix : list byte) (rs : list dirent)
           (junk stale : list byte) (fd : dirstream) (yielded : list DirEntry)
  : readdir_state :=
  {| st_buff := prefix ++ (encode_batch order rs ++ junk) ++ stale;
     st_pos := len prefix;
     st_avail := len prefix + len (encode_batch order rs ++ junk);
     st_fd := fd;
     st_yielded := yielded |}.

(** What holds of every entry that is ever yielded. *)
Definition reportable (e : DirEntry) : Prop :=
  Ino e <> 0 /\ Name e <> str "." /\ Name e <> str ".."
  /\ Forall (fun c => c <> x00) (Name e).

(** A directory after the pattern of the package's test data (the file
    "bar" and the directory "baz"), with the slot of a deleted name, read
    in two batches. *)
Definition sample_directory : list (list dirent) :=
  [ [ mkDirent 100 1 x04 (str ".") [x00; x00; x00; x00];
      mkDirent 7 2 x04 (str "..") [x00; x00; x00];
      mkDirent 0 3 x08 (str "gone") [x00];
      mkDirent 101 4 x08 (str "bar") [x00; x00] ];
    [ mkDirent 102 5 x04 (str "baz") [x00; x00] ] ].

(** The consumer that never stops the iteration. *)
Definition take_all (seen : list DirEntry) (e : DirEntry) : bool := true.

(** ** Scanner invariant *)

Definition cursor_ok (bs : Bytestring) : Prop := 0 <= pos bs <= len (b bs).

(** [bs'] is [bs] with the cursor moved forward, still inside the slice. *)
Definition advanced (bs bs' : Bytestring) : Prop :=
  b bs' = b bs /\ pos bs <= pos bs' /\ cursor_ok bs'.

(** What the operations of the scanner do to the cursor.  [EOL] is a
    function from the scanner to [bool]: it only reads. *)
Definition operations_advance (bs : Bytestring) : Prop :=
  (exists eol bs', SkipSpace bs = Ret (eol, bs') /\ advanced bs bs')
  /\ (forall s, exists ok bs', SkipText bs s = Ret (ok, bs') /\ advanced bs bs')
  /\ (exists ch ok bs', Next bs = Ret (ch, ok, bs') /\ advanced bs bs')
  /\ (exists num ok bs', Uint64 bs = Ret (num, ok, bs') /\ advanced bs bs')
  /\ (exists num ok bs', HexUint64 bs = Ret (num, ok, bs') /\ advanced bs bs')
  /\ (exists num, NumFields bs = Ret (num, bs)).

(** Whether a name region holds a NUL. *)
Definition has_NUL (region : list byte) : bool :=
  existsb (fun c => Byte.eqb c x00) region.

(** ** Runs of bytes and fields of a line *)

Definition is_space (c : byte) : Prop := c = " "%byte.
Definition is_field_byte (c : byte) : Prop := ~ is_space c.

(** A run of bytes with the property [P] ends in front of [post]: at the
    end of the slice, or at a byte without the property. *)
Definition run_ends (P : byte -> Prop) (post : list byte) : Prop :=
  match post with
  | [] => True
  | c :: _ => ~ P c
  end.

(** The number of fields of a line, counted in one pass from left to
    right: a field begins at every byte other than a space that is the
    first byte or follows a space.  [in_field] tells whether the byte
    before was part of a field. *)
Fixpoint count_fields (in_field : bool) (l : list byte) : Z :=
  match l with
  | [] => 0
  | c :: l' =>
      if Byte.eqb c " " then count_fields false l'
      else (if in_field then 0 else 1) + count_fields true l'
  end.

(** ** Checks of the model against the package's tests *)

Example SkipSpace_test :
  SkipSpace (NewBytestring (str "   foo")) = Ret (false, mkBytestring (str "   foo") 3).
Proof. reflexivity. Qed.

Example SkipText_test :
  SkipText (NewBytestring (str "bar")) (str "barz") = Ret (false, NewBytestring (str "bar"))
  /\ SkipText (NewBytestring (str "bar")) (str "bar") = Ret (true, mkBytestring (str "bar") 3).
Proof. split; reflexivity. Qed.

Example Uint64_test :
  Uint64 (NewBytestring (str "1234567890123"))
  = Ret (1234567890123, true, mkBytestring (str "1234567890123") 13)
  /\ Uint64 (NewBytestring (str "7foo")) = Ret (7, true, mkBytestring (str "7foo") 1)
  /\ Uint64 (NewBytestring (str "foo")) = Ret (0, false, NewBytestring (str "foo")).
Proof. repeat split; vm_compute; reflexivity. Qed.

Example NumFields_test :
  NumFields (NewBytestring (str "")) = Ret (0, NewBytestring (str ""))
  /\ NumFields (NewBytestring (str " ")) = Ret (0, NewBytestring (str " "))
  /\ NumFields (NewBytestring (str " F  BAR BAZ")) = Ret (3, NewBytestring (str " F  BAR BAZ"))
  /\ NumFields (NewBytestring (str " F  BAR BAZ RATZ "))
     = Ret (4, NewBytestring (str " F  BAR BAZ RATZ ")).
Proof. repeat split; vm_compute; reflexivity. Qed.

Example FormatUint_test :
  FormatUint 0 10 = str "0" /\ FormatUint 42 10 = str "42"
  /\ FormatUint MaxUint64 10 = str "18446744073709551615"
  /\ FormatUint MaxUint64 16 = str "ffffffffffffffff"
  /\ FormatUint 48879 16 = str "beef".
Proof. repeat split; vm_compute; reflexivity. Qed.

Example values_test :
  dec_value (str "18446744073709551616") = 2 ^ 64
  /\ hex_value (str "00Ff") = 255
  /\ hex_digit_value "g" = None /\ dec_digit_value "a" = None.
Proof. repeat split; vm_compute; reflexivity. Qed.

Example readUint_test :
  RawDirEntry64.readUint LittleEndian [] 0 8 = Ret (0, false)
  /\ RawDirEntry64.readUint BigEndian [x01; x02; x03; x04] 1 4 = Ret (0, false)
  /\ RawDirEntry64.readUint LittleEndian [x01; x02; x03; x04] 0 3 = Ret (0, false)
  /\ RawDirEntry64.readUint LittleEndian (encode_le 4 0 ++ encode_le 4 42 ++ encode_le 4 123) 4 4
     = Ret (42, true)
  /\ RawDirEntry64.readUint BigEndian (rev (encode_le 2 0) ++ rev (encode_le 2 42)) 2 2
     = Ret (42, true).
Proof. repeat split; vm_compute; reflexivity. Qed.

(** The record of the package's tests: [makeRawDirEntry64(666, "foobarz", t)]. *)
Example Name_test :
  let rde := encode_dirent LittleEndian (mkDirent 666 0 x04 (str "foobarz") []) in
  RawDirEntry64.Name LittleEndian rde = Ret (str "foobarz", true)
  /\ RawDirEntry64.Name LittleEndian (firstn 19 rde) = Ret ([], false)
  /\ RawDirEntry64.Name LittleEndian (firstn 16 rde) = Ret ([], false)
  /\ RawDirEntry64.Ino LittleEndian rde = Ret (666, true)
  /\ RawDirEntry64.Type_ rde = Ret (x04, true)
  /\ RawDirEntry64.Type_ (firstn 18 rde) = Ret (x00, false).
Proof. repeat split; vm_compute; reflexivity. Qed.

(** ** Lists, lengths and bytes *)

Arguments len : simpl never.
Arguments wrap64 : simpl never.
Arguments wrap8 : simpl never.
Arguments u8 : simpl never.

Lemma len_nil {A : Type} : len (@nil A) = 0.
Proof. reflexivity. Qed.

Lemma len_cons {A : Type} (x : A) (l : list A) : len (x :: l) = len l + 1.
Proof. unfold len. cbn [length]. lia. Qed.

Lemma len_app {A : Type} (l1 l2 : list A) : len (l1 ++ l2) = len l1 + len l2.
Proof. unfold len. rewrite length_app. lia. Qed.

Lemma len_nonneg {A : Type} (l : list A) : 0 <= len l.
Proof. unfold len. lia. Qed.

Lemma len_firstn {A : Type} (n : Z) (l : list A) :
  0 <= n <= len l -> len (firstn (Z.to_nat n) l) = n.
Proof. unfold len. intros H. rewrite length_firstn. lia. Qed.

Lemma len_skipn {A : Type} (n : Z) (l : list A) :
  0 <= n <= len l -> len (skipn (Z.to_nat n) l) = len l - n.
Proof. unfold len. intros H. rewrite length_skipn. lia. Qed.

Create Rewrite HintDb len.
#[global] Hint Rewrite @len_nil @len_cons @len_app : len.

Ltac len_simpl := autorewrite with len in *.

Lemma u8_range (c : byte) : 0 <= u8 c <= 255.
Proof.
  unfold u8. pose proof (Byte.to_N_bounded c) as H. lia.
Qed.

Lemma u8_inj (c d : byte) : u8 c = u8 d -> c = d.
Proof.
  unfold u8. intros H. apply N2Z.inj in H.
  pose proof (Byte.of_to_N c) as Hc. rewrite H, Byte.of_to_N in Hc. congruence.
Qed.

Lemma u8_zero (c : byte) : u8 c = 0 <-> c = x00.
Proof.
  split; intros H; [apply u8_inj; exact H | subst; reflexivity].
Qed.

Lemma u8_byte_of_Z (z : Z) : u8 (byte_of_Z z) = z mod 256.
Proof.
  unfold byte_of_Z, wrap8. change (2 ^ 8) with 256.
  assert (Hr : 0 <= z mod 256 < 256) by (apply Z.mod_pos_bound; lia).
  destruct (Byte.of_N (Z.to_N (z mod 256))) as [c|] eqn:E.
  - apply Byte.to_of_N in E. unfold u8. rewrite E. lia.
  - apply Byte.of_N_None_iff in E. lia.
Qed.

Lemma index_app (pre post : list byte) (c : byte) :
  index (pre ++ c :: post) (len pre) = Ret c.
Proof.
  unfold index. len_simpl.
  pose proof (len_nonneg pre). pose proof (len_nonneg post).
  replace ((0 <=? len pre) && (len pre <? len pre + (len post + 1))) with true
    by (symmetry; apply andb_true_iff; split; [apply Z.leb_le | apply Z.ltb_lt]; lia).
  unfold len. rewrite Nat2Z.id, nth_middle. reflexivity.
Qed.

Lemma index_inside (l : list byte) (i : Z) :
  0 <= i < len l -> exists c, index l i = Ret c.
Proof.
  intros H. unfold index.
  replace ((0 <=? i) && (i <? len l)) with true
    by (symmetry; apply andb_true_iff; split; [apply Z.leb_le | apply Z.ltb_lt]; lia).
  eauto.
Qed.

Lemma sublist_app (pre mid post : list byte) :
  sublist (len pre) (len pre + len mid) (pre ++ mid ++ post) = mid.
Proof.
  unfold sublist, len. rewrite Nat2Z.id.
  replace (Z.to_nat (Z.of_nat (length pre) + Z.of_nat (length mid) - Z.of_nat (length pre)))
    with (length mid) by lia.
  rewrite skipn_app, skipn_all, Nat.sub_diag. cbn [skipn app].
  rewrite firstn_app, firstn_all, Nat.sub_diag. cbn [firstn]. apply app_nil_r.
Qed.

Lemma slice_app (pre mid post : list byte) :
  slice (pre ++ mid ++ post) (len pre) (len pre + len mid) = Ret mid.
Proof.
  unfold slice. rewrite sublist_app. len_simpl.
  pose proof (len_nonneg pre). pose proof (len_nonneg mid). pose proof (len_nonneg post).
  replace ((0 <=? len pre) && (len pre <=? len pre + len mid)
           && (len pre + len mid <=? len pre + (len mid + len post))) with true.
  - reflexivity.
  - symmetry. rewrite !andb_true_iff, !Z.leb_le. lia.
Qed.

Lemma bytes_Equal_eq (x y : list byte) : bytes_Equal x y = true <-> x = y.
Proof.
  revert y. induction x as [|c x IH]; intros [|d y]; cbn [bytes_Equal];
    try (split; [discriminate | congruence]); try tauto.
  rewrite andb_true_iff, IH. split.
  - intros [Hc Hx]. apply Byte.byte_dec_bl in Hc. congruence.
  - intros H. injection H as -> ->. split; [apply Byte.byte_dec_lb|]; reflexivity.
Qed.

Lemma bytes_Equal_eqb (x y : list byte) : bytes_Equal x y = bytes_eqb x y.
Proof.
  unfold bytes_eqb. destruct (list_eq_dec Byte.byte_eq_dec x y) as [E|E].
  - apply bytes_Equal_eq. exact E.
  - destruct (bytes_Equal x y) eqn:H; [|reflexivity].
    apply bytes_Equal_eq in H. contradiction.
Qed.

(** ** Digit strings *)

Lemma index_of_range (c : byte) (alphabet : list byte) (v : Z) :
  index_of c alphabet = Some v -> 0 <= v < len alphabet.
Proof.
  revert v. induction alphabet as [|a l IH]; intros v; cbn [index_of].
  - discriminate.
  - len_simpl. pose proof (len_nonneg l). destruct (Byte.eqb c a).
    + intros [= <-]. lia.
    + destruct (index_of c l) as [w|]; cbn [option_map]; [|discriminate].
      intros [= <-]. specialize (IH w eq_refl). lia.
Qed.

Lemma dec_digit_value_range (c : byte) (v : Z) :
  dec_digit_value c = Some v -> 0 <= v <= 9.
Proof.
  unfold dec_digit_value. intros H. apply index_of_range in H.
  change (len (str "0123456789")) with 10 in H. lia.
Qed.

Lemma hex_digit_value_range (c : byte) (v : Z) :
  hex_digit_value c = Some v -> 0 <= v <= 15.
Proof.
  unfold hex_digit_value. intros H.
  destruct (index_of c (str "0123456789abcdef")) as [w|] eqn:E.
  - injection H as <-. apply index_of_range in E.
    change (len (str "0123456789abcdef")) with 16 in E. lia.
  - destruct (index_of c (str "ABCDEF")) as [w|] eqn:E'; unfold option_map in H; [|discriminate].
    assert (Hv : v = 10 + w) by congruence. subst v. apply index_of_range in E'.
    change (len (str "ABCDEF")) with 6 in E'. lia.
Qed.

(** The digit test of [Uint64] accepts exactly the decimal digits, and
    [ch - '0'] is the digit's value. *)
Lemma Uint64_digit_test (c : byte) :
  dec_digit_value c
  = if (u8 c <? u8 "0") || (u8 c >? u8 "9") then None else Some (wrap8 (u8 c - u8 "0")).
Proof. destruct c; reflexivity. Qed.

(** The digit selection of [HexUint64] gives the value of the digit. *)
Lemma hex_digit_correct (c : byte) : hex_digit c = hex_digit_value c.
Proof. destruct c; reflexivity. Qed.

Section DigitsValue.

Variable value : byte -> option Z.
Variable base : Z.
Hypothesis base_pos : 1 <= base.
Hypothesis value_nonneg : forall c v, value c = Some v -> 0 <= v.

Lemma digits_value_cons (acc : Z) (c : byte) (cs : list byte) :
  digits_value value base acc (c :: cs)
  = digits_value value base (acc * base + match value c with Some v => v | None => 0 end) cs.
Proof. reflexivity. Qed.

Lemma digits_value_app (acc : Z) (cs ds : list byte) :
  digits_value value base acc (cs ++ ds)
  = digits_value value base (digits_value value base acc cs) ds.
Proof. unfold digits_value. apply fold_left_app. Qed.

Lemma digits_value_step_ge (acc : Z) (c : byte) :
  0 <= acc -> acc <= acc * base + match value c with Some v => v | None => 0 end.
Proof.
  intros H. destruct (value c) as [v|] eqn:E.
  - apply value_nonneg in E. nia.
  - nia.
Qed.

Lemma digits_value_ge (cs : list byte) (acc : Z) :
  0 <= acc -> acc <= digits_value value base acc cs.
Proof.
  revert acc. induction cs as [|c cs IH]; intros acc H.
  - cbn. lia.
  - rewrite digits_value_cons. pose proof (digits_value_step_ge acc c H).
    etransitivity; [eassumption|]. apply IH. lia.
Qed.

Lemma digits_value_mono (cs : list byte) (acc acc' : Z) :
  acc <= acc' -> digits_value value base acc cs <= digits_value value base acc' cs.
Proof.
  revert acc acc'. induction cs as [|c cs IH]; intros acc acc' H.
  - cbn. lia.
  - rewrite !digits_value_cons. apply IH. nia.
Qed.

End DigitsValue.

(** ** The decimal scanning loop *)

Ltac zcompare :=
  repeat match goal with
         | |- context [?a >=? ?b] => rewrite (Z.geb_leb a b)
         | |- context [?a >? ?b] => rewrite (Z.gtb_ltb a b)
         | H : context [?a >=? ?b] |- _ => rewrite (Z.geb_leb a b) in H
         | H : context [?a >? ?b] |- _ => rewrite (Z.gtb_ltb a b) in H
         end.

Ltac ztrue := symmetry; repeat rewrite ?andb_true_iff, ?Z.leb_le, ?Z.ltb_lt; try lia.
Ltac zfalse := symmetry; repeat rewrite ?orb_false_iff, ?Z.leb_gt, ?Z.ltb_ge; try lia.

Lemma at_end_iff (pre rest : list byte) :
  (len pre >=? len (pre ++ rest)) = match rest with [] => true | _ => false end.
Proof.
  zcompare. len_simpl. destruct rest as [|c rest]; len_simpl.
  - apply Z.leb_le. lia.
  - pose proof (len_nonneg rest). apply Z.leb_gt. lia.
Qed.

Lemma cutoffDecimalUint64_value : cutoffDecimalUint64 = 1844674407370955162.
Proof. reflexivity. Qed.

Lemma MaxUint64_value : MaxUint64 = 18446744073709551615.
Proof. reflexivity. Qed.

Lemma wrap64_small (z : Z) : 0 <= z <= MaxUint64 -> wrap64 z = z.
Proof. rewrite MaxUint64_value. intros H. unfold wrap64. apply Z.mod_small. lia. Qed.

Lemma wrap64_range (z : Z) : 0 <= wrap64 z <= MaxUint64.
Proof.
  rewrite MaxUint64_value. unfold wrap64.
  pose proof (Z.mod_pos_bound z (2 ^ 64) ltac:(lia)). lia.
Qed.

(** On a run of decimal digits whose value fits 64 bits the loop consumes
    the whole run and returns its value. *)
Lemma Uint64_loop_digits (cs : list byte) :
  forall (pre post : list byte) (num : Z) (ok : bool) (fuel : nat),
    Forall (is_digit dec_digit_value) cs ->
    stops dec_digit_value post ->
    0 <= num ->
    digits_value dec_digit_value 10 num cs <= MaxUint64 ->
    (cs = [] -> ok = true) ->
    (length cs < fuel)%nat ->
    Uint64_loop fuel (mkBytestring (pre ++ cs ++ post) (len pre)) num ok
    = Ret (digits_value dec_digit_value 10 num cs, true,
           mkBytestring (pre ++ cs ++ post) (len pre + len cs)).
Proof.
  induction cs as [|c cs IH]; intros pre post num ok fuel Hd Hs Hn Hv Hok Hf;
    (destruct fuel as [|fuel]; [cbn [length] in Hf; lia|]);
    cbn [Uint64_loop b pos app]; rewrite at_end_iff.
  - rewrite (Hok eq_refl). len_simpl. rewrite Z.add_0_r.
    destruct post as [|p post]; [reflexivity|].
    rewrite index_app. cbn [bind]. cbn [stops] in Hs.
    rewrite Uint64_digit_test in Hs.
    destruct ((u8 p <? u8 "0") || (u8 p >? u8 "9")); [reflexivity | discriminate].
  - rewrite index_app. cbn [bind].
    apply Forall_cons_iff in Hd. destruct Hd as [Hc Hd]. unfold is_digit in Hc.
    rewrite digits_value_cons in Hv |- *.
    destruct (dec_digit_value c) as [v|] eqn:Ev; [clear Hc | congruence].
    pose proof (dec_digit_value_range c v Ev) as Hr.
    rewrite Uint64_digit_test in Ev.
    destruct ((u8 c <? u8 "0") || (u8 c >? u8 "9")); [discriminate|].
    injection Ev as Ev. rewrite Ev.
    pose proof (digits_value_ge dec_digit_value 10 ltac:(lia)
                  (fun c v H => proj1 (dec_digit_value_range c v H)) cs (num * 10 + v)
                  ltac:(lia)) as Hge.
    replace (num >=? cutoffDecimalUint64) with false
      by (zcompare; rewrite cutoffDecimalUint64_value; rewrite MaxUint64_value in *; zfalse).
    rewrite wrap64_small by lia.
    unfold set_pos. cbn [b pos].
    replace (pre ++ c :: cs ++ post) with ((pre ++ [c]) ++ cs ++ post)
      by (rewrite <- app_assoc; reflexivity).
    replace (len pre + 1) with (len (pre ++ [c])) by (len_simpl; lia).
    rewrite IH; try assumption; try lia; try (intros; reflexivity).
    + len_simpl. do 3 f_equal. lia.
    + cbn [length] in Hf. lia.
Qed.

(** ** The hexadecimal scanning loop *)

Lemma cutoffHexUint64_value : cutoffHexUint64 = 1152921504606846976.
Proof. reflexivity. Qed.

(** Below the cutoff, shifting in one more nibble does not wrap. *)
Lemma hex_step_exact (num v : Z) :
  0 <= num < cutoffHexUint64 -> 0 <= v <= 15 ->
  wrap64 (wrap64 (Z.shiftl num 4) + v) = num * 16 + v.
Proof.
  rewrite cutoffHexUint64_value. intros Hn Hv.
  rewrite Z.shiftl_mul_pow2 by lia. change (2 ^ 4) with 16.
  rewrite (wrap64_small (num * 16)) by (rewrite MaxUint64_value; lia).
  apply wrap64_small. rewrite MaxUint64_value. lia.
Qed.

(** On a run of hexadecimal digits whose value fits 64 bits the loop
    consumes the whole run and returns its value. *)
Lemma HexUint64_loop_digits (cs : list byte) :
  forall (pre post : list byte) (num : Z) (ok : bool) (fuel : nat),
    Forall (is_digit hex_digit_value) cs ->
    stops hex_digit_value post ->
    0 <= num ->
    digits_value hex_digit_value 16 num cs <= MaxUint64 ->
    (cs = [] -> ok = true) ->
    (length cs < fuel)%nat ->
    HexUint64_loop fuel (mkBytestring (pre ++ cs ++ post) (len pre)) num ok
    = Ret (digits_value hex_digit_value 16 num cs, true,
           mkBytestring (pre ++ cs ++ post) (len pre + len cs)).
Proof.
  induction cs as [|c cs IH]; intros pre post num ok fuel Hd Hs Hn Hv Hok Hf;
    (destruct fuel as [|fuel]; [cbn [length] in Hf; lia|]);
    cbn [HexUint64_loop b pos app]; rewrite at_end_iff.
  - rewrite (Hok eq_refl). len_simpl. rewrite Z.add_0_r.
    destruct post as [|p post]; [reflexivity|].
    rewrite index_app. cbn [bind]. cbn [stops] in Hs.
    rewrite hex_digit_correct, Hs. reflexivity.
  - rewrite index_app. cbn [bind].
    apply Forall_cons_iff in Hd. destruct Hd as [Hc Hd]. unfold is_digit in Hc.
    rewrite digits_value_cons in Hv |- *. rewrite hex_digit_correct.
    destruct (hex_digit_value c) as [v|] eqn:Ev; [clear Hc | congruence].
    pose proof (hex_digit_value_range c v Ev) as Hr.
    pose proof (digits_value_ge hex_digit_value 16 ltac:(lia)
                  (fun c v H => proj1 (hex_digit_value_range c v H)) cs (num * 16 + v)
                  ltac:(lia)) as Hge.
    assert (Hlt : num < cutoffHexUint64)
      by (rewrite cutoffHexUint64_value; rewrite MaxUint64_value in *; lia).
    replace (num >=? cutoffHexUint64) with false by (zcompare; zfalse).
    rewrite hex_step_exact by lia.
    unfold set_pos. cbn [b pos].
    replace (pre ++ c :: cs ++ post) with ((pre ++ [c]) ++ cs ++ post)
      by (rewrite <- app_assoc; reflexivity).
    replace (len pre + 1) with (len (pre ++ [c])) by (len_simpl; lia).
    rewrite IH; try assumption; try lia; try (intros; reflexivity).
    + len_simpl. do 3 f_equal. lia.
    + cbn [length] in Hf. lia.
Qed.

(** On a run of hexadecimal digits whose value does not fit 64 bits the
    loop fails: the cutoff test stops it before a nibble is lost. *)
Lemma HexUint64_loop_overflow (cs : list byte) :
  forall (pre post : list byte) (num : Z) (ok : bool) (fuel : nat),
    Forall (is_digit hex_digit_value) cs ->
    0 <= num <= MaxUint64 ->
    MaxUint64 < digits_value hex_digit_value 16 num cs ->
    (length cs < fuel)%nat ->
    exists bs',
      HexUint64_loop fuel (mkBytestring (pre ++ cs ++ post) (len pre)) num ok
      = Ret (0, false, bs').
Proof.
  induction cs as [|c cs IH]; intros pre post num ok fuel Hd Hn Hv Hf.
  - unfold digits_value in Hv. cbn [fold_left] in Hv. lia.
  - destruct fuel as [|fuel]; [cbn [length] in Hf; lia|].
    cbn [HexUint64_loop b pos app]. rewrite at_end_iff, index_app. cbn [bind].
    apply Forall_cons_iff in Hd. destruct Hd as [Hc Hd]. unfold is_digit in Hc.
    rewrite digits_value_cons in Hv. rewrite hex_digit_correct.
    destruct (hex_digit_value c) as [v|] eqn:Ev; [clear Hc | congruence].
    pose proof (hex_digit_value_range c v Ev) as Hr.
    zcompare. destruct (Z.leb_spec cutoffHexUint64 num) as [Hge|Hlt].
    + eexists. reflexivity.
    + rewrite hex_step_exact by lia.
      unfold set_pos. cbn [b pos].
      replace (pre ++ c :: cs ++ post) with ((pre ++ [c]) ++ cs ++ post)
        by (rewrite <- app_assoc; reflexivity).
      replace (len pre + 1) with (len (pre ++ [c])) by (len_simpl; lia).
      apply IH; try assumption.
      * rewrite cutoffHexUint64_value in Hlt. rewrite MaxUint64_value. lia.
      * cbn [length] in Hf. lia.
Qed.

Lemma scan_fuel_whole (cs : list byte) : (length cs < scan_fuel cs 0)%nat.
Proof. unfold scan_fuel, len. lia. Qed.

Lemma whole_slice (cs : list byte) : cs = [] ++ cs ++ [].
Proof. cbn [app]. rewrite app_nil_r. reflexivity. Qed.

(** C5.  [HexUint64] with its cutoff of 2^60 is exact on hexadecimal digit
    strings: a string whose value is at most the largest 64-bit unsigned
    number (leading zeros included) is parsed to that value with success,
    and every string whose value is larger is rejected; no value is
    truncated. *)
Theorem HexUint64_cutoff_exact (cs : list byte) :
  cs <> [] ->
  Forall (is_digit hex_digit_value) cs ->
  (hex_value cs <= MaxUint64 ->
   HexUint64 (NewBytestring cs) = Ret (hex_value cs, true, mkBytestring cs (len cs)))
  /\ (MaxUint64 < hex_value cs ->
      exists bs', HexUint64 (NewBytestring cs) = Ret (0, false, bs')).
Proof.
  intros Hne Hd. unfold HexUint64, NewBytestring, hex_value. cbn [b pos].
  pose proof (scan_fuel_whole cs) as Hf. split; intros Hv.
  - pose proof (HexUint64_loop_digits cs [] [] 0 false (scan_fuel cs 0) Hd I
                  ltac:(lia) Hv ltac:(intros; contradiction) Hf) as H.
    rewrite <- whole_slice in H. exact H.
  - pose proof (HexUint64_loop_overflow cs [] [] 0 false (scan_fuel cs 0) Hd
                  ltac:(rewrite MaxUint64_value; lia) Hv Hf) as H.
    rewrite <- whole_slice in H. exact H.
Qed.

Lemma HexUint64_cutoff_exact_witness :
  HexUint64 (NewBytestring (str "00ffffffffffffffff"))
  = Ret (MaxUint64, true, mkBytestring (str "00ffffffffffffffff") 18)
  /\ exists bs', HexUint64 (NewBytestring (str "10000000000000000")) = Ret (0, false, bs').
Proof.
  split.
  - apply (HexUint64_cutoff_exact (str "00ffffffffffffffff")).
    + discriminate.
    + repeat constructor; discriminate.
    + vm_compute. discriminate.
  - apply (HexUint64_cutoff_exact (str "10000000000000000")).
    + discriminate.
    + repeat constructor; discriminate.
    + vm_compute. reflexivity.
Defined.

(** ** Formatting and parsing *)

Section FormatBits.

Variable value : byte -> option Z.
Variable base : Z.
Hypothesis base_ge_2 : 2 <= base.
Hypothesis digit_of_value :
  forall d, 0 <= d < base -> value (nth (Z.to_nat d) strconv_digits x00) = Some d.

Lemma single_digit (d : Z) :
  0 <= d < base ->
  is_digit value (nth (Z.to_nat d) strconv_digits x00)
  /\ forall acc, digits_value value base acc [nth (Z.to_nat d) strconv_digits x00]
                 = acc * base + d.
Proof.
  intros H. pose proof (digit_of_value d H) as Hv. split.
  - unfold is_digit. congruence.
  - intros acc. unfold digits_value. cbn [fold_left]. rewrite Hv. reflexivity.
Qed.

(** [formatBits] writes, in front of [a], a non-empty digit string whose
    value is [u]; [fuel] steps are enough for a number of [fuel] digits. *)
Lemma formatBits_last (fuel : nat) (u : Z) (a : list byte) :
  0 <= u < base ->
  exists ds,
    formatBits (S fuel) u base a = ds ++ a
    /\ ds <> []
    /\ Forall (is_digit value) ds
    /\ digits_value value base 0 ds = u.
Proof.
  intros Hu. exists [nth (Z.to_nat u) strconv_digits x00].
  destruct (single_digit u Hu) as [Hd Hv]. cbn [formatBits].
  replace (u >=? base) with false by (zcompare; zfalse).
  repeat split.
  - discriminate.
  - constructor; [exact Hd | constructor].
  - rewrite Hv. lia.
Qed.

Lemma formatBits_value (fuel : nat) :
  forall (u : Z) (a : list byte),
    0 <= u < base ^ Z.of_nat (S fuel) ->
    exists ds,
      formatBits (S fuel) u base a = ds ++ a
      /\ ds <> []
      /\ Forall (is_digit value) ds
      /\ digits_value value base 0 ds = u.
Proof.
  induction fuel as [|fuel IH]; intros u a Hu;
    rewrite Nat2Z.inj_succ, Z.pow_succ_r in Hu by lia.
  - change (base ^ Z.of_nat 0) with 1 in Hu. apply formatBits_last. lia.
  - destruct (Z.leb_spec base u) as [Hge|Hlt]; [|apply formatBits_last; lia].
    remember (S fuel) as fuel1 eqn:Efuel. cbn [formatBits].
    replace (u >=? base) with true by (zcompare; ztrue).
    pose proof (Z.div_mod u base ltac:(lia)) as Hdm.
    pose proof (Z.mod_pos_bound u base ltac:(lia)) as Hm.
    assert (Hq : 0 <= u / base < base ^ Z.of_nat fuel1).
    { split; [apply Z.div_pos; lia|].
      apply Z.div_lt_upper_bound; lia. }
    assert (Hr : u - u / base * base = u mod base) by lia.
    rewrite Hr. subst fuel1.
    destruct (IH (u / base) (nth (Z.to_nat (u mod base)) strconv_digits x00 :: a) Hq)
      as (ds & Hfmt & Hne & Hds & Hval).
    exists (ds ++ [nth (Z.to_nat (u mod base)) strconv_digits x00]).
    destruct (single_digit (u mod base) Hm) as [Hd Hv].
    repeat split.
    + rewrite Hfmt, <- app_assoc. reflexivity.
    + destruct ds; discriminate.
    + apply Forall_app. split; [exact Hds|]. constructor; [exact Hd | constructor].
    + rewrite digits_value_app, Hval, Hv. lia.
Qed.

End FormatBits.

Lemma strconv_digits_dec (d : Z) :
  0 <= d < 10 -> dec_digit_value (nth (Z.to_nat d) strconv_digits x00) = Some d.
Proof.
  intros H.
  assert (E : d = 0 \/ d = 1 \/ d = 2 \/ d = 3 \/ d = 4 \/ d = 5 \/ d = 6 \/ d = 7
              \/ d = 8 \/ d = 9) by lia.
  repeat (destruct E as [E|E]; [subst d; reflexivity|]). subst d. reflexivity.
Qed.

Lemma strconv_digits_hex (d : Z) :
  0 <= d < 16 -> hex_digit_value (nth (Z.to_nat d) strconv_digits x00) = Some d.
Proof.
  intros H.
  assert (E : d = 0 \/ d = 1 \/ d = 2 \/ d = 3 \/ d = 4 \/ d = 5 \/ d = 6 \/ d = 7
              \/ d = 8 \/ d = 9 \/ d = 10 \/ d = 11 \/ d = 12 \/ d = 13 \/ d = 14
              \/ d = 15) by lia.
  repeat (destruct E as [E|E]; [subst d; reflexivity|]). subst d. reflexivity.
Qed.

(** The decimal text of a 64-bit number is a digit string with its value. *)
Lemma FormatUint_dec (n : Z) :
  0 <= n <= MaxUint64 ->
  FormatUint n 10 <> []
  /\ Forall (is_digit dec_digit_value) (FormatUint n 10) /\ dec_value (FormatUint n 10) = n.
Proof.
  rewrite MaxUint64_value. intros H. unfold FormatUint, dec_value.
  destruct (formatBits_value dec_digit_value 10 ltac:(lia) strconv_digits_dec 63 n [])
    as (ds & Hfmt & Hne & Hds & Hval).
  { assert (2 ^ 64 <= 10 ^ Z.of_nat 64)  by (vm_compute; discriminate). lia. }
  rewrite Hfmt, app_nil_r. repeat split; assumption.
Qed.

(** The hexadecimal text of a 64-bit number is a digit string with its value. *)
Lemma FormatUint_hex (n : Z) :
  0 <= n <= MaxUint64 ->
  FormatUint n 16 <> []
  /\ Forall (is_digit hex_digit_value) (FormatUint n 16) /\ hex_value (FormatUint n 16) = n.
Proof.
  rewrite MaxUint64_value. intros H. unfold FormatUint, hex_value.
  destruct (formatBits_value hex_digit_value 16 ltac:(lia) strconv_digits_hex 63 n [])
    as (ds & Hfmt & Hne & Hds & Hval).
  { assert (2 ^ 64 <= 16 ^ Z.of_nat 64) by (vm_compute; discriminate). lia. }
  rewrite Hfmt, app_nil_r. repeat split; assumption.
Qed.

(** C6.  Parsing is a left inverse of formatting: for every 64-bit
    unsigned [n], [Uint64] on the decimal text of [n] and [HexUint64] on
    the hexadecimal text of [n] both consume the whole text and return
    [n] with success. *)
Theorem parse_FormatUint (n : Z) :
  0 <= n <= MaxUint64 ->
  Uint64 (NewBytestring (FormatUint n 10))
  = Ret (n, true, mkBytestring (FormatUint n 10) (len (FormatUint n 10)))
  /\ HexUint64 (NewBytestring (FormatUint n 16))
     = Ret (n, true, mkBytestring (FormatUint n 16) (len (FormatUint n 16))).
Proof.
  intros Hn.
  destruct (FormatUint_dec n Hn) as (Hdne & Hd & Hdv).
  destruct (FormatUint_hex n Hn) as (Hhne & Hh & Hhv).
  unfold dec_value in Hdv. unfold hex_value in Hhv. split.
  - pose proof (Uint64_loop_digits (FormatUint n 10) [] [] 0 false
                  (scan_fuel (FormatUint n 10) 0) Hd I ltac:(lia)) as H.
    rewrite Hdv in H. rewrite <- whole_slice in H.
    apply H; [lia | intros E; contradiction | apply scan_fuel_whole].
  - pose proof (HexUint64_loop_digits (FormatUint n 16) [] [] 0 false
                  (scan_fuel (FormatUint n 16) 0) Hh I ltac:(lia)) as H.
    rewrite Hhv in H. rewrite <- whole_slice in H.
    apply H; [lia | intros E; contradiction | apply scan_fuel_whole].
Qed.

Lemma parse_FormatUint_witness :
  Uint64 (NewBytestring (FormatUint MaxUint64 10))
  = Ret (MaxUint64, true, mkBytestring (FormatUint MaxUint64 10) (len (FormatUint MaxUint64 10)))
  /\ HexUint64 (NewBytestring (FormatUint MaxUint64 16))
     = Ret (MaxUint64, true, mkBytestring (FormatUint MaxUint64 16) (len (FormatUint MaxUint64 16))).
Proof. apply (parse_FormatUint MaxUint64). vm_compute. split; discriminate. Defined.

(** ** Overflow in the decimal scanner *)

(** C1.  The cutoff test of [Uint64] lets the accumulator reach
    (2^64-1)/10, and the next digit can then carry the accumulation past
    2^64-1: on the text of 2^64 the multiplication and addition wrap
    around and [Uint64] returns 0 with success instead of failing. *)
Theorem Uint64_wraps_at_cutoff :
  dec_value (str "18446744073709551616") = MaxUint64 + 1
  /\ Uint64 (NewBytestring (str "18446744073709551616"))
     = Ret (0, true, mkBytestring (str "18446744073709551616") 20)
  /\ Uint64 (NewBytestring (str "18446744073709551619 "))
     = Ret (3, true, mkBytestring (str "18446744073709551619 ") 20).
Proof. repeat split; vm_compute; reflexivity. Qed.

(** C7.  [ParseUint] inherits the wrap-around of [Uint64]: the text of
    2^64, and a literal one digit longer than the largest 64-bit unsigned
    number, are accepted with the value 0.  The literals of the package's
    tests behave as documented. *)
Theorem ParseUint_accepts_overflow :
  ParseUint (str "18446744073709551616") = Ret (0, true)
  /\ ParseUint (str "184467440737095516160") = Ret (0, true)
  /\ ParseUint (str "184467440737095516150") = Ret (0, false)
  /\ ParseUint (str "42DO'H!") = Ret (0, false)
  /\ ParseUint (str "DO'H!") = Ret (0, false)
  /\ ParseUint (str "42") = Ret (42, true).
Proof. repeat split; vm_compute; reflexivity. Qed.

(** What does hold for [ParseUint]: a digit string whose value fits 64
    bits is parsed to its value, and a slice with a byte that is not a
    digit is rejected. *)
Lemma ParseUint_in_range (l : list byte) :
  l <> [] ->
  Forall (is_digit dec_digit_value) l ->
  dec_value l <= MaxUint64 ->
  ParseUint l = Ret (dec_value l, true).
Proof.
  intros Hne Hd Hv. unfold ParseUint, Uint64, NewBytestring, dec_value in *. cbn [b pos].
  pose proof (Uint64_loop_digits l [] [] 0 false (scan_fuel l 0) Hd I ltac:(lia) Hv
                ltac:(intros; contradiction) (scan_fuel_whole l)) as H.
  rewrite <- whole_slice in H. change (len (@nil byte)) with 0 in H.
  rewrite H. cbn [bind negb]. unfold EOL. cbn [b pos].
  replace (0 + len l >=? len l) with true by (zcompare; ztrue). reflexivity.
Qed.

Lemma Uint64_loop_junk (cs : list byte) :
  forall (pre post : list byte) (c : byte) (num : Z) (ok : bool) (fuel : nat),
    Forall (is_digit dec_digit_value) cs ->
    dec_digit_value c = None ->
    (length cs < fuel)%nat ->
    (exists bs', Uint64_loop fuel (mkBytestring (pre ++ cs ++ c :: post) (len pre)) num ok
                 = Ret (0, false, bs'))
    \/ (exists v, Uint64_loop fuel (mkBytestring (pre ++ cs ++ c :: post) (len pre)) num ok
                  = Ret (v, true, mkBytestring (pre ++ cs ++ c :: post) (len pre + len cs))).
Proof.
  induction cs as [|d cs IH]; intros pre post c num ok fuel Hd Hc Hf;
    (destruct fuel as [|fuel]; [cbn [length] in Hf; lia|]);
    cbn [Uint64_loop b pos app]; rewrite at_end_iff, index_app; cbn [bind].
  - rewrite Uint64_digit_test in Hc.
    destruct ((u8 c <? u8 "0") || (u8 c >? u8 "9")); [|discriminate].
    destruct ok; cbn [negb]; [right | left; eauto].
    exists num. len_simpl. rewrite Z.add_0_r. reflexivity.
  - apply Forall_cons_iff in Hd. destruct Hd as [Hd0 Hd]. unfold is_digit in Hd0.
    rewrite Uint64_digit_test in Hd0.
    destruct ((u8 d <? u8 "0") || (u8 d >? u8 "9")); [congruence|].
    destruct (num >=? cutoffDecimalUint64); [left; eauto|].
    unfold set_pos. cbn [b pos].
    replace (pre ++ d :: cs ++ c :: post) with ((pre ++ [d]) ++ cs ++ c :: post)
      by (rewrite <- app_assoc; reflexivity).
    replace (len pre + 1) with (len (pre ++ [d])) by (len_simpl; lia).
    replace (len pre + len (d :: cs)) with (len (pre ++ [d]) + len cs) by (len_simpl; lia).
    apply IH; try assumption. cbn [length] in Hf. lia.
Qed.

Lemma ParseUint_rejects_junk (cs post : list byte) (c : byte) :
  Forall (is_digit dec_digit_value) cs ->
  dec_digit_value c = None ->
  ParseUint (cs ++ c :: post) = Ret (0, false).
Proof.
  intros Hd Hc. unfold ParseUint, Uint64, NewBytestring. cbn [b pos].
  assert (Hf : (length cs < scan_fuel (cs ++ c :: post) 0)%nat).
  { unfold scan_fuel, len. rewrite length_app. lia. }
  destruct (Uint64_loop_junk cs [] post c 0 false _ Hd Hc Hf) as [[bs' H] | [v H]];
    cbn [app] in H; change (len (@nil byte)) with 0 in H; rewrite H; cbn [bind negb].
  - reflexivity.
  - unfold EOL. cbn [b pos]. len_simpl.
    pose proof (len_nonneg post).
    replace (0 + len cs >=? len cs + (len post + 1)) with false by (zcompare; zfalse).
    reflexivity.
Qed.

(** ** The cursor invariant *)

Lemma advanced_refl (bs : Bytestring) : cursor_ok bs -> advanced bs bs.
Proof. intros H. unfold advanced. repeat split; try apply H. lia. Qed.

Lemma advanced_step (bs bs' : Bytestring) :
  pos bs < len (b bs) -> advanced (set_pos bs (pos bs + 1)) bs' -> advanced bs bs'.
Proof.
  unfold advanced, set_pos. cbn [b pos]. intros Hlt (Hb & Hp & Hok).
  repeat split; try apply Hok; [exact Hb | lia].
Qed.

Lemma cursor_ok_step (bs : Bytestring) :
  cursor_ok bs -> pos bs < len (b bs) -> cursor_ok (set_pos bs (pos bs + 1)).
Proof. unfold cursor_ok, set_pos. cbn [b pos]. lia. Qed.

Lemma NewBytestring_cursor_ok (l : list byte) : cursor_ok (NewBytestring l).
Proof. unfold cursor_ok, NewBytestring. cbn [b pos]. pose proof (len_nonneg l). lia. Qed.

(** One pass of a scanning loop: either the cursor is at the end, or the
    byte under it can be read and one unit of fuel pays for the move. *)
Ltac scan_step bs fuel Hok Hf :=
  zcompare;
  destruct (Z.leb_spec (len (b bs)) (pos bs)) as [Hend|Hin];
  [| let c := fresh "c" in
     let Ec := fresh "Ec" in
     destruct (index_inside (b bs) (pos bs) ltac:(unfold cursor_ok in Hok; lia)) as [c Ec];
     rewrite Ec; cbn [bind];
     assert (Hok' : cursor_ok (set_pos bs (pos bs + 1))) by (apply cursor_ok_step; assumption);
     assert (Hf' : (Z.to_nat (len (b (set_pos bs (pos bs + 1))) - pos (set_pos bs (pos bs + 1)))
                    < fuel)%nat) by (unfold set_pos; cbn [b pos]; lia)].

Lemma SkipSpace_loop_advances (fuel : nat) :
  forall bs, cursor_ok bs -> (Z.to_nat (len (b bs) - pos bs) < fuel)%nat ->
    exists eol bs', SkipSpace_loop fuel bs = Ret (eol, bs') /\ advanced bs bs'.
Proof.
  induction fuel as [|fuel IH]; intros bs Hok Hf; [lia|].
  cbn [SkipSpace_loop]. scan_step bs fuel Hok Hf.
  - eauto 10 using advanced_refl.
  - destruct (negb (u8 c =? u8 " ")); [eauto 10 using advanced_refl|].
    destruct (IH _ Hok' Hf') as (eol & bs' & E & Ha).
    eauto 10 using advanced_step.
Qed.

Lemma Uint64_loop_advances (fuel : nat) :
  forall bs num ok, cursor_ok bs -> (Z.to_nat (len (b bs) - pos bs) < fuel)%nat ->
    exists v r bs', Uint64_loop fuel bs num ok = Ret (v, r, bs') /\ advanced bs bs'.
Proof.
  induction fuel as [|fuel IH]; intros bs num ok Hok Hf; [lia|].
  cbn [Uint64_loop]. scan_step bs fuel Hok Hf.
  - destruct (negb ok); eauto 10 using advanced_refl.
  - destruct ((u8 c <? u8 "0") || (u8 c >? u8 "9")).
    + destruct (negb ok); eauto 10 using advanced_refl.
    + destruct (cutoffDecimalUint64 <=? num); [eauto 10 using advanced_refl|].
      destruct (IH _ (wrap64 (num * 10 + wrap8 (u8 c - u8 "0"))) true Hok' Hf')
        as (v & r & bs' & E & Ha).
      exists v, r, bs'. split; [exact E | eapply advanced_step; eassumption].
Qed.

Lemma HexUint64_loop_advances (fuel : nat) :
  forall bs num ok, cursor_ok bs -> (Z.to_nat (len (b bs) - pos bs) < fuel)%nat ->
    exists v r bs', HexUint64_loop fuel bs num ok = Ret (v, r, bs') /\ advanced bs bs'.
Proof.
  induction fuel as [|fuel IH]; intros bs num ok Hok Hf; [lia|].
  cbn [HexUint64_loop]. scan_step bs fuel Hok Hf.
  - destruct (negb ok); eauto 10 using advanced_refl.
  - destruct (hex_digit c) as [digit|].
    + destruct (cutoffHexUint64 <=? num); [eauto 10 using advanced_refl|].
      destruct (IH _ (wrap64 (wrap64 (Z.shiftl num 4) + digit)) true Hok' Hf')
        as (v & r & bs' & E & Ha).
      exists v, r, bs'. split; [exact E | eapply advanced_step; eassumption].
    + destruct (negb ok); eauto 10 using advanced_refl.
Qed.

Lemma NumFields_spaces_total (l : list byte) (fuel : nat) :
  forall p, 0 <= p -> (Z.to_nat (len l - p) < fuel)%nat ->
    exists r, NumFields_spaces fuel l p = Ret r
              /\ forall p', r = Some p' ->
                   p <= p' < len l /\ exists c, index l p' = Ret c /\ (u8 c =? u8 " ") = false.
Proof.
  induction fuel as [|fuel IH]; intros p Hp Hf; [lia|].
  cbn [NumFields_spaces]. zcompare.
  destruct (Z.leb_spec (len l) p) as [Hend|Hin].
  - eexists. split; [reflexivity | discriminate].
  - destruct (index_inside l p ltac:(lia)) as [c Ec]. rewrite Ec. cbn [bind].
    destruct (u8 c =? u8 " ") eqn:Esp; cbn [negb].
    + destruct (IH (p + 1) ltac:(lia) ltac:(lia)) as (r & E & Hr).
      exists r. split; [exact E|]. intros p' Ep'. destruct (Hr p' Ep') as [Hb Hc].
      split; [lia | exact Hc].
    + eexists. split; [reflexivity|]. intros p' [= <-]. split; [lia | eauto].
Qed.

Lemma NumFields_field_total (l : list byte) (fuel : nat) :
  forall p, 0 <= p -> (Z.to_nat (len l - p) < fuel)%nat ->
    exists r, NumFields_field fuel l p = Ret r
              /\ forall p', r = Some p' ->
                   p <= p' < len l /\ exists c, index l p' = Ret c /\ (u8 c =? u8 " ") = true.
Proof.
  induction fuel as [|fuel IH]; intros p Hp Hf; [lia|].
  cbn [NumFields_field]. zcompare.
  destruct (Z.leb_spec (len l) p) as [Hend|Hin].
  - eexists. split; [reflexivity | discriminate].
  - destruct (index_inside l p ltac:(lia)) as [c Ec]. rewrite Ec. cbn [bind].
    destruct (u8 c =? u8 " ") eqn:Esp.
    + eexists. split; [reflexivity|]. intros p' [= <-]. split; [lia | eauto].
    + destruct (IH (p + 1) ltac:(lia) ltac:(lia)) as (r & E & Hr).
      exists r. split; [exact E|]. intros p' Ep'. destruct (Hr p' Ep') as [Hb Hc].
      split; [lia | exact Hc].
Qed.

Lemma scan_fuel_enough (l : list byte) (p : Z) : (Z.to_nat (len l - p) < scan_fuel l p)%nat.
Proof. unfold scan_fuel. lia. Qed.

(** Every pass of the outer loop of [NumFields] that does not return
    moves the local position forward, so the loop returns. *)
Lemma NumFields_loop_total (l : list byte) (fuel : nat) :
  forall p num, 0 <= p -> (Z.to_nat (len l - p) < fuel)%nat ->
    exists n, NumFields_loop fuel l p num = Ret n.
Proof.
  induction fuel as [|fuel IH]; intros p num Hp Hf; [lia|].
  cbn [NumFields_loop].
  destruct (NumFields_spaces_total l (scan_fuel l p) p Hp (scan_fuel_enough l p))
    as (r1 & E1 & H1).
  rewrite E1. cbn [bind]. destruct r1 as [p1|]; [|eauto].
  destruct (H1 p1 eq_refl) as (Hb1 & c1 & Ec1 & Hns).
  destruct (NumFields_field_total l (scan_fuel l p1) p1 ltac:(lia) (scan_fuel_enough l p1))
    as (r2 & E2 & H2).
  rewrite E2. cbn [bind]. destruct r2 as [p2|]; [|eauto].
  destruct (H2 p2 eq_refl) as (Hb2 & c2 & Ec2 & Hsp).
  assert (p1 <> p2) by (intros ->; congruence).
  apply IH; lia.
Qed.

Lemma SkipText_cases (bs : Bytestring) (s : list byte) :
  cursor_ok bs ->
  SkipText bs s
  = if (pos bs <? len (b bs)) && (pos bs + len s <=? len (b bs))
       && bytes_Equal s (sublist (pos bs) (pos bs + len s) (b bs))
    then Ret (true, set_pos bs (pos bs + len s))
    else Ret (false, bs).
Proof.
  intros Hok. unfold SkipText, cursor_ok in *. zcompare.
  pose proof (len_nonneg s).
  destruct (Z.leb_spec (len (b bs)) (pos bs)), (Z.ltb_spec (pos bs) (len (b bs)));
    try lia; cbn [orb andb]; [reflexivity|].
  destruct (Z.ltb_spec (len (b bs)) (pos bs + len s)), (Z.leb_spec (pos bs + len s) (len (b bs)));
    try lia; cbn [orb andb]; [reflexivity|].
  unfold slice.
  replace ((0 <=? pos bs) && (pos bs <=? pos bs + len s) && (pos bs + len s <=? len (b bs)))
    with true by ztrue.
  cbn [bind]. destruct (bytes_Equal s _); reflexivity.
Qed.

(** C8.  A new scanner has its cursor inside the slice, and from every
    state with 0 <= cursor <= length each of [SkipSpace], [SkipText],
    [Next], [Uint64], [HexUint64] and [NumFields] returns with the same
    slice, a cursor that is not smaller than before, and 0 <= cursor <=
    length again; [EOL] and [NumFields] leave the scanner as it is. *)
Theorem cursor_invariant (bs : Bytestring) :
  cursor_ok bs -> operations_advance bs.
Proof.
  intros Hok. unfold operations_advance.
  pose proof (scan_fuel_enough (b bs) (pos bs)) as Hf.
  split; [apply SkipSpace_loop_advances; assumption|].
  split.
  { intros s. rewrite SkipText_cases by assumption.
    destruct ((pos bs <? len (b bs)) && (pos bs + len s <=? len (b bs))) eqn:E;
      cbn [andb]; [|eauto 10 using advanced_refl].
    destruct (bytes_Equal s _); [|eauto 10 using advanced_refl].
    apply andb_true_iff in E. destruct E as [E1 E2].
    apply Z.ltb_lt in E1. apply Z.leb_le in E2. pose proof (len_nonneg s).
    do 2 eexists. split; [reflexivity|].
    unfold advanced, cursor_ok, set_pos in *. cbn [b pos]. repeat split; lia. }
  split.
  { unfold Next. zcompare. destruct (Z.leb_spec (len (b bs)) (pos bs)) as [Hend|Hin].
    - eauto 10 using advanced_refl.
    - destruct (index_inside (b bs) (pos bs) ltac:(unfold cursor_ok in Hok; lia)) as [c Ec].
      rewrite Ec. cbn [bind]. do 3 eexists. split; [reflexivity|].
      apply advanced_step; [assumption|]. apply advanced_refl, cursor_ok_step; assumption. }
  split; [apply Uint64_loop_advances; assumption|].
  split; [apply HexUint64_loop_advances; assumption|].
  unfold NumFields.
  destruct (NumFields_loop_total (b bs) (scan_fuel (b bs) (pos bs)) (pos bs) 0
              ltac:(unfold cursor_ok in Hok; lia) Hf) as [n En].
  rewrite En. cbn [bind]. eauto.
Qed.

Lemma cursor_invariant_witness :
  cursor_ok (mkBytestring (str "  42 beef") 2)
  /\ operations_advance (mkBytestring (str "  42 beef") 2).
Proof.
  assert (H : cursor_ok (mkBytestring (str "  42 beef") 2))
    by (unfold cursor_ok; vm_compute; split; discriminate).
  split; [exact H | apply (cursor_invariant _ H)].
Defined.

(** C9.  [SkipText] succeeds only if the bytes at the cursor are the text
    in full, and then moves the cursor past them; when the text does not
    fit into the remaining bytes or differs from them it fails; whenever
    it fails the cursor is where it was. *)
Theorem SkipText_exact (bs : Bytestring) (s : list byte) :
  cursor_ok bs ->
  exists ok bs',
    SkipText bs s = Ret (ok, bs')
    /\ b bs' = b bs
    /\ (ok = true ->
        pos bs + len s <= len (b bs)
        /\ sublist (pos bs) (pos bs + len s) (b bs) = s
        /\ pos bs' = pos bs + len s)
    /\ (ok = false -> pos bs' = pos bs)
    /\ (len (b bs) < pos bs + len s \/ sublist (pos bs) (pos bs + len s) (b bs) <> s ->
        ok = false).
Proof.
  intros Hok. rewrite SkipText_cases by assumption.
  destruct (Z.ltb_spec (pos bs) (len (b bs))) as [H1|H1];
    destruct (Z.leb_spec (pos bs + len s) (len (b bs))) as [H2|H2]; cbn [andb];
    try destruct (bytes_Equal s _) eqn:E.
  1: apply bytes_Equal_eq in E.
  1: { exists true, (set_pos bs (pos bs + len s)). unfold set_pos. cbn [b pos].
       repeat split; try congruence. intros [H|H]; [lia | congruence]. }
  all: exists false, bs; repeat split; try discriminate; try reflexivity.
Qed.

Lemma SkipText_exact_witness :
  exists ok bs',
    SkipText (NewBytestring (str "foobar")) (str "foo") = Ret (ok, bs')
    /\ b bs' = str "foobar"
    /\ (ok = true ->
        0 + len (str "foo") <= len (str "foobar")
        /\ sublist 0 (0 + len (str "foo")) (str "foobar") = str "foo"
        /\ pos bs' = 0 + len (str "foo"))
    /\ (ok = false -> pos bs' = 0)
    /\ (len (str "foobar") < 0 + len (str "foo")
        \/ sublist 0 (0 + len (str "foo")) (str "foobar") <> str "foo" ->
        ok = false).
Proof.
  apply (SkipText_exact (NewBytestring (str "foobar")) (str "foo")).
  unfold cursor_ok. vm_compute. split; discriminate.
Defined.

(** ** The raw record view *)

Lemma split3 {A : Type} (lo hi : Z) (l : list A) :
  0 <= lo <= hi -> hi <= len l ->
  l = firstn (Z.to_nat lo) l ++ sublist lo hi l ++ skipn (Z.to_nat hi) l.
Proof.
  intros H1 H2. unfold sublist.
  replace (skipn (Z.to_nat hi) l) with (skipn (Z.to_nat (hi - lo)) (skipn (Z.to_nat lo) l)).
  - rewrite (firstn_skipn (Z.to_nat (hi - lo))), firstn_skipn. reflexivity.
  - rewrite skipn_skipn. f_equal. lia.
Qed.

Lemma len_sublist {A : Type} (lo hi : Z) (l : list A) :
  0 <= lo <= hi -> hi <= len l -> len (sublist lo hi l) = hi - lo.
Proof.
  intros H1 H2. unfold sublist, len in *. rewrite length_firstn, length_skipn. lia.
Qed.

Lemma decode_be_app (w : list byte) (c : byte) :
  decode_be (w ++ [c]) = decode_be w * 256 + u8 c.
Proof. unfold decode_be. rewrite fold_left_app. reflexivity. Qed.

Lemma decode_be_rev (w : list byte) : decode_be (rev w) = decode_le w.
Proof.
  induction w as [|c w IH]; [reflexivity|].
  cbn [rev decode_le]. rewrite decode_be_app, IH. lia.
Qed.

Lemma decode_le_range (w : list byte) : 0 <= decode_le w < 256 ^ len w.
Proof.
  induction w as [|c w IH]; len_simpl.
  - cbn. lia.
  - cbn [decode_le]. pose proof (u8_range c). pose proof (len_nonneg w).
    rewrite Z.pow_add_r, Z.pow_1_r by lia. lia.
Qed.

Lemma decode_be_range (w : list byte) : 0 <= decode_be w < 256 ^ len w.
Proof.
  rewrite <- (rev_involutive w), decode_be_rev.
  replace (len (rev (rev w))) with (len (rev w)) by (unfold len; rewrite !length_rev; reflexivity).
  apply decode_le_range.
Qed.

Section RawView.

Variable order : ByteOrder.

Local Abbreviation Len := (RawDirEntry64.Len order).
Local Abbreviation Ino := (RawDirEntry64.Ino order).
Local Abbreviation Name := (RawDirEntry64.Name order).
Local Abbreviation readUint := (RawDirEntry64.readUint order).
Local Abbreviation NativeEndian_Uint := (RawDirEntry64.NativeEndian_Uint order).

Lemma NativeEndian_Uint_exact (size : Z) (w : list byte) :
  len w = size ->
  exists v, NativeEndian_Uint size w = Ret v
            /\ 0 <= v < 256 ^ size
            /\ v = match order with LittleEndian => decode_le w | BigEndian => decode_be w end.
Proof.
  intros Hw. unfold RawDirEntry64.NativeEndian_Uint.
  replace (len w <? size) with false by (zfalse).
  replace (firstn (Z.to_nat size) w) with w
    by (symmetry; apply firstn_all2; unfold len in Hw; lia).
  eexists. split; [reflexivity|]. split; [|reflexivity].
  rewrite <- Hw. destruct order; [apply decode_le_range | apply decode_be_range].
Qed.

(** [readUint] for a field of 2 or 8 bytes that lies inside the slice. *)
Lemma readUint_inside (d : list byte) (offset size : Z) :
  size = 2 \/ size = 8 -> 0 <= offset -> offset + size <= len d ->
  exists v, readUint d offset size = Ret (v, true)
            /\ 0 <= v < 256 ^ size
            /\ v = match order with
                   | LittleEndian => decode_le (sublist offset (offset + size) d)
                   | BigEndian => decode_be (sublist offset (offset + size) d)
                   end.
Proof.
  intros Hs Ho Hl. unfold RawDirEntry64.readUint.
  replace (offset + size >? len d) with false by (zcompare; zfalse).
  assert (Hsl : slice d offset (offset + size) = Ret (sublist offset (offset + size) d)).
  { unfold slice.
    replace ((0 <=? offset) && (offset <=? offset + size) && (offset + size <=? len d))
      with true by (ztrue). reflexivity. }
  destruct (NativeEndian_Uint_exact size (sublist offset (offset + size) d))
    as (v & Ev & Hv & Hdef).
  { rewrite len_sublist; lia. }
  exists v. destruct Hs as [-> | ->]; rewrite Hsl; cbn [bind]; rewrite Ev; cbn [bind]; auto.
Qed.

Lemma readUint_outside (d : list byte) (offset size : Z) :
  len d < offset + size -> readUint d offset size = Ret (0, false).
Proof.
  intros H. unfold RawDirEntry64.readUint.
  replace (offset + size >? len d) with true by (zcompare; ztrue). reflexivity.
Qed.

(** [Len] succeeds exactly on slices of at least 18 bytes, and the length
    it decodes is a 16-bit number that depends on bytes 16 and 17 only. *)
Lemma Len_ok (d : list byte) (reclen : Z) :
  Len d = Ret (reclen, true) ->
  18 <= len d /\ 0 <= reclen < 2 ^ 16
  /\ reclen = match order with
              | LittleEndian => decode_le (sublist 16 18 d)
              | BigEndian => decode_be (sublist 16 18 d)
              end.
Proof.
  unfold RawDirEntry64.Len, Offsetof_Reclen, Sizeof_Reclen. intros H.
  destruct (Z.le_gt_cases 18 (len d)) as [Hl|Hl].
  - destruct (readUint_inside d 16 2 ltac:(lia) ltac:(lia) ltac:(lia)) as (v & Ev & Hv & Hdef).
    rewrite Ev in H. injection H as <-. change (16 + 2) with 18 in Hdef.
    change (256 ^ 2) with (2 ^ 16) in Hv. auto.
  - rewrite readUint_outside in H by lia. discriminate.
Qed.

Lemma is_NUL_test (c : byte) : (u8 c =? 0) = Byte.eqb c x00.
Proof. destruct c; reflexivity. Qed.

Lemma sublist_firstn_app {A : Type} (lo hi n : Z) (l tail : list A) :
  0 <= lo <= hi -> hi <= n -> n <= len l ->
  sublist lo hi (firstn (Z.to_nat n) l ++ tail) = sublist lo hi l.
Proof.
  intros H1 H2 H3. unfold sublist, len in *.
  rewrite skipn_app, firstn_app, length_skipn, length_firstn.
  replace (Z.to_nat (hi - lo) - (Init.Nat.min (Z.to_nat n) (length l) - Z.to_nat lo))%nat
    with 0%nat by lia.
  cbn [firstn]. rewrite app_nil_r.
  rewrite !firstn_skipn_comm, firstn_firstn. do 2 f_equal. lia.
Qed.

Lemma until_NUL_all (region : list byte) :
  has_NUL region = false -> until_NUL region = region.
Proof.
  induction region as [|c region IH]; [reflexivity|].
  cbn [has_NUL existsb until_NUL]. destruct (Byte.eqb c x00); [discriminate|].
  cbn [orb]. intros H. f_equal. apply IH. exact H.
Qed.

(** The scan of [Name] over the name region [done ++ rest] of a record
    [hdr ++ region ++ tail], standing behind [done]: it returns the bytes
    in front of the first NUL of [rest], or ends at the end of the region;
    no byte of [tail] is looked at. *)
Lemma Name_loop_region (rest : list byte) :
  forall (hdr done tail : list byte) (namelen : Z) (fuel : nat),
    len hdr = Offsetof_Name ->
    wrap64 (Offsetof_Name + namelen) = Offsetof_Name + len done + len rest ->
    Offsetof_Name + len done + len rest <= MaxUint64 ->
    (length rest < fuel)%nat ->
    RawDirEntry64.Name_loop fuel (hdr ++ (done ++ rest) ++ tail) Offsetof_Name namelen
      (Offsetof_Name + len done)
    = Ret (if has_NUL rest then Some (done ++ until_NUL rest) else None).
Proof.
  induction rest as [|c rest IH]; intros hdr done tail namelen fuel Hh He Hmax Hf;
    (destruct fuel as [|fuel]; [cbn [length] in Hf; lia|]);
    cbn [RawDirEntry64.Name_loop]; rewrite He; len_simpl.
  - replace (Offsetof_Name + len done <? Offsetof_Name + len done + 0) with false by zfalse.
    reflexivity.
  - pose proof (len_nonneg rest). pose proof (len_nonneg done).
    replace (Offsetof_Name + len done <? Offsetof_Name + len done + (len rest + 1))
      with true by ztrue.
    replace (hdr ++ (done ++ c :: rest) ++ tail) with ((hdr ++ done) ++ c :: (rest ++ tail))
      by (rewrite <- !app_assoc; reflexivity).
    replace (Offsetof_Name + len done) with (len (hdr ++ done)) by (len_simpl; lia).
    rewrite index_app. cbn [bind]. rewrite is_NUL_test.
    cbn [has_NUL existsb until_NUL]. destruct (Byte.eqb c x00); cbn [orb].
    + rewrite <- app_assoc. rewrite <- Hh. rewrite (len_app hdr done).
      rewrite (slice_app hdr done (c :: rest ++ tail)). cbn [bind].
      rewrite app_nil_r. reflexivity.
    + rewrite wrap64_small by (len_simpl; unfold Offsetof_Name in *; lia).
      replace ((hdr ++ done) ++ c :: rest ++ tail) with (hdr ++ ((done ++ [c]) ++ rest) ++ tail)
        by (rewrite <- !app_assoc; reflexivity).
      replace (len (hdr ++ done) + 1) with (Offsetof_Name + len (done ++ [c]))
        by (len_simpl; lia).
      rewrite IH; try assumption.
      * fold (has_NUL rest). rewrite <- app_assoc. reflexivity.
      * rewrite He. len_simpl. lia.
      * len_simpl. lia.
      * cbn [length] in Hf. lia.
Qed.

(** With a record length that decodes and a name region that fits,
    [Name] returns the region cut in front of its first NUL. *)
Lemma Name_until_NUL (d : list byte) (reclen : Z) :
  Len d = Ret (reclen, true) ->
  Offsetof_Name <= reclen <= len d ->
  Name d = Ret (until_NUL (sublist Offsetof_Name reclen d), true).
Proof.
  intros HLen Hfit.
  destruct (Len_ok d reclen HLen) as (Hl & Hr & _).
  unfold RawDirEntry64.Name. rewrite HLen. cbn [bind negb].
  assert (Hmax : reclen <= MaxUint64) by (rewrite MaxUint64_value; lia).
  assert (Hnl : wrap64 (reclen - Offsetof_Name) = reclen - Offsetof_Name)
    by (apply wrap64_small; unfold Offsetof_Name in *; lia).
  rewrite Hnl.
  replace (Offsetof_Name + (reclen - Offsetof_Name)) with reclen by lia.
  rewrite (wrap64_small reclen) by lia.
  replace (reclen >? len d) with false by (zcompare; zfalse).
  pose proof (split3 Offsetof_Name reclen d ltac:(unfold Offsetof_Name in *; lia)
                ltac:(lia)) as Hd.
  set (hdr := firstn (Z.to_nat Offsetof_Name) d) in *.
  set (region := sublist Offsetof_Name reclen d) in *.
  set (tail := skipn (Z.to_nat reclen) d) in *.
  assert (Hh : len hdr = Offsetof_Name)
    by (apply len_firstn; unfold Offsetof_Name in *; lia).
  assert (Hreg : len region = reclen - Offsetof_Name)
    by (apply len_sublist; unfold Offsetof_Name in *; lia).
  pose proof (Name_loop_region region hdr [] tail (reclen - Offsetof_Name)
                (scan_fuel d Offsetof_Name) Hh) as Hloop.
  cbn [app] in Hloop. rewrite len_nil, Z.add_0_r in Hloop.
  replace (Offsetof_Name + (reclen - Offsetof_Name)) with reclen in Hloop by lia.
  rewrite (wrap64_small reclen) in Hloop by lia.
  rewrite <- Hd in Hloop. rewrite Hloop.
  - cbn [bind]. destruct (has_NUL region) eqn:En; [reflexivity|].
    rewrite until_NUL_all by exact En.
    replace (slice d Offsetof_Name reclen) with (Ret region); [reflexivity|].
    unfold slice.
    replace ((0 <=? Offsetof_Name) && (Offsetof_Name <=? reclen) && (reclen <=? len d))
      with true by (unfold Offsetof_Name in *; ztrue).
    reflexivity.
  - lia.
  - lia.
  - unfold scan_fuel. unfold len in *. lia.
Qed.

(** C10.  When the record length decodes and the name region fits (name
    offset <= record length <= slice length), [Name] returns the name
    region cut in front of its first NUL, or the whole region when it has
    no NUL; the bytes behind the declared region do not matter. *)
Theorem Name_declared_region (d : list byte) (reclen : Z) :
  Len d = Ret (reclen, true) ->
  Offsetof_Name <= reclen <= len d ->
  Name d = Ret (until_NUL (sublist Offsetof_Name reclen d), true)
  /\ forall tail, Name (firstn (Z.to_nat reclen) d ++ tail) = Name d.
Proof.
  intros HLen Hfit. split; [apply Name_until_NUL; assumption|]. intros tail.
  destruct (Len_ok d reclen HLen) as (Hl & Hr & Hdef).
  set (d' := firstn (Z.to_nat reclen) d ++ tail).
  assert (Hlen' : reclen <= len d').
  { unfold d'. len_simpl. rewrite len_firstn by lia. pose proof (len_nonneg tail). lia. }
  assert (Hsub : forall lo hi, 0 <= lo <= hi -> hi <= reclen -> sublist lo hi d' = sublist lo hi d).
  { intros lo hi H1 H2. apply sublist_firstn_app; lia. }
  assert (HLen' : Len d' = Ret (reclen, true)).
  { unfold RawDirEntry64.Len, Offsetof_Reclen, Sizeof_Reclen, Offsetof_Name in *.
    destruct (readUint_inside d' 16 2 ltac:(lia) ltac:(lia) ltac:(lia)) as (v & Ev & _ & Hv).
    rewrite Ev. do 2 f_equal. change (16 + 2) with 18 in Hv.
    rewrite Hsub in Hv by lia. congruence. }
  rewrite (Name_until_NUL d' reclen HLen') by lia.
  rewrite (Name_until_NUL d reclen HLen) by lia.
  rewrite Hsub by (unfold Offsetof_Name in *; lia). reflexivity.
Qed.

End RawView.

Lemma Name_declared_region_witness :
  RawDirEntry64.Name LittleEndian
    (encode_dirent LittleEndian (mkDirent 666 0 x04 (str "foo") [x00; x2a]) ++ [x41])
  = Ret (str "foo", true)
  /\ forall tail,
       RawDirEntry64.Name LittleEndian
         (firstn (Z.to_nat 25)
            (encode_dirent LittleEndian (mkDirent 666 0 x04 (str "foo") [x00; x2a]) ++ [x41])
          ++ tail)
       = RawDirEntry64.Name LittleEndian
           (encode_dirent LittleEndian (mkDirent 666 0 x04 (str "foo") [x00; x2a]) ++ [x41]).
Proof.
  apply (Name_declared_region LittleEndian
           (encode_dirent LittleEndian (mkDirent 666 0 x04 (str "foo") [x00; x2a]) ++ [x41]) 25).
  - vm_compute. reflexivity.
  - vm_compute. split; discriminate.
Defined.

(** A record length below the name offset makes the name length wrap
    around; the bounds test of [Name] then compares the record length
    itself with the slice length, and the final slice expression has its
    lower bound above its upper bound. *)
Lemma Name_short_record_panics (order : ByteOrder) (d : list byte) (reclen : Z) :
  RawDirEntry64.Len order d = Ret (reclen, true) ->
  reclen < Offsetof_Name ->
  reclen <= len d ->
  RawDirEntry64.Name order d = Panic.
Proof.
  intros HLen Hshort Hfit.
  destruct (Len_ok order d reclen HLen) as (Hl & Hr & _).
  unfold RawDirEntry64.Name. rewrite HLen. cbn [bind negb].
  unfold Offsetof_Name in *.
  assert (Hnl : wrap64 (reclen - 19) = reclen - 19 + 2 ^ 64).
  { unfold wrap64. symmetry. apply (Z.mod_unique _ _ (-1)); lia. }
  assert (He : wrap64 (19 + wrap64 (reclen - 19)) = reclen).
  { rewrite Hnl. unfold wrap64. symmetry. apply (Z.mod_unique _ _ 1); lia. }
  rewrite He. replace (reclen >? len d) with false by (zcompare; zfalse).
  unfold scan_fuel. cbn [RawDirEntry64.Name_loop]. rewrite He.
  replace (19 <? reclen) with false by zfalse. cbn [bind].
  unfold slice. replace (19 <=? reclen) with false by zfalse.
  rewrite andb_false_r. reflexivity.
Qed.

(** C3.  [Name] panics on a slice whose record length field is smaller
    than the name offset: on 19 zero bytes (record length 0) and on a
    record whose length field says 5, in either byte order, the slice
    expression [d[19:reclen]] is out of range. *)
Theorem Name_panics_below_name_offset (order : ByteOrder) :
  RawDirEntry64.Name order (repeat x00 19) = Panic
  /\ RawDirEntry64.Name order
       (encode_uint order 8 666 ++ encode_uint order 8 0 ++ encode_uint order 2 5
        ++ [x04] ++ str "foobarz" ++ [x00])
     = Panic.
Proof. destruct order; split; vm_compute; reflexivity. Qed.

(** ** The directory iterator on a record of length zero *)

Section ZeroLength.

Variable order : ByteOrder.
Variable yield : list DirEntry -> DirEntry -> bool.

(** A record whose length decodes to zero passes the length test of
    [ReadDir] and does not move the scan position: with a zero inode the
    pass ends where it began. *)
Lemma ReadDir_body_zero_length_tombstone (st : readdir_state) (dentry : list byte) :
  st_pos st < st_avail st ->
  slice (st_buff st) (st_pos st) (st_avail st) = Ret dentry ->
  RawDirEntry64.Len order dentry = Ret (0, true) ->
  RawDirEntry64.Ino order dentry = Ret (0, true) ->
  ReadDir_body order yield st = Ret (Continue st).
Proof.
  intros Hpos Hsl HLen HIno. unfold ReadDir_body, refill.
  replace (st_pos st >=? st_avail st) with false by (zcompare; zfalse).
  rewrite Hsl. cbn [bind]. rewrite HLen. cbn [bind negb orb].
  replace (0 >? len dentry) with false by (zcompare; pose proof (len_nonneg dentry); zfalse).
  rewrite HIno. cbn [bind negb orb]. rewrite Z.eqb_refl.
  unfold with_pos. rewrite Z.add_0_r. destruct st; reflexivity.
Qed.

(** The loop then never returns, whatever the budget. *)
Lemma ReadDir_loop_zero_length_tombstone (st : readdir_state) (dentry : list byte) :
  st_pos st < st_avail st ->
  slice (st_buff st) (st_pos st) (st_avail st) = Ret dentry ->
  RawDirEntry64.Len order dentry = Ret (0, true) ->
  RawDirEntry64.Ino order dentry = Ret (0, true) ->
  forall fuel, ReadDir_loop order yield fuel st = (st_yielded st, Unfinished).
Proof.
  intros Hpos Hsl HLen HIno fuel. induction fuel as [|fuel IH]; [reflexivity|].
  cbn [ReadDir_loop].
  rewrite (ReadDir_body_zero_length_tombstone st dentry) by assumption. exact IH.
Qed.

(** With a non-zero inode the pass goes on to [Name], which panics. *)
Lemma ReadDir_loop_zero_length_entry (st : readdir_state) (dentry : list byte) (ino : Z) :
  st_pos st < st_avail st ->
  slice (st_buff st) (st_pos st) (st_avail st) = Ret dentry ->
  RawDirEntry64.Len order dentry = Ret (0, true) ->
  RawDirEntry64.Ino order dentry = Ret (ino, true) ->
  ino <> 0 ->
  forall fuel, ReadDir_loop order yield (S fuel) st = (st_yielded st, Panicked).
Proof.
  intros Hpos Hsl HLen HIno Hino fuel. cbn [ReadDir_loop].
  unfold ReadDir_body, refill.
  replace (st_pos st >=? st_avail st) with false by (zcompare; zfalse).
  rewrite Hsl. cbn [bind]. rewrite HLen. cbn [bind negb orb].
  replace (0 >? len dentry) with false by (zcompare; pose proof (len_nonneg dentry); zfalse).
  rewrite HIno. cbn [bind negb orb].
  replace (ino =? 0) with false by (symmetry; apply Z.eqb_neq; exact Hino).
  rewrite (Name_short_record_panics order dentry 0 HLen)
    by (unfold Offsetof_Name; pose proof (len_nonneg dentry); lia).
  reflexivity.
Qed.

(** So whenever the record at the scan position has a length that decodes
    to zero, the iteration function does not return. *)
Lemma ReadDir_zero_length_never_returns (st : readdir_state) (dentry : list byte) :
  st_pos st < st_avail st ->
  slice (st_buff st) (st_pos st) (st_avail st) = Ret dentry ->
  RawDirEntry64.Len order dentry = Ret (0, true) ->
  forall fuel,
    ReadDir_loop order yield (S fuel) st = (st_yielded st, Unfinished)
    \/ ReadDir_loop order yield (S fuel) st = (st_yielded st, Panicked).
Proof.
  intros Hpos Hsl HLen fuel.
  destruct (Len_ok order dentry 0 HLen) as (Hl & _ & _).
  destruct (readUint_inside order dentry 0 8 ltac:(lia) ltac:(lia) ltac:(lia))
    as (ino & HIno & _ & _).
  fold Offsetof_Ino Sizeof_Ino in HIno. fold (RawDirEntry64.Ino order dentry) in HIno.
  destruct (Z.eq_dec ino 0) as [-> | Hne].
  - left. apply (ReadDir_loop_zero_length_tombstone st dentry); assumption.
  - right. apply (ReadDir_loop_zero_length_entry st dentry ino); assumption.
Qed.

End ZeroLength.

Lemma first_read (filled buff : list byte) (fd : dirstream) (yielded : list DirEntry) (p a : Z) :
  a <= p -> filled <> [] ->
  refill {| st_buff := buff; st_pos := p; st_avail := a;
            st_fd := GetdentsOk filled :: fd; st_yielded := yielded |}
  = Some {| st_buff := filled ++ skipn (length filled) buff; st_pos := 0;
            st_avail := len filled; st_fd := fd; st_yielded := yielded |}.
Proof.
  intros Hp Hne. unfold refill. cbn [st_pos st_avail st_fd st_buff st_yielded Getdents].
  replace (p >=? a) with true by (zcompare; ztrue).
  replace (len filled <=? 0) with false; [reflexivity|].
  destruct filled; [contradiction|]. len_simpl. pose proof (len_nonneg filled). zfalse.
Qed.

Lemma refill_yielded (st st1 : readdir_state) :
  refill st = Some st1 -> st_yielded st1 = st_yielded st.
Proof.
  unfold refill. destruct (st_pos st >=? st_avail st).
  - destruct (Getdents (st_fd st) (st_buff st)) as [[[avail err] buff] fd].
    destruct (err || (avail <=? 0)); [discriminate|]. intros [= <-]. reflexivity.
  - intros [= <-]. reflexivity.
Qed.

(** A pass that starts with a read goes on like a pass on the buffer
    just filled. *)
Lemma ReadDir_loop_after_refill (order : ByteOrder) (yield : list DirEntry -> DirEntry -> bool)
      (st st1 : readdir_state) (fuel : nat) :
  refill st = Some st1 -> st_pos st1 < st_avail st1 ->
  ReadDir_loop order yield fuel st = ReadDir_loop order yield fuel st1.
Proof.
  intros Hre Hpos. pose proof (refill_yielded st st1 Hre) as Hy.
  destruct fuel as [|fuel]; cbn [ReadDir_loop]; [congruence|].
  assert (Hbody : ReadDir_body order yield st = ReadDir_body order yield st1).
  { unfold ReadDir_body. rewrite Hre. unfold refill.
    replace (st_pos st1 >=? st_avail st1) with false by (zcompare; zfalse). reflexivity. }
  rewrite Hbody, Hy. reflexivity.
Qed.

(** C4.  A batch of 24 zero bytes holds a record of length zero with a
    zero inode: on it [ReadDir] is still looping when the budget runs
    out, whatever the budget.  With a non-zero inode in such a record it
    panics. *)
Theorem ReadDir_zero_length_record (order : ByteOrder) (buff : list byte) (fuel : nat) :
  ReadDir order take_all (Some [GetdentsOk (repeat x00 24)]) buff fuel = ([], Unfinished)
  /\ ReadDir order take_all (Some [GetdentsOk (repeat x01 8 ++ repeat x00 16)]) buff (S fuel)
     = ([], Panicked).
Proof.
  split; unfold ReadDir;
    erewrite ReadDir_loop_after_refill
      by (try (apply first_read; (lia || discriminate)); reflexivity);
    change (@nil DirEntry) with (st_yielded (mkState buff 0 0 [] [])) at 2.
  - apply (ReadDir_loop_zero_length_tombstone order take_all
             (mkState (repeat x00 24 ++ skipn 24 buff) 0 24 [] []) (repeat x00 24));
      try (destruct order; reflexivity).
    apply (slice_app [] (repeat x00 24)).
  - apply (ReadDir_loop_zero_length_entry order take_all
             (mkState ((repeat x01 8 ++ repeat x00 16) ++ skipn 24 buff) 0 24 [] [])
             (repeat x01 8 ++ repeat x00 16) 72340172838076673);
      try (destruct order; reflexivity); try discriminate.
    apply (slice_app [] (repeat x01 8 ++ repeat x00 16)).
Qed.

(** ** Encoded records *)

Lemma len_encode_le (size : nat) (z : Z) : len (encode_le size z) = Z.of_nat size.
Proof.
  revert z. induction size as [|size IH]; intros z; [reflexivity|].
  cbn [encode_le]. len_simpl. rewrite IH. lia.
Qed.

Lemma decode_encode_le (size : nat) (z : Z) :
  decode_le (encode_le size z) = z mod 256 ^ Z.of_nat size.
Proof.
  revert z. induction size as [|size IH]; intros z.
  - cbn [encode_le decode_le]. change (256 ^ Z.of_nat 0) with 1. rewrite Z.mod_1_r. reflexivity.
  - cbn [encode_le decode_le]. rewrite IH, u8_byte_of_Z.
    rewrite Nat2Z.inj_succ, Z.pow_succ_r by lia.
    rewrite Z.rem_mul_r; [reflexivity | lia | apply Z.pow_pos_nonneg; lia].
Qed.

Section Encoded.

Variable order : ByteOrder.

Local Abbreviation Len := (RawDirEntry64.Len order).
Local Abbreviation Ino := (RawDirEntry64.Ino order).
Local Abbreviation Name := (RawDirEntry64.Name order).

Lemma len_encode_uint (size : nat) (z : Z) : len (encode_uint order size z) = Z.of_nat size.
Proof.
  unfold encode_uint. destruct order; [apply len_encode_le|].
  unfold len. rewrite length_rev. apply len_encode_le.
Qed.

Lemma decode_encode_uint (size : nat) (z : Z) :
  0 <= z < 256 ^ Z.of_nat size ->
  match order with
  | LittleEndian => decode_le (encode_uint order size z)
  | BigEndian => decode_be (encode_uint order size z)
  end = z.
Proof.
  intros Hz. unfold encode_uint.
  destruct order; [|rewrite decode_be_rev]; rewrite decode_encode_le; apply Z.mod_small; exact Hz.
Qed.

(** An unsigned field of 2 or 8 bytes is read back from where it was
    written. *)
Lemma readUint_encoded (pre post : list byte) (size : nat) (z : Z) :
  size = 2%nat \/ size = 8%nat ->
  0 <= z < 256 ^ Z.of_nat size ->
  RawDirEntry64.readUint order (pre ++ encode_uint order size z ++ post)
    (len pre) (Z.of_nat size)
  = Ret (z, true).
Proof.
  intros Hs Hz. pose proof (len_nonneg pre). pose proof (len_nonneg post).
  destruct (readUint_inside order (pre ++ encode_uint order size z ++ post)
              (len pre) (Z.of_nat size)) as (v & Ev & _ & Hv); try lia.
  - len_simpl. rewrite len_encode_uint. lia.
  - rewrite Ev. do 2 f_equal.
    rewrite <- (len_encode_uint size z) in Hv.
    rewrite sublist_app in Hv. rewrite Hv. apply decode_encode_uint. exact Hz.
Qed.

Lemma len_encode_dirent (r : dirent) : len (encode_dirent order r) = d_reclen r.
Proof.
  unfold encode_dirent, d_reclen, Offsetof_Name. len_simpl.
  rewrite !len_encode_uint. lia.
Qed.

Lemma encode_batch_cons (r : dirent) (rs : list dirent) :
  encode_batch order (r :: rs) = encode_dirent order r ++ encode_batch order rs.
Proof. reflexivity. Qed.

Lemma until_NUL_name (name pad : list byte) :
  Forall (fun c => c <> x00) name -> until_NUL (name ++ x00 :: pad) = name.
Proof.
  induction 1 as [|c name Hc Hname IH]; [reflexivity|].
  cbn [app until_NUL]. destruct (Byte.eqb c x00) eqn:E.
  - apply Byte.byte_dec_bl in E. contradiction.
  - rewrite IH. reflexivity.
Qed.

Section OneRecord.

Variable r : dirent.
Variable more : list byte.
Hypothesis r_wf : wf_dirent r.

Lemma Len_encoded : Len (encode_dirent order r ++ more) = Ret (d_reclen r, true).
Proof.
  destruct r_wf as (Hino & Hname & Hlen).
  pose proof (readUint_encoded (encode_uint order 8 (d_ino r) ++ encode_uint order 8 (d_off r))
                ([d_type r] ++ d_name r ++ [x00] ++ d_pad r ++ more) 2 (d_reclen r)
                ltac:(auto)) as H.
  unfold RawDirEntry64.Len, Offsetof_Reclen, Sizeof_Reclen, encode_dirent.
  len_simpl. rewrite !len_encode_uint in H. change (Z.of_nat 8 + Z.of_nat 8) with 16 in H.
  change (Z.of_nat 2) with 2 in H.
  repeat rewrite <- app_assoc in *. apply H.
  change (256 ^ 2) with (2 ^ 16). unfold d_reclen, Offsetof_Name in *.
  pose proof (len_nonneg (d_name r)). pose proof (len_nonneg (d_pad r)). lia.
Qed.

Lemma Ino_encoded : Ino (encode_dirent order r ++ more) = Ret (d_ino r, true).
Proof.
  destruct r_wf as (Hino & Hname & Hlen).
  pose proof (readUint_encoded []
                (encode_uint order 8 (d_off r) ++ encode_uint order 2 (d_reclen r)
                 ++ [d_type r] ++ d_name r ++ [x00] ++ d_pad r ++ more) 8 (d_ino r)
                ltac:(auto)) as H.
  unfold RawDirEntry64.Ino, Offsetof_Ino, Sizeof_Ino, encode_dirent.
  change (len (@nil byte)) with 0 in H. change (Z.of_nat 8) with 8 in H. cbn [app] in H.
  repeat rewrite <- app_assoc in *. apply H.
  change (256 ^ 8) with (2 ^ 64). exact Hino.
Qed.

Lemma Type_encoded :
  RawDirEntry64.Type_ (encode_dirent order r ++ more) = Ret (d_type r, true).
Proof.
  unfold RawDirEntry64.Type_, Offsetof_Type, encode_dirent.
  pose proof (index_app (encode_uint order 8 (d_ino r) ++ encode_uint order 8 (d_off r)
                         ++ encode_uint order 2 (d_reclen r))
                (d_name r ++ [x00] ++ d_pad r ++ more) (d_type r)) as H.
  len_simpl. rewrite !len_encode_uint in *.
  change (Z.of_nat 8 + (Z.of_nat 8 + Z.of_nat 2)) with 18 in H.
  repeat rewrite <- app_assoc in *. cbn [app] in *.
  replace (18 >=? _) with false.
  - rewrite H. reflexivity.
  - zcompare. pose proof (len_nonneg (d_name r)). pose proof (len_nonneg (d_pad r)).
    pose proof (len_nonneg more). change (Z.of_nat 8) with 8. change (Z.of_nat 2) with 2.
    zfalse.
Qed.

Lemma Name_encoded : Name (encode_dirent order r ++ more) = Ret (d_name r, true).
Proof.
  destruct r_wf as (Hino & Hname & Hlen).
  pose proof (len_nonneg (d_name r)). pose proof (len_nonneg (d_pad r)).
  pose proof (len_nonneg more).
  rewrite (Name_until_NUL order (encode_dirent order r ++ more) (d_reclen r) Len_encoded)
    by (len_simpl; rewrite len_encode_dirent; unfold d_reclen, Offsetof_Name; lia).
  do 2 f_equal.
  pose proof (sublist_app (encode_uint order 8 (d_ino r) ++ encode_uint order 8 (d_off r)
                           ++ encode_uint order 2 (d_reclen r) ++ [d_type r])
                (d_name r ++ [x00] ++ d_pad r) more) as Hs.
  len_simpl. rewrite !len_encode_uint in Hs.
  change (Z.of_nat 8 + (Z.of_nat 8 + (Z.of_nat 2 + (0 + 1)))) with Offsetof_Name in Hs.
  replace (Offsetof_Name + (len (d_name r) + (0 + 1 + len (d_pad r)))) with (d_reclen r) in Hs
    by (unfold d_reclen; lia).
  unfold encode_dirent. repeat rewrite <- app_assoc in *. rewrite Hs.
  apply until_NUL_name. exact Hname.
Qed.

End OneRecord.
End Encoded.

(** ** The directory iterator on well-formed batches *)

Section WellFormed.

Variable order : ByteOrder.

Lemma encode_dirent_nonempty (r : dirent) : 0 < len (encode_dirent order r).
Proof.
  rewrite len_encode_dirent. unfold d_reclen, Offsetof_Name.
  pose proof (len_nonneg (d_name r)). pose proof (len_nonneg (d_pad r)). lia.
Qed.

(** The entries one record adds to the sequence. *)
Lemma filter_real_cons (r : dirent) (rs : list dirent) :
  map cooked (filter real_entry (r :: rs))
  = (if real_entry r then [cooked r] else []) ++ map cooked (filter real_entry rs).
Proof. cbn [filter]. destruct (real_entry r); reflexivity. Qed.

Ltac same_state :=
  rewrite ?app_nil_r; do 2 f_equal; len_simpl; rewrite <- ?app_assoc;
  f_equal; solve [reflexivity | lia].

(** One pass over a well-formed record: the scan position moves behind
    the record, and the record is yielded if it is a real entry. *)
Lemma ReadDir_body_record (r : dirent) (rs : list dirent) (prefix stale : list byte)
      (fd : dirstream) (yielded : list DirEntry) :
  wf_dirent r ->
  ReadDir_body order take_all (scan_state order prefix (r :: rs) stale fd yielded)
  = Ret (Continue (scan_state order (prefix ++ encode_dirent order r) rs stale fd
                     (yielded ++ if real_entry r then [cooked r] else []))).
Proof.
  intros Hwf. pose proof (encode_dirent_nonempty r) as Hr.
  pose proof (len_nonneg (encode_batch order rs)) as Hrs.
  unfold ReadDir_body, refill, scan_state.
  cbn [st_buff st_pos st_avail st_fd st_yielded].
  rewrite encode_batch_cons. len_simpl.
  replace (len prefix >=? _) with false by (zcompare; zfalse).
  cbn [st_buff st_pos st_avail st_fd st_yielded].
  pose proof (slice_app prefix (encode_dirent order r ++ encode_batch order rs) stale) as Hsl.
  len_simpl. rewrite Hsl. cbn [bind].
  rewrite (Len_encoded order r _ Hwf). cbn [bind negb orb]. len_simpl.
  rewrite len_encode_dirent in *.
  replace (d_reclen r >? d_reclen r + len (encode_batch order rs)) with false
    by (zcompare; zfalse).
  rewrite (Ino_encoded order r _ Hwf). cbn [bind negb orb].
  unfold real_entry, with_pos, with_yielded. cbn [st_buff st_pos st_avail st_fd st_yielded].
  destruct (d_ino r =? 0); cbn [negb andb].
  { same_state. }
  rewrite (Name_encoded order r _ Hwf). cbn [bind negb].
  rewrite !bytes_Equal_eqb.
  destruct (bytes_eqb (d_name r) (str ".")); cbn [negb andb orb].
  { same_state. }
  destruct (bytes_eqb (d_name r) (str "..")); cbn [negb andb orb].
  { same_state. }
  rewrite (Type_encoded order r _). cbn [bind negb]. unfold take_all. cbn [negb].
  same_state.
Qed.

(** The passes over the rest of a batch. *)
Lemma ReadDir_loop_batch (rs : list dirent) :
  forall (prefix stale : list byte) (fd : dirstream) (yielded : list DirEntry) (fuel : nat),
    Forall wf_dirent rs ->
    ReadDir_loop order take_all (length rs + fuel) (scan_state order prefix rs stale fd yielded)
    = ReadDir_loop order take_all fuel
        (scan_state order (prefix ++ encode_batch order rs) [] stale fd
           (yielded ++ map cooked (filter real_entry rs))).
Proof.
  induction rs as [|r rs IH]; intros prefix stale fd yielded fuel Hwf.
  - cbn [length Nat.add filter map]. unfold encode_batch. cbn [map concat].
    rewrite !app_nil_r. reflexivity.
  - apply Forall_cons_iff in Hwf. destruct Hwf as [Hr Hrs].
    cbn [length Nat.add ReadDir_loop]. rewrite ReadDir_body_record by exact Hr.
    rewrite IH by exact Hrs. rewrite encode_batch_cons, filter_real_cons.
    rewrite <- !app_assoc. reflexivity.
Qed.

(** At the end of a batch the next read delivers the next batch, or the
    end of the directory. *)
Lemma ReadDir_loop_batches (dir : list (list dirent)) :
  forall (prefix stale : list byte) (yielded : list DirEntry) (fuel : nat),
    Forall wf_batch dir ->
    ReadDir_loop order take_all (length (concat dir) + S fuel)
      (scan_state order prefix [] stale (dirstream_of order dir) yielded)
    = (yielded ++ map cooked (filter real_entry (concat dir)), Returned).
Proof.
  induction dir as [|batch dir IH]; intros prefix stale yielded fuel Hwf.
  - cbn [concat length Nat.add ReadDir_loop filter map].
    unfold ReadDir_body, refill, scan_state, encode_batch, dirstream_of.
    cbn [map concat st_buff st_pos st_avail st_fd st_yielded Getdents]. len_simpl.
    replace (len prefix >=? len prefix + 0) with true by (zcompare; ztrue).
    cbn [orb]. change (0 <=? 0) with true. cbn iota. rewrite app_nil_r. reflexivity.
  - apply Forall_cons_iff in Hwf. destruct Hwf as [[Hne Hb] Hdir].
    cbn [concat]. rewrite length_app, <- Nat.add_assoc.
    rewrite (ReadDir_loop_after_refill order take_all _
               (scan_state order [] batch
                  (skipn (length (encode_batch order batch)) (prefix ++ stale))
                  (dirstream_of order dir) yielded)).
    + rewrite ReadDir_loop_batch by exact Hb. rewrite IH by exact Hdir.
      rewrite filter_app, map_app, app_assoc. reflexivity.
    + unfold scan_state, encode_batch at 1, dirstream_of. cbn [map concat app].
      rewrite first_read.
      * len_simpl. reflexivity.
      * len_simpl. lia.
      * destruct batch as [|r batch]; [contradiction|].
        rewrite encode_batch_cons. pose proof (encode_dirent_nonempty r) as Hr.
        intros E. apply (f_equal len) in E. len_simpl.
        pose proof (len_nonneg (encode_batch order batch)). lia.
    + unfold scan_state. cbn [st_pos st_avail]. len_simpl.
      destruct batch as [|r batch]; [contradiction|].
      rewrite encode_batch_cons. len_simpl. pose proof (encode_dirent_nonempty r).
      pose proof (len_nonneg (encode_batch order batch)). lia.
Qed.

End WellFormed.

Lemma real_entry_ino (r : dirent) : real_entry r = true -> d_ino r <> 0.
Proof.
  unfold real_entry. intros H. apply andb_true_iff in H. destruct H as [H _].
  apply andb_true_iff in H. destruct H as [H _].
  apply negb_true_iff, Z.eqb_neq in H. exact H.
Qed.

(** C2.  For a directory whose reads deliver well-formed records in
    non-empty batches, and a consumer that takes every entry, [ReadDir]
    returns after having yielded exactly the records with a non-zero
    inode and a name other than "." and "..", each with a non-zero inode,
    in the order in which the records lie in the buffers. *)
Theorem ReadDir_yields_real_entries (order : ByteOrder) (dir : list (list dirent))
        (buff : list byte) (fuel : nat) :
  Forall wf_batch dir ->
  (length (concat dir) < fuel)%nat ->
  ReadDir order take_all (Some (dirstream_of order dir)) buff fuel
  = (map cooked (filter real_entry (concat dir)), Returned)
  /\ Forall (fun e => Ino e <> 0) (map cooked (filter real_entry (concat dir))).
Proof.
  intros Hwf Hfuel. split.
  - unfold ReadDir.
    replace fuel with (length (concat dir) + S (fuel - S (length (concat dir))))%nat by lia.
    apply (ReadDir_loop_batches order dir [] buff [] _ Hwf).
  - apply Forall_map, Forall_forall. intros r Hr. apply filter_In in Hr.
    apply real_entry_ino, Hr.
Qed.

Lemma ReadDir_yields_real_entries_witness :
  ReadDir LittleEndian take_all (Some (dirstream_of LittleEndian sample_directory))
    (repeat x00 64) 6
  = ([mkDirEntry 101 (str "bar") x08; mkDirEntry 102 (str "baz") x04], Returned)
  /\ Forall (fun e => Ino e <> 0) [mkDirEntry 101 (str "bar") x08; mkDirEntry 102 (str "baz") x04].
Proof.
  apply (ReadDir_yields_real_entries LittleEndian sample_directory (repeat x00 64) 6).
  - unfold sample_directory, wf_batch, wf_dirent.
    repeat (apply Forall_cons || apply Forall_nil || split);
      try discriminate; vm_compute; congruence.
  - vm_compute. lia.
Defined.

(** * Further properties of the scanner *)

Lemma space_test (c : byte) : (u8 c =? u8 " ") = Byte.eqb c " ".
Proof. destruct c; reflexivity. Qed.

Lemma space_test_true (c : byte) : Byte.eqb c " " = true <-> is_space c.
Proof.
  unfold is_space. split; [apply Byte.byte_dec_bl | apply Byte.byte_dec_lb].
Qed.

Lemma space_test_false (c : byte) : Byte.eqb c " " = false <-> ~ is_space c.
Proof.
  rewrite <- space_test_true. destruct (Byte.eqb c " "); split; congruence.
Qed.

Lemma SkipSpace_loop_run (sp : list byte) :
  forall (pre post : list byte) (fuel : nat),
    Forall is_space sp -> run_ends is_space post -> (length sp < fuel)%nat ->
    SkipSpace_loop fuel (mkBytestring (pre ++ sp ++ post) (len pre))
    = Ret (match post with [] => true | _ => false end,
           mkBytestring (pre ++ sp ++ post) (len pre + len sp)).
Proof.
  induction sp as [|c sp IH]; intros pre post fuel Hsp Hpost Hf;
    (destruct fuel as [|fuel]; [cbn [length] in Hf; lia|]);
    cbn [SkipSpace_loop b pos app]; rewrite at_end_iff.
  - len_simpl. rewrite Z.add_0_r. destruct post as [|p post]; [reflexivity|].
    rewrite index_app. cbn [bind]. cbn [run_ends] in Hpost.
    apply space_test_false in Hpost. rewrite space_test, Hpost. reflexivity.
  - rewrite index_app. cbn [bind].
    apply Forall_cons_iff in Hsp. destruct Hsp as [Hc Hsp].
    apply space_test_true in Hc. rewrite space_test, Hc. cbn [negb].
    unfold set_pos. cbn [b pos].
    replace (pre ++ c :: sp ++ post) with ((pre ++ [c]) ++ sp ++ post)
      by (rewrite <- app_assoc; reflexivity).
    replace (len pre + 1) with (len (pre ++ [c])) by (len_simpl; lia).
    rewrite IH; try assumption; [|cbn [length] in Hf; lia].
    len_simpl. do 3 f_equal. lia.
Qed.

(** X1.  [SkipSpace] moves the cursor over the whole run of spaces under
    it and not further, and reports the end of the line exactly when
    nothing follows the run. *)
Theorem SkipSpace_skips_run (pre sp post : list byte) :
  Forall is_space sp -> run_ends is_space post ->
  SkipSpace (mkBytestring (pre ++ sp ++ post) (len pre))
  = Ret (match post with [] => true | _ => false end,
         mkBytestring (pre ++ sp ++ post) (len pre + len sp)).
Proof.
  intros Hsp Hpost. unfold SkipSpace. cbn [b pos].
  apply SkipSpace_loop_run; try assumption.
  unfold scan_fuel, len. rewrite !length_app. lia.
Qed.

Lemma SkipSpace_skips_run_witness :
  SkipSpace (mkBytestring (str "ab" ++ str "   " ++ str "foo") (len (str "ab")))
  = Ret (false, mkBytestring (str "ab" ++ str "   " ++ str "foo") (len (str "ab") + len (str "   "))).
Proof.
  apply (SkipSpace_skips_run (str "ab") (str "   ") (str "foo")).
  - repeat constructor.
  - cbn. unfold is_space. discriminate.
Defined.

Lemma mid_fuel (pre cs post : list byte) :
  (length cs < scan_fuel (pre ++ cs ++ post) (len pre))%nat.
Proof. unfold scan_fuel, len. rewrite !length_app. lia. Qed.

(** X2.  [Uint64] in the middle of a line: from a cursor in front of a
    non-empty run of decimal digits whose value fits 64 bits it returns
    that value and leaves the cursor behind the run, in front of the
    first byte that is not a digit. *)
Theorem Uint64_scans_number (pre cs post : list byte) :
  cs <> [] ->
  Forall (is_digit dec_digit_value) cs ->
  stops dec_digit_value post ->
  dec_value cs <= MaxUint64 ->
  Uint64 (mkBytestring (pre ++ cs ++ post) (len pre))
  = Ret (dec_value cs, true, mkBytestring (pre ++ cs ++ post) (len pre + len cs)).
Proof.
  intros Hne Hd Hs Hv. unfold Uint64. cbn [b pos].
  apply Uint64_loop_digits; try assumption; try lia.
  - intros E. contradiction.
  - apply mid_fuel.
Qed.

Lemma Uint64_scans_number_witness :
  Uint64 (mkBytestring (str "pid " ++ str "4711" ++ str " (init)") (len (str "pid ")))
  = Ret (dec_value (str "4711"), true,
         mkBytestring (str "pid " ++ str "4711" ++ str " (init)")
           (len (str "pid ") + len (str "4711"))).
Proof.
  apply (Uint64_scans_number (str "pid ") (str "4711") (str " (init)")).
  - discriminate.
  - repeat constructor; discriminate.
  - cbn. reflexivity.
  - vm_compute. discriminate.
Defined.

(** X3.  [HexUint64] in the middle of a line: from a cursor in front of a
    non-empty run of hexadecimal digits (either case) whose value fits 64
    bits it returns that value and leaves the cursor behind the run. *)
Theorem HexUint64_scans_number (pre cs post : list byte) :
  cs <> [] ->
  Forall (is_digit hex_digit_value) cs ->
  stops hex_digit_value post ->
  hex_value cs <= MaxUint64 ->
  HexUint64 (mkBytestring (pre ++ cs ++ post) (len pre))
  = Ret (hex_value cs, true, mkBytestring (pre ++ cs ++ post) (len pre + len cs)).
Proof.
  intros Hne Hd Hs Hv. unfold HexUint64. cbn [b pos].
  apply HexUint64_loop_digits; try assumption; try lia.
  - intros E. contradiction.
  - apply mid_fuel.
Qed.

Lemma HexUint64_scans_number_witness :
  HexUint64 (mkBytestring (str "0x" ++ str "7fFe" ++ str "-8000") (len (str "0x")))
  = Ret (hex_value (str "7fFe"), true,
         mkBytestring (str "0x" ++ str "7fFe" ++ str "-8000")
           (len (str "0x") + len (str "7fFe"))).
Proof.
  apply (HexUint64_scans_number (str "0x") (str "7fFe") (str "-8000")).
  - discriminate.
  - repeat constructor; discriminate.
  - cbn. reflexivity.
  - vm_compute. discriminate.
Defined.

(** X4.  Without a digit under the cursor (at the end of the line, or at
    a byte that is no digit) [Uint64] and [HexUint64] fail with the value
    0 and leave the cursor where it was. *)
Theorem number_needs_a_digit (pre post : list byte) :
  (stops dec_digit_value post ->
   Uint64 (mkBytestring (pre ++ post) (len pre))
   = Ret (0, false, mkBytestring (pre ++ post) (len pre)))
  /\ (stops hex_digit_value post ->
      HexUint64 (mkBytestring (pre ++ post) (len pre))
      = Ret (0, false, mkBytestring (pre ++ post) (len pre))).
Proof.
  split; intros Hs; [unfold Uint64 | unfold HexUint64]; unfold scan_fuel;
    cbn [Uint64_loop HexUint64_loop b pos]; rewrite at_end_iff;
    (destruct post as [|c post]; [reflexivity|]); rewrite index_app; cbn [bind];
    cbn [stops] in Hs.
  - rewrite Uint64_digit_test in Hs.
    destruct ((u8 c <? u8 "0") || (u8 c >? u8 "9")); [reflexivity | discriminate].
  - rewrite hex_digit_correct, Hs. reflexivity.
Qed.

Lemma number_needs_a_digit_witness :
  Uint64 (mkBytestring (str "n=" ++ str "x1") (len (str "n=")))
  = Ret (0, false, mkBytestring (str "n=" ++ str "x1") (len (str "n=")))
  /\ HexUint64 (mkBytestring (str "n=" ++ str "x1") (len (str "n=")))
     = Ret (0, false, mkBytestring (str "n=" ++ str "x1") (len (str "n="))).
Proof.
  destruct (number_needs_a_digit (str "n=") (str "x1")) as [Hd Hh].
  split; [apply Hd | apply Hh]; reflexivity.
Defined.

(** ** What a returned number means *)

Lemma wrap64_idem_step (a base v : Z) :
  wrap64 (wrap64 a * base + v) = wrap64 (a * base + v).
Proof.
  unfold wrap64. rewrite Z.add_mod, Z.mul_mod_idemp_l, <- Z.add_mod by lia. reflexivity.
Qed.

Lemma digits_value_wrap (value : byte -> option Z) (base : Z) (cs : list byte) :
  forall a, wrap64 (digits_value value base (wrap64 a) cs) = wrap64 (digits_value value base a cs).
Proof.
  induction cs as [|c cs IH]; intros a.
  - unfold digits_value. cbn [fold_left]. unfold wrap64. apply Z.mod_mod. lia.
  - rewrite !digits_value_cons. rewrite <- IH. rewrite wrap64_idem_step. apply IH.
Qed.

(** Every return of the decimal loop: the bytes consumed are digits; a
    failure carries the value 0; a success stands in front of the end or
    of a byte that is no digit, and carries the value of the digits
    consumed, reduced modulo 2^64. *)
Lemma Uint64_loop_sound (rest : list byte) :
  forall (pre : list byte) (num : Z) (ok : bool) (fuel : nat),
    (length rest < fuel)%nat ->
    0 <= num <= MaxUint64 ->
    exists v r cs post,
      rest = cs ++ post
      /\ 0 <= v <= MaxUint64
      /\ Forall (is_digit dec_digit_value) cs
      /\ Uint64_loop fuel (mkBytestring (pre ++ rest) (len pre)) num ok
         = Ret (v, r, mkBytestring (pre ++ rest) (len pre + len cs))
      /\ (r = false -> v = 0)
      /\ (r = true ->
          stops dec_digit_value post
          /\ (cs = [] -> ok = true /\ v = num)
          /\ wrap64 v = wrap64 (digits_value dec_digit_value 10 num cs)).
Proof.
  assert (H0 : 0 <= 0 <= MaxUint64) by (rewrite MaxUint64_value; lia).
  induction rest as [|c rest IH]; intros pre num ok fuel Hf Hnum;
    (destruct fuel as [|fuel]; [cbn [length] in Hf; lia|]);
    cbn [Uint64_loop b pos]; rewrite at_end_iff.
  - exists (if ok then num else 0), ok, [], []. len_simpl. rewrite Z.add_0_r.
    split; [reflexivity|]. split; [destruct ok; assumption|].
    repeat split; try constructor; destruct ok; try reflexivity; try discriminate.
  - rewrite index_app. cbn [bind].
    pose proof (Uint64_digit_test c) as Hc.
    destruct ((u8 c <? u8 "0") || (u8 c >? u8 "9")) eqn:E.
    + exists (if ok then num else 0), ok, [], (c :: rest). len_simpl. rewrite Z.add_0_r.
      split; [reflexivity|]. split; [destruct ok; assumption|]. split; [constructor|].
      split; [destruct ok; reflexivity|].
      split; [intros ->; reflexivity|].
      intros ->. split; [exact Hc|].
      split; [intros _; split; reflexivity | reflexivity].
    + destruct (num >=? cutoffDecimalUint64).
      * exists 0, false, [], (c :: rest). len_simpl. rewrite Z.add_0_r.
        split; [reflexivity|]. split; [assumption|].
        repeat split; try constructor; try discriminate.
      * unfold set_pos. cbn [b pos].
        replace (pre ++ c :: rest) with ((pre ++ [c]) ++ rest)
          by (rewrite <- app_assoc; reflexivity).
        replace (len pre + 1) with (len (pre ++ [c])) by (len_simpl; lia).
        destruct (IH (pre ++ [c]) (wrap64 (num * 10 + wrap8 (u8 c - u8 "0"))) true fuel
                    ltac:(cbn [length] in Hf; lia) (wrap64_range _))
          as (v & r & cs & post & Hrest & Hrange & Hcs & Hloop & Hfail & Hsucc).
        exists v, r, (c :: cs), post. rewrite Hloop. len_simpl.
        split; [rewrite Hrest; reflexivity|]. split; [exact Hrange|].
        split; [constructor; [unfold is_digit; congruence | exact Hcs]|].
        split; [do 3 f_equal; lia|].
        split; [exact Hfail|].
        intros Hr. destruct (Hsucc Hr) as (Hst & _ & Hv).
        split; [exact Hst|]. split; [discriminate|].
        rewrite Hv, digits_value_cons, digits_value_wrap, Hc. reflexivity.
Qed.

(** X5.  Whatever the line holds, [Uint64] returns; the bytes it has
    moved the cursor over are decimal digits; when it fails the value is
    0; when it succeeds it has consumed at least one digit, stands at the
    end or in front of a byte that is no digit, and the value is the
    value of the digits consumed modulo 2^64. *)
Theorem Uint64_sound (pre rest : list byte) :
  exists v r cs post,
    rest = cs ++ post
    /\ Forall (is_digit dec_digit_value) cs
    /\ Uint64 (mkBytestring (pre ++ rest) (len pre))
       = Ret (v, r, mkBytestring (pre ++ rest) (len pre + len cs))
    /\ (r = false -> v = 0)
    /\ (r = true -> cs <> [] /\ stops dec_digit_value post /\ v = dec_value cs mod 2 ^ 64).
Proof.
  unfold Uint64. cbn [b pos].
  destruct (Uint64_loop_sound rest pre 0 false (scan_fuel (pre ++ rest) (len pre)))
    as (v & r & cs & post & Hrest & Hrange & Hcs & Hloop & Hfail & Hsucc).
  { unfold scan_fuel, len. rewrite length_app. lia. }
  { rewrite MaxUint64_value. lia. }
  exists v, r, cs, post. repeat split; try assumption.
  - intros E. destruct (Hsucc H) as (_ & Hok & _). destruct (Hok E). discriminate.
  - apply Hsucc, H.
  - destruct (Hsucc H) as (_ & _ & Hv). rewrite <- (wrap64_small v Hrange). exact Hv.
Qed.

Lemma HexUint64_loop_sound (rest : list byte) :
  forall (pre : list byte) (num : Z) (ok : bool) (fuel : nat),
    (length rest < fuel)%nat ->
    0 <= num <= MaxUint64 ->
    exists v r cs post,
      rest = cs ++ post
      /\ Forall (is_digit hex_digit_value) cs
      /\ HexUint64_loop fuel (mkBytestring (pre ++ rest) (len pre)) num ok
         = Ret (v, r, mkBytestring (pre ++ rest) (len pre + len cs))
      /\ (r = false -> v = 0)
      /\ (r = true ->
          stops hex_digit_value post
          /\ (cs = [] -> ok = true)
          /\ v = digits_value hex_digit_value 16 num cs
          /\ v <= MaxUint64).
Proof.
  induction rest as [|c rest IH]; intros pre num ok fuel Hf Hnum;
    (destruct fuel as [|fuel]; [cbn [length] in Hf; lia|]);
    cbn [HexUint64_loop b pos]; rewrite at_end_iff.
  - exists (if ok then num else 0), ok, [], []. len_simpl. rewrite Z.add_0_r.
    split; [reflexivity|]. split; [constructor|].
    split; [destruct ok; reflexivity|].
    split; [intros ->; reflexivity|].
    intros ->. split; [exact I|]. split; [reflexivity|]. split; [reflexivity | apply Hnum].
  - rewrite index_app. cbn [bind]. rewrite hex_digit_correct.
    destruct (hex_digit_value c) as [d|] eqn:Ed.
    + pose proof (hex_digit_value_range c d Ed) as Hd. zcompare.
      destruct (Z.leb_spec cutoffHexUint64 num) as [Hge|Hlt].
      * exists 0, false, [], (c :: rest). len_simpl. rewrite Z.add_0_r.
        repeat split; try constructor; try discriminate.
      * rewrite hex_step_exact by lia.
        unfold set_pos. cbn [b pos].
        replace (pre ++ c :: rest) with ((pre ++ [c]) ++ rest)
          by (rewrite <- app_assoc; reflexivity).
        replace (len pre + 1) with (len (pre ++ [c])) by (len_simpl; lia).
        destruct (IH (pre ++ [c]) (num * 16 + d) true fuel ltac:(cbn [length] in Hf; lia))
          as (v & r & cs & post & Hrest & Hcs & Hloop & Hfail & Hsucc).
        { rewrite cutoffHexUint64_value in Hlt. rewrite MaxUint64_value. lia. }
        exists v, r, (c :: cs), post. rewrite Hloop. len_simpl.
        split; [rewrite Hrest; reflexivity|].
        split; [constructor; [unfold is_digit; congruence | exact Hcs]|].
        split; [do 3 f_equal; lia|].
        split; [exact Hfail|].
        intros Hr. destruct (Hsucc Hr) as (Hst & _ & Hv & Hmax).
        split; [exact Hst|]. split; [discriminate|].
        rewrite digits_value_cons, Ed. split; assumption.
    + exists (if ok then num else 0), ok, [], (c :: rest). len_simpl. rewrite Z.add_0_r.
      split; [reflexivity|]. split; [constructor|].
      split; [destruct ok; reflexivity|].
      split; [intros ->; reflexivity|].
      intros ->. split; [exact Ed|]. split; [reflexivity|]. split; [reflexivity | apply Hnum].
Qed.

(** X6.  Whatever the line holds, [HexUint64] returns; the bytes it has
    moved the cursor over are hexadecimal digits; when it fails the value
    is 0; when it succeeds it has consumed at least one digit, stands at
    the end or in front of a byte that is no hexadecimal digit, and the
    value is exactly the value of the digits consumed, which fits 64
    bits: no wrapped value is returned. *)
Theorem HexUint64_sound (pre rest : list byte) :
  exists v r cs post,
    rest = cs ++ post
    /\ Forall (is_digit hex_digit_value) cs
    /\ HexUint64 (mkBytestring (pre ++ rest) (len pre))
       = Ret (v, r, mkBytestring (pre ++ rest) (len pre + len cs))
    /\ (r = false -> v = 0)
    /\ (r = true ->
        cs <> [] /\ stops hex_digit_value post /\ v = hex_value cs /\ hex_value cs <= MaxUint64).
Proof.
  unfold HexUint64. cbn [b pos].
  destruct (HexUint64_loop_sound rest pre 0 false (scan_fuel (pre ++ rest) (len pre)))
    as (v & r & cs & post & Hrest & Hcs & Hloop & Hfail & Hsucc).
  { unfold scan_fuel, len. rewrite length_app. lia. }
  { rewrite MaxUint64_value. lia. }
  exists v, r, cs, post. repeat split; try assumption.
  - intros E. destruct (Hsucc H) as (_ & Hok & _). specialize (Hok E). discriminate.
  - apply Hsucc, H.
  - apply Hsucc, H.
  - destruct (Hsucc H) as (_ & _ & Hv & Hmax). unfold hex_value. rewrite <- Hv. exact Hmax.
Qed.

(** X7.  When [ParseUint] succeeds the slice is a non-empty string of
    decimal digits, nothing else, and the value returned is the value of
    that string modulo 2^64; when it fails the value is 0. *)
Theorem ParseUint_sound (l : list byte) :
  exists v ok,
    ParseUint l = Ret (v, ok)
    /\ (ok = false -> v = 0)
    /\ (ok = true ->
        l <> [] /\ Forall (is_digit dec_digit_value) l /\ v = dec_value l mod 2 ^ 64).
Proof.
  destruct (Uint64_loop_sound l [] 0 false (scan_fuel l 0) (scan_fuel_whole l)
              ltac:(rewrite MaxUint64_value; lia))
    as (v & r & cs & post & Hl & Hrange & Hcs & HU & Hfail & Hsucc).
  unfold ParseUint, Uint64, NewBytestring. cbn [b pos].
  cbn [app] in HU. change (len (@nil byte)) with 0 in HU.
  rewrite HU. cbn [bind]. destruct r; cbn [negb].
  - destruct (Hsucc eq_refl) as (Hst & Hok & Hw).
    assert (Hne : cs <> []) by (intros E; destruct (Hok E); discriminate).
    assert (Hv : v = dec_value cs mod 2 ^ 64)
      by (rewrite <- (wrap64_small v Hrange); exact Hw).
    unfold EOL. cbn [b pos]. rewrite Hl. len_simpl. zcompare.
    destruct (Z.leb_spec (len cs + len post) (0 + len cs)) as [Hend|Hmore].
    + assert (post = []).
      { destruct post; [reflexivity|]. len_simpl. pose proof (len_nonneg post). lia. }
      subst post. rewrite app_nil_r in *. subst l.
      exists v, true. repeat split; try assumption; try discriminate.
    + exists 0, false. repeat split; discriminate.
  - exists 0, false. repeat split; discriminate.
Qed.

(** ** Counting fields *)

Lemma spaces_split (l : list byte) :
  exists sp post, l = sp ++ post /\ Forall is_space sp /\ run_ends is_space post.
Proof.
  induction l as [|c l (sp & post & -> & Hsp & Hpost)].
  - exists [], []. repeat split. constructor.
  - destruct (Byte.eqb c " ") eqn:E.
    + apply space_test_true in E. exists (c :: sp), post. repeat split; auto.
    + apply space_test_false in E. exists [], (c :: sp ++ post). repeat split; auto.
Qed.

Lemma field_split (l : list byte) :
  exists w post, l = w ++ post /\ Forall is_field_byte w /\ run_ends is_field_byte post.
Proof.
  induction l as [|c l (w & post & -> & Hw & Hpost)].
  - exists [], []. repeat split. constructor.
  - destruct (Byte.eqb c " ") eqn:E.
    + apply space_test_true in E. exists [], (c :: w ++ post). repeat split; auto.
      cbn. unfold is_field_byte. tauto.
    + apply space_test_false in E. exists (c :: w), post. repeat split; auto.
Qed.

Lemma NumFields_spaces_run (sp : list byte) :
  forall (pre post : list byte) (fuel : nat),
    Forall is_space sp -> run_ends is_space post -> (length sp < fuel)%nat ->
    NumFields_spaces fuel (pre ++ sp ++ post) (len pre)
    = Ret (match post with [] => None | _ => Some (len pre + len sp) end).
Proof.
  induction sp as [|c sp IH]; intros pre post fuel Hsp Hpost Hf;
    (destruct fuel as [|fuel]; [cbn [length] in Hf; lia|]);
    cbn [NumFields_spaces app]; rewrite at_end_iff.
  - len_simpl. rewrite Z.add_0_r. destruct post as [|p post]; [reflexivity|].
    rewrite index_app. cbn [bind]. cbn [run_ends] in Hpost.
    apply space_test_false in Hpost. rewrite space_test, Hpost. reflexivity.
  - rewrite index_app. cbn [bind].
    apply Forall_cons_iff in Hsp. destruct Hsp as [Hc Hsp].
    apply space_test_true in Hc. rewrite space_test, Hc. cbn [negb].
    replace (pre ++ c :: sp ++ post) with ((pre ++ [c]) ++ sp ++ post)
      by (rewrite <- app_assoc; reflexivity).
    replace (len pre + 1) with (len (pre ++ [c])) by (len_simpl; lia).
    rewrite IH; try assumption; [|cbn [length] in Hf; lia].
    len_simpl. destruct post; [reflexivity|]. do 2 f_equal; lia.
Qed.

Lemma NumFields_field_run (w : list byte) :
  forall (pre post : list byte) (fuel : nat),
    Forall is_field_byte w -> run_ends is_field_byte post -> (length w < fuel)%nat ->
    NumFields_field fuel (pre ++ w ++ post) (len pre)
    = Ret (match post with [] => None | _ => Some (len pre + len w) end).
Proof.
  induction w as [|c w IH]; intros pre post fuel Hw Hpost Hf;
    (destruct fuel as [|fuel]; [cbn [length] in Hf; lia|]);
    cbn [NumFields_field app]; rewrite at_end_iff.
  - len_simpl. rewrite Z.add_0_r. destruct post as [|p post]; [reflexivity|].
    rewrite index_app. cbn [bind]. cbn [run_ends] in Hpost.
    rewrite space_test. destruct (Byte.eqb p " ") eqn:E; [reflexivity|].
    apply space_test_false in E. contradiction.
  - rewrite index_app. cbn [bind].
    apply Forall_cons_iff in Hw. destruct Hw as [Hc Hw].
    apply space_test_false in Hc. rewrite space_test, Hc.
    replace (pre ++ c :: w ++ post) with ((pre ++ [c]) ++ w ++ post)
      by (rewrite <- app_assoc; reflexivity).
    replace (len pre + 1) with (len (pre ++ [c])) by (len_simpl; lia).
    rewrite IH; try assumption; [|cbn [length] in Hf; lia].
    len_simpl. destruct post; [reflexivity|]. do 2 f_equal; lia.
Qed.

Lemma count_fields_spaces (sp l : list byte) (in_field : bool) :
  Forall is_space sp -> sp <> [] \/ in_field = false ->
  count_fields in_field (sp ++ l) = count_fields false l.
Proof.
  intros Hsp. revert in_field. induction Hsp as [|c sp Hc Hsp IH]; intros in_field Hor.
  - destruct Hor as [Hne | ->]; [contradiction | reflexivity].
  - cbn [app count_fields]. apply space_test_true in Hc. rewrite Hc. apply IH. auto.
Qed.

Lemma count_fields_inside (w l : list byte) :
  Forall is_field_byte w -> count_fields true (w ++ l) = count_fields true l.
Proof.
  induction 1 as [|c w Hc Hw IH]; [reflexivity|].
  cbn [app count_fields]. apply space_test_false in Hc. rewrite Hc, IH. lia.
Qed.

Lemma count_fields_after_field (post : list byte) :
  run_ends is_field_byte post -> count_fields true post = count_fields false post.
Proof.
  destruct post as [|c post]; [reflexivity|]. cbn [run_ends count_fields]. intros H.
  destruct (Byte.eqb c " ") eqn:E; [reflexivity|].
  apply space_test_false in E. contradiction.
Qed.

(** The outer loop adds the number of fields of the rest of the line. *)
Lemma NumFields_loop_counts (n : nat) :
  forall (rest pre : list byte) (num : Z) (fuel : nat),
    (length rest <= n)%nat -> (length rest < fuel)%nat ->
    NumFields_loop fuel (pre ++ rest) (len pre) num = Ret (num + count_fields false rest).
Proof.
  induction n as [|n IH]; intros rest pre num fuel Hn Hf;
    (destruct fuel as [|fuel]; [lia|]); cbn [NumFields_loop];
    destruct (spaces_split rest) as (sp & r1 & -> & Hsp & Hr1);
    rewrite NumFields_spaces_run by (try assumption; apply mid_fuel);
    rewrite (count_fields_spaces sp r1 false Hsp) by auto; cbn [bind];
    (destruct r1 as [|c r1]; [cbn [count_fields]; f_equal; lia|]).
  - rewrite length_app in Hn. cbn [length] in Hn. lia.
  - destruct (field_split (c :: r1)) as (w & r2 & Hsplit & Hw & Hr2).
    destruct w as [|c' w].
    { cbn [app] in Hsplit. subst r2. cbn [run_ends] in Hr1, Hr2.
      unfold is_field_byte in Hr2. contradiction. }
    rewrite Hsplit.
    replace (pre ++ sp ++ (c' :: w) ++ r2) with ((pre ++ sp) ++ (c' :: w) ++ r2)
      by (rewrite <- app_assoc; reflexivity).
    replace (len pre + len sp) with (len (pre ++ sp)) by (len_simpl; lia).
    rewrite NumFields_field_run by (try assumption; apply mid_fuel). cbn [bind].
    assert (Hcount : count_fields false ((c' :: w) ++ r2) = 1 + count_fields false r2).
    { cbn [app count_fields]. apply Forall_cons_iff in Hw. destruct Hw as [Hc' Hw].
      apply space_test_false in Hc'. rewrite Hc'.
      rewrite count_fields_inside by exact Hw.
      rewrite count_fields_after_field by exact Hr2. reflexivity. }
    rewrite Hcount. destruct r2 as [|c2 r2].
    + cbn [count_fields]. f_equal; lia.
    + replace ((pre ++ sp) ++ (c' :: w) ++ c2 :: r2)
        with (((pre ++ sp) ++ c' :: w) ++ c2 :: r2) by (rewrite <- !app_assoc; reflexivity).
      replace (len (pre ++ sp) + len (c' :: w)) with (len ((pre ++ sp) ++ c' :: w))
        by (len_simpl; lia).
      rewrite Hsplit in Hn, Hf. rewrite !length_app in Hn, Hf. cbn [length] in Hn, Hf.
      rewrite IH by (cbn [length]; lia). f_equal; lia.
Qed.

(** X8.  [NumFields] returns the number of fields between the cursor and
    the end of the line, a field being a maximal run of bytes other than
    spaces; it leaves the scanner as it was. *)
Theorem NumFields_counts_fields (pre rest : list byte) :
  NumFields (mkBytestring (pre ++ rest) (len pre))
  = Ret (count_fields false rest, mkBytestring (pre ++ rest) (len pre)).
Proof.
  unfold NumFields. cbn [b pos].
  rewrite (NumFields_loop_counts (length rest)); [reflexivity | lia |].
  unfold scan_fuel, len. rewrite length_app. lia.
Qed.

(** * Further properties of the raw record view *)

Lemma ParseUint_in_range_witness :
  ParseUint (str "0018446744073709551615") = Ret (dec_value (str "0018446744073709551615"), true).
Proof.
  apply (ParseUint_in_range (str "0018446744073709551615")).
  - discriminate.
  - repeat constructor; discriminate.
  - vm_compute. discriminate.
Defined.


Section RawViewMore.

Variable order : ByteOrder.

Local Abbreviation Len := (RawDirEntry64.Len order).
Local Abbreviation Ino := (RawDirEntry64.Ino order).
Local Abbreviation Name := (RawDirEntry64.Name order).
Local Abbreviation readUint := (RawDirEntry64.readUint order).


(** [readUint] on a supported size with the field inside the slice. *)
Lemma readUint_supported (d : list byte) (offset size : Z) :
  size = 2 \/ size = 4 \/ size = 8 -> 0 <= offset -> offset + size <= len d ->
  readUint d offset size = Ret (native_decode order (sublist offset (offset + size) d), true).
Proof.
  intros Hs Ho Hl. unfold RawDirEntry64.readUint.
  replace (offset + size >? len d) with false by (zcompare; zfalse).
  assert (Hsl : slice d offset (offset + size) = Ret (sublist offset (offset + size) d)).
  { unfold slice.
    replace ((0 <=? offset) && (offset <=? offset + size) && (offset + size <=? len d))
      with true by (ztrue). reflexivity. }
  assert (Hw : len (sublist offset (offset + size) d) = size) by (rewrite len_sublist; lia).
  assert (Hu : RawDirEntry64.NativeEndian_Uint order size (sublist offset (offset + size) d)
               = Ret (native_decode order (sublist offset (offset + size) d))).
  { unfold RawDirEntry64.NativeEndian_Uint. rewrite Hw.
    replace (size <? size) with false by zfalse.
    rewrite firstn_all2 by (unfold len in Hw; lia). reflexivity. }
  destruct Hs as [-> | [-> | ->]]; rewrite Hsl; cbn [bind]; rewrite Hu; reflexivity.
Qed.


(** X10.  [readUint] reads back what [binary.NativeEndian] wrote: a
    number below 256^size stored with 2, 4 or 8 bytes at some offset of a
    slice is returned with success. *)
Theorem readUint_reads_back (pre post : list byte) (size : nat) (z : Z) :
  size = 2%nat \/ size = 4%nat \/ size = 8%nat ->
  0 <= z < 256 ^ Z.of_nat size ->
  readUint (pre ++ encode_uint order size z ++ post) (len pre) (Z.of_nat size) = Ret (z, true).
Proof.
  intros Hs Hz. pose proof (len_nonneg pre). pose proof (len_nonneg post).
  rewrite readUint_supported; try lia.
  - rewrite <- (len_encode_uint order size z). rewrite sublist_app.
    unfold native_decode. rewrite decode_encode_uint by exact Hz. reflexivity.
  - len_simpl. rewrite len_encode_uint. lia.
Qed.

End RawViewMore.


Lemma readUint_reads_back_witness :
  RawDirEntry64.readUint BigEndian
    ([x00; x00; x00; x00] ++ encode_uint BigEndian 4 42 ++ [x7b])
    (len [x00; x00; x00; x00]) (Z.of_nat 4)
  = Ret (42, true).
Proof.
  apply (readUint_reads_back BigEndian [x00; x00; x00; x00] [x7b] 4 42).
  - auto.
  - vm_compute. split; [discriminate | reflexivity].
Defined.

(** X11.  The record view reads back an encoded record: on a slice that
    begins with the encoding of a well-formed record, whatever follows
    it, [Ino], [Len], [Type] and [Name] return the inode, the record
    length, the type and the name of that record. *)
Theorem record_view_reads_back (order : ByteOrder) (r : dirent) (more : list byte) :
  wf_dirent r ->
  RawDirEntry64.Ino order (encode_dirent order r ++ more) = Ret (d_ino r, true)
  /\ RawDirEntry64.Len order (encode_dirent order r ++ more) = Ret (d_reclen r, true)
  /\ RawDirEntry64.Type_ (encode_dirent order r ++ more) = Ret (d_type r, true)
  /\ RawDirEntry64.Name order (encode_dirent order r ++ more) = Ret (d_name r, true).
Proof.
  intros Hwf. repeat split.
  - apply Ino_encoded, Hwf.
  - apply Len_encoded, Hwf.
  - apply Type_encoded.
  - apply Name_encoded, Hwf.
Qed.

Lemma record_view_reads_back_witness :
  RawDirEntry64.Ino BigEndian
    (encode_dirent BigEndian (mkDirent 666 0 x0c (str "foobarz") [x00; x00]) ++ [x2a])
  = Ret (666, true)
  /\ RawDirEntry64.Len BigEndian
       (encode_dirent BigEndian (mkDirent 666 0 x0c (str "foobarz") [x00; x00]) ++ [x2a])
     = Ret (d_reclen (mkDirent 666 0 x0c (str "foobarz") [x00; x00]), true)
  /\ RawDirEntry64.Type_
       (encode_dirent BigEndian (mkDirent 666 0 x0c (str "foobarz") [x00; x00]) ++ [x2a])
     = Ret (x0c, true)
  /\ RawDirEntry64.Name BigEndian
       (encode_dirent BigEndian (mkDirent 666 0 x0c (str "foobarz") [x00; x00]) ++ [x2a])
     = Ret (str "foobarz", true).
Proof.
  apply (record_view_reads_back BigEndian (mkDirent 666 0 x0c (str "foobarz") [x00; x00]) [x2a]).
  unfold wf_dirent. repeat split; try discriminate.
  repeat constructor; discriminate.
Defined.

Lemma Len_cases (order : ByteOrder) (d : list byte) :
  (len d < 18 /\ RawDirEntry64.Len order d = Ret (0, false))
  \/ (18 <= len d /\ exists reclen, RawDirEntry64.Len order d = Ret (reclen, true)).
Proof.
  unfold RawDirEntry64.Len, Offsetof_Reclen, Sizeof_Reclen.
  destruct (Z.lt_ge_cases (len d) 18) as [H|H].
  - left. split; [exact H|]. apply readUint_outside. lia.
  - right. split; [exact H|].
    destruct (readUint_inside order d 16 2 ltac:(lia) ltac:(lia) ltac:(lia)) as (v & Ev & _).
    eauto.
Qed.

(** A record length beyond the slice makes [Name] fail. *)
Lemma Name_overlong (order : ByteOrder) (d : list byte) (reclen : Z) :
  RawDirEntry64.Len order d = Ret (reclen, true) -> len d < reclen ->
  RawDirEntry64.Name order d = Ret ([], false).
Proof.
  intros HLen Hlong.
  destruct (Len_ok order d reclen HLen) as (Hl & Hr & _).
  unfold RawDirEntry64.Name. rewrite HLen. cbn [bind negb].
  unfold Offsetof_Name.
  assert (Hnl : wrap64 (reclen - 19) = reclen - 19)
    by (apply wrap64_small; rewrite MaxUint64_value; lia).
  rewrite Hnl. replace (19 + (reclen - 19)) with reclen by lia.
  rewrite wrap64_small by (rewrite MaxUint64_value; lia).
  replace (reclen >? len d) with true by (zcompare; ztrue). reflexivity.
Qed.

(** X12.  A truncated record is refused, not read: [Ino] fails on fewer
    than 8 bytes, [Len] and [Name] fail on fewer than 18 bytes, [Type]
    fails on fewer than 19 bytes, and [Name] fails when the record length
    it decodes is larger than the slice. *)
Theorem truncated_record_fails (order : ByteOrder) (d : list byte) :
  (len d < 8 -> RawDirEntry64.Ino order d = Ret (0, false))
  /\ (len d < 18 ->
      RawDirEntry64.Len order d = Ret (0, false)
      /\ RawDirEntry64.Name order d = Ret ([], false))
  /\ (len d < 19 -> RawDirEntry64.Type_ d = Ret (x00, false))
  /\ (forall reclen,
        RawDirEntry64.Len order d = Ret (reclen, true) -> len d < reclen ->
        RawDirEntry64.Name order d = Ret ([], false)).
Proof.
  split; [|split; [|split]].
  - intros H. unfold RawDirEntry64.Ino, Offsetof_Ino, Sizeof_Ino.
    apply readUint_outside. lia.
  - intros H.
    assert (HLen : RawDirEntry64.Len order d = Ret (0, false)).
    { unfold RawDirEntry64.Len, Offsetof_Reclen, Sizeof_Reclen. apply readUint_outside. lia. }
    split; [exact HLen|]. unfold RawDirEntry64.Name. rewrite HLen. reflexivity.
  - intros H. unfold RawDirEntry64.Type_, Offsetof_Type.
    replace (18 >=? len d) with true by (zcompare; ztrue). reflexivity.
  - intros reclen HLen Hlong. apply (Name_overlong order d reclen); assumption.
Qed.

Lemma truncated_record_fails_witness :
  RawDirEntry64.Name LittleEndian
    (firstn 19 (encode_dirent LittleEndian (mkDirent 666 0 x04 (str "foobarz") [])))
  = Ret ([], false).
Proof.
  destruct (truncated_record_fails LittleEndian
              (firstn 19 (encode_dirent LittleEndian (mkDirent 666 0 x04 (str "foobarz") []))))
    as (_ & _ & _ & H).
  apply (H 27); vm_compute; reflexivity.
Defined.

Lemma until_NUL_prefix (region : list byte) :
  exists k, 0 <= k <= len region
            /\ until_NUL region = firstn (Z.to_nat k) region
            /\ Forall (fun c => c <> x00) (until_NUL region).
Proof.
  induction region as [|c region (k & Hk & Hpre & Hnz)].
  - exists 0. change (len (@nil byte)) with 0. repeat split; try reflexivity; try constructor; try lia.
  - cbn [until_NUL]. destruct (Byte.eqb c x00) eqn:E.
    + exists 0. len_simpl. pose proof (len_nonneg region).
      repeat split; try reflexivity; try constructor; try lia.
    + exists (k + 1). len_simpl. split; [lia|]. split.
      * replace (Z.to_nat (k + 1)) with (S (Z.to_nat k)) by lia.
        cbn [firstn]. rewrite <- Hpre. reflexivity.
      * constructor; [|exact Hnz]. intros ->. discriminate.
Qed.

Lemma firstn_sublist {A : Type} (lo hi k : Z) (l : list A) :
  0 <= lo -> 0 <= k <= hi - lo ->
  firstn (Z.to_nat k) (sublist lo hi l) = sublist lo (lo + k) l.
Proof.
  intros Hlo Hk. unfold sublist. rewrite firstn_firstn. f_equal. lia.
Qed.

(** Every successful result of [Name] comes from a record length that
    decodes and lies between the name offset and the slice length. *)
Lemma Name_success_record (order : ByteOrder) (d w : list byte) :
  RawDirEntry64.Name order d = Ret (w, true) ->
  exists reclen,
    RawDirEntry64.Len order d = Ret (reclen, true)
    /\ Offsetof_Name <= reclen <= len d
    /\ w = until_NUL (sublist Offsetof_Name reclen d).
Proof.
  intros HName.
  destruct (Len_cases order d) as [[_ HLen] | [_ [reclen HLen]]].
  { unfold RawDirEntry64.Name in HName. rewrite HLen in HName. discriminate. }
  destruct (Z.lt_ge_cases (len d) reclen) as [Hlong|Hfit].
  { rewrite (Name_overlong order d reclen HLen Hlong) in HName. discriminate. }
  destruct (Z.lt_ge_cases reclen Offsetof_Name) as [Hshort|Hname].
  { rewrite (Name_short_record_panics order d reclen HLen Hshort Hfit) in HName. discriminate. }
  rewrite (Name_until_NUL order d reclen HLen ltac:(lia)) in HName.
  injection HName as <-. exists reclen. repeat split; try assumption; lia.
Qed.

(** X13.  Whenever [Name] succeeds, on any slice, the name it returns is
    a part of the slice that begins at the name offset, lies inside the
    declared record and inside the slice, and holds no NUL byte. *)
Theorem Name_success_inside (order : ByteOrder) (d w : list byte) :
  RawDirEntry64.Name order d = Ret (w, true) ->
  exists reclen k,
    RawDirEntry64.Len order d = Ret (reclen, true)
    /\ Offsetof_Name <= Offsetof_Name + k <= reclen /\ reclen <= len d
    /\ w = sublist Offsetof_Name (Offsetof_Name + k) d
    /\ Forall (fun c => c <> x00) w.
Proof.
  intros HName.
  destruct (Name_success_record order d w HName) as (reclen & HLen & Hfit & ->).
  destruct (until_NUL_prefix (sublist Offsetof_Name reclen d)) as (k & Hk & Hpre & Hnz).
  rewrite len_sublist in Hk by (unfold Offsetof_Name in *; lia).
  exists reclen, k. split; [exact HLen|]. split; [lia|]. split; [lia|].
  split; [|exact Hnz].
  rewrite Hpre. apply firstn_sublist; unfold Offsetof_Name in *; lia.
Qed.

Lemma Name_success_inside_witness :
  exists reclen k,
    RawDirEntry64.Len LittleEndian
      (encode_dirent LittleEndian (mkDirent 666 0 x04 (str "foo") [x00; x2a]))
    = Ret (reclen, true)
    /\ Offsetof_Name <= Offsetof_Name + k <= reclen
    /\ reclen <= len (encode_dirent LittleEndian (mkDirent 666 0 x04 (str "foo") [x00; x2a]))
    /\ str "foo"
       = sublist Offsetof_Name (Offsetof_Name + k)
           (encode_dirent LittleEndian (mkDirent 666 0 x04 (str "foo") [x00; x2a]))
    /\ Forall (fun c => c <> x00) (str "foo").
Proof.
  apply (Name_success_inside LittleEndian
           (encode_dirent LittleEndian (mkDirent 666 0 x04 (str "foo") [x00; x2a])) (str "foo")).
  vm_compute. reflexivity.
Defined.

(** * Further properties of the directory iterator *)

Lemma entries_cons (r : dirent) (rs : list dirent) :
  entries (r :: rs) = (if real_entry r then [cooked r] else []) ++ entries rs.
Proof. unfold entries. cbn [filter]. destruct (real_entry r); reflexivity. Qed.

Lemma entries_app (rs1 rs2 : list dirent) : entries (rs1 ++ rs2) = entries rs1 ++ entries rs2.
Proof. unfold entries. rewrite filter_app, map_app. reflexivity. Qed.

Lemma consumed_app (yield : list DirEntry -> DirEntry -> bool) (es1 es2 : list DirEntry) :
  forall seen,
    consumed yield seen (es1 ++ es2)
    = if declines yield seen es1 then consumed yield seen es1
      else es1 ++ consumed yield (seen ++ es1) es2.
Proof.
  induction es1 as [|e es1 IH]; intros seen.
  - cbn [app consumed declines]. rewrite app_nil_r. reflexivity.
  - cbn [app consumed declines]. destruct (yield seen e); [|reflexivity].
    rewrite IH. destruct (declines yield (seen ++ [e]) es1); [reflexivity|].
    rewrite <- app_assoc. reflexivity.
Qed.

Lemma consumed_all (yield : list DirEntry -> DirEntry -> bool) (es : list DirEntry) :
  forall seen, declines yield seen es = false -> consumed yield seen es = es.
Proof.
  induction es as [|e es IH]; intros seen; [reflexivity|].
  cbn [consumed declines]. destruct (yield seen e); [|discriminate].
  intros H. rewrite IH by exact H. reflexivity.
Qed.

Section Stream.

Variable order : ByteOrder.
Variable yield : list DirEntry -> DirEntry -> bool.

Ltac same_state :=
  rewrite ?app_nil_r; do 2 f_equal; len_simpl; rewrite <- ?app_assoc;
  f_equal; solve [reflexivity | lia].

(** One pass over a well-formed record, for any consumer and whatever
    the batch holds behind its records. *)
Lemma ReadDir_body_record_junk (r : dirent) (rs : list dirent) (prefix junk stale : list byte)
      (fd : dirstream) (yielded : list DirEntry) :
  wf_dirent r ->
  ReadDir_body order yield (scan_state_junk order prefix (r :: rs) junk stale fd yielded)
  = Ret (if real_entry r then
           if yield yielded (cooked r)
           then Continue (scan_state_junk order (prefix ++ encode_dirent order r) rs junk stale
                            fd (yielded ++ [cooked r]))
           else Return (scan_state_junk order (prefix ++ encode_dirent order r) rs junk stale
                          fd (yielded ++ [cooked r]))
         else Continue (scan_state_junk order (prefix ++ encode_dirent order r) rs junk stale
                          fd yielded)).
Proof.
  intros Hwf. pose proof (encode_dirent_nonempty order r) as Hr.
  pose proof (len_nonneg (encode_batch order rs)) as Hrs. pose proof (len_nonneg junk) as Hj.
  unfold ReadDir_body, refill, scan_state_junk.
  cbn [st_buff st_pos st_avail st_fd st_yielded].
  rewrite encode_batch_cons. len_simpl.
  replace (len prefix >=? _) with false by (zcompare; zfalse).
  cbn [st_buff st_pos st_avail st_fd st_yielded].
  pose proof (slice_app prefix ((encode_dirent order r ++ encode_batch order rs) ++ junk) stale)
    as Hsl.
  len_simpl. rewrite Hsl. cbn [bind]. rewrite <- (app_assoc (encode_dirent order r)).
  rewrite (Len_encoded order r _ Hwf). cbn [bind negb orb]. len_simpl.
  rewrite len_encode_dirent in *.
  replace (d_reclen r >? d_reclen r + (len (encode_batch order rs) + len junk)) with false
    by (zcompare; zfalse).
  rewrite (Ino_encoded order r _ Hwf). cbn [bind negb orb].
  unfold real_entry, with_pos, with_yielded. cbn [st_buff st_pos st_avail st_fd st_yielded].
  destruct (d_ino r =? 0); cbn [negb andb].
  { same_state. }
  rewrite (Name_encoded order r _ Hwf). cbn [bind negb].
  rewrite !bytes_Equal_eqb.
  destruct (bytes_eqb (d_name r) (str ".")); cbn [negb andb orb].
  { same_state. }
  destruct (bytes_eqb (d_name r) (str "..")); cbn [negb andb orb].
  { same_state. }
  rewrite (Type_encoded order r _). cbn [bind negb].
  change {| Ino := d_ino r; Name := d_name r; Type_ := d_type r |} with (cooked r).
  destruct (yield yielded (cooked r)); cbn [negb]; same_state.
Qed.

(** The passes over the records of a batch: they end when the consumer
    declines, or go on behind the last record. *)
Lemma ReadDir_loop_records (rs : list dirent) (junk stale : list byte) (fd : dirstream) :
  forall (prefix : list byte) (yielded : list DirEntry) (fuel : nat),
    Forall wf_dirent rs ->
    ReadDir_loop order yield (length rs + fuel)
      (scan_state_junk order prefix rs junk stale fd yielded)
    = if declines yield yielded (entries rs)
      then (yielded ++ consumed yield yielded (entries rs), Returned)
      else ReadDir_loop order yield fuel
             (scan_state_junk order (prefix ++ encode_batch order rs) [] junk stale fd
                (yielded ++ entries rs)).
Proof.
  induction rs as [|r rs IH]; intros prefix yielded fuel Hwf.
  - cbn [length Nat.add entries declines]. unfold entries, encode_batch.
    cbn [filter map concat]. rewrite !app_nil_r. reflexivity.
  - apply Forall_cons_iff in Hwf. destruct Hwf as [Hr Hrs].
    cbn [length Nat.add ReadDir_loop]. rewrite ReadDir_body_record_junk by exact Hr.
    rewrite entries_cons, encode_batch_cons. destruct (real_entry r); cbn [app declines consumed].
    + destruct (yield yielded (cooked r)).
      * rewrite IH by exact Hrs. rewrite <- !app_assoc. reflexivity.
      * reflexivity.
    + rewrite IH by exact Hrs. rewrite <- !app_assoc. reflexivity.
Qed.

(** Behind the last record of a batch the next read is made. *)
Lemma ReadDir_loop_next_batch (rs : list dirent) (junk prefix stale : list byte)
      (fd : dirstream) (yielded : list DirEntry) (fuel : nat) :
  encode_batch order rs ++ junk <> [] ->
  ReadDir_loop order yield fuel
    (scan_state_junk order prefix [] [] stale
       (GetdentsOk (encode_batch order rs ++ junk) :: fd) yielded)
  = ReadDir_loop order yield fuel
      (scan_state_junk order [] rs junk
         (skipn (length (encode_batch order rs ++ junk)) (prefix ++ stale)) fd yielded).
Proof.
  intros Hne. apply ReadDir_loop_after_refill.
  - unfold scan_state_junk, encode_batch at 1. cbn [map concat app].
    rewrite first_read; [reflexivity | len_simpl; lia | exact Hne].
  - unfold scan_state_junk. cbn [st_pos st_avail]. change (len (@nil byte)) with 0.
    destruct (encode_batch order rs ++ junk) as [|c l]; [contradiction|].
    len_simpl. pose proof (len_nonneg l). lia.
Qed.

(** A read that fails or delivers nothing ends the iteration. *)
Lemma ReadDir_loop_stream_ends (tail : dirstream) (prefix stale : list byte)
      (yielded : list DirEntry) (fuel : nat) :
  stream_ends tail ->
  ReadDir_loop order yield (S fuel) (scan_state_junk order prefix [] [] stale tail yielded)
  = (yielded, Returned).
Proof.
  intros Hend. cbn [ReadDir_loop]. unfold ReadDir_body, refill, scan_state_junk, encode_batch.
  cbn [map concat app st_buff st_pos st_avail st_fd st_yielded]. len_simpl.
  replace (len prefix >=? len prefix + 0) with true by (zcompare; ztrue).
  destruct tail as [|[|filled] tail]; cbn [Getdents orb]; try reflexivity.
  cbn [stream_ends] in Hend. subst filled. reflexivity.
Qed.

(** Bytes that are no complete record end the iteration. *)
Lemma ReadDir_loop_broken_record (junk prefix stale : list byte) (fd : dirstream)
      (yielded : list DirEntry) (fuel : nat) :
  broken_record order junk ->
  ReadDir_loop order yield (S fuel) (scan_state_junk order prefix [] junk stale fd yielded)
  = (yielded, Returned).
Proof.
  intros [Hne Hbroken]. cbn [ReadDir_loop].
  unfold ReadDir_body, refill, scan_state_junk, encode_batch.
  cbn [map concat app st_buff st_pos st_avail st_fd st_yielded].
  assert (Hlen : 0 < len junk).
  { destruct junk; [contradiction|]. len_simpl. pose proof (len_nonneg junk). lia. }
  replace (len prefix >=? len prefix + len junk) with false by (zcompare; zfalse).
  cbn [st_buff st_pos st_avail st_fd st_yielded].
  rewrite (slice_app prefix junk stale). cbn [bind].
  destruct Hbroken as [Hshort | (reclen & HLen & Hlong)].
  - unfold RawDirEntry64.Len. rewrite readUint_outside by exact Hshort. reflexivity.
  - rewrite HLen. cbn [bind negb orb].
    replace (reclen >? len junk) with true by (zcompare; ztrue). reflexivity.
Qed.

Section Ending.

(** How the directory ends behind its well-formed batches: with the
    reads [tail], on which the iteration yields the entries of [rs_last]
    and returns. *)
Variable tail : dirstream.
Variable rs_last : list dirent.
Hypothesis tail_ends :
  forall (prefix stale : list byte) (yielded : list DirEntry) (fuel : nat),
    ReadDir_loop order yield (length rs_last + S fuel)
      (scan_state_junk order prefix [] [] stale tail yielded)
    = (yielded ++ consumed yield yielded (entries rs_last), Returned).

Lemma ReadDir_loop_stream (dir : list (list dirent)) :
  forall (prefix stale : list byte) (yielded : list DirEntry) (fuel : nat),
    Forall wf_batch dir ->
    ReadDir_loop order yield (length (concat dir) + (length rs_last + S fuel))
      (scan_state_junk order prefix [] [] stale (dirstream_of order dir ++ tail) yielded)
    = (yielded ++ consumed yield yielded (entries (concat dir ++ rs_last)), Returned).
Proof.
  induction dir as [|batch dir IH]; intros prefix stale yielded fuel Hwf.
  - cbn [concat length Nat.add app dirstream_of map]. apply tail_ends.
  - apply Forall_cons_iff in Hwf. destruct Hwf as [[Hne Hb] Hdir].
    cbn [concat dirstream_of map app]. fold (dirstream_of order dir).
    rewrite length_app, <- Nat.add_assoc, <- app_assoc.
    rewrite <- (app_nil_r (encode_batch order batch)).
    rewrite ReadDir_loop_next_batch.
    + rewrite ReadDir_loop_records by exact Hb.
      rewrite entries_app, consumed_app.
      destruct (declines yield yielded (entries batch)); [reflexivity|].
      rewrite app_nil_r. rewrite IH by exact Hdir. rewrite <- app_assoc. reflexivity.
    + rewrite app_nil_r. destruct batch as [|r batch]; [contradiction|].
      rewrite encode_batch_cons. intros E. apply (f_equal len) in E. len_simpl.
      pose proof (encode_dirent_nonempty order r).
      pose proof (len_nonneg (encode_batch order batch)). lia.
Qed.

End Ending.
End Stream.

(** X14.  For a directory that delivers well-formed records in non-empty
    batches and then ends (no read left, a failed read, or an empty
    read), and for any consumer, [ReadDir] returns after having yielded
    the reportable entries in buffer order up to and including the first
    one at which the consumer declines to go on; entries behind that one
    are not yielded, and a failed read takes back nothing. *)
Theorem ReadDir_sequence (order : ByteOrder) (yield : list DirEntry -> DirEntry -> bool)
        (dir : list (list dirent)) (tail : dirstream) (buff : list byte) (fuel : nat) :
  Forall wf_batch dir ->
  stream_ends tail ->
  (length (concat dir) < fuel)%nat ->
  ReadDir order yield (Some (dirstream_of order dir ++ tail)) buff fuel
  = (consumed yield [] (entries (concat dir)), Returned).
Proof.
  intros Hwf Hend Hfuel. unfold ReadDir.
  assert (Htail : forall prefix stale yielded k,
             ReadDir_loop order yield (length (@nil dirent) + S k)
               (scan_state_junk order prefix [] [] stale tail yielded)
             = (yielded ++ consumed yield yielded (entries []), Returned)).
  { intros prefix stale yielded k. cbn [length Nat.add entries filter map consumed].
    rewrite app_nil_r. apply ReadDir_loop_stream_ends. exact Hend. }
  pose proof (ReadDir_loop_stream order yield tail [] Htail dir [] buff []
                (fuel - S (length (concat dir))) Hwf) as H.
  rewrite app_nil_r in H. cbn [length Nat.add app] in H.
  replace (length (concat dir) + S (fuel - S (length (concat dir))))%nat with fuel in H by lia.
  exact H.
Qed.

Lemma ReadDir_sequence_witness :
  ReadDir LittleEndian (fun _ _ => false)
    (Some (dirstream_of LittleEndian sample_directory ++ [GetdentsErr])) (repeat x2a 16) 6
  = ([mkDirEntry 101 (str "bar") x08], Returned).
Proof.
  apply (ReadDir_sequence LittleEndian (fun _ _ => false)
           sample_directory [GetdentsErr] (repeat x2a 16) 6).
  - unfold sample_directory, wf_batch, wf_dirent.
    repeat (apply Forall_cons || apply Forall_nil || split);
      try discriminate; vm_compute; congruence.
  - exact I.
  - vm_compute. lia.
Defined.

(** X15.  When a batch holds, behind well-formed records, bytes that are
    no complete record (too few for the record length field, or fewer
    than the record length says), [ReadDir] yields the entries before
    them as usual and then returns; it makes no further read. *)
Theorem ReadDir_ends_at_broken_record (order : ByteOrder)
        (yield : list DirEntry -> DirEntry -> bool) (dir : list (list dirent))
        (rs : list dirent) (junk : list byte) (rest : dirstream) (buff : list byte)
        (fuel : nat) :
  Forall wf_batch dir ->
  Forall wf_dirent rs ->
  broken_record order junk ->
  (length (concat dir) + length rs < fuel)%nat ->
  ReadDir order yield
    (Some (dirstream_of order dir ++ GetdentsOk (encode_batch order rs ++ junk) :: rest))
    buff fuel
  = (consumed yield [] (entries (concat dir ++ rs)), Returned).
Proof.
  intros Hwf Hrs Hjunk Hfuel. unfold ReadDir.
  assert (Htail : forall prefix stale yielded k,
             ReadDir_loop order yield (length rs + S k)
               (scan_state_junk order prefix [] [] stale
                  (GetdentsOk (encode_batch order rs ++ junk) :: rest) yielded)
             = (yielded ++ consumed yield yielded (entries rs), Returned)).
  { intros prefix stale yielded k. rewrite ReadDir_loop_next_batch.
    - rewrite ReadDir_loop_records by exact Hrs.
      destruct (declines yield yielded (entries rs)) eqn:Ed; [reflexivity|].
      rewrite ReadDir_loop_broken_record by exact Hjunk.
      rewrite consumed_all by exact Ed. reflexivity.
    - destruct Hjunk as [Hne _]. intros E. apply app_eq_nil in E. destruct E. contradiction. }
  pose proof (ReadDir_loop_stream order yield _ rs Htail dir [] buff []
                (fuel - S (length (concat dir) + length rs)) Hwf) as H.
  cbn [app] in H.
  replace (length (concat dir) + (length rs + S (fuel - S (length (concat dir) + length rs))))%nat
    with fuel in H by lia.
  exact H.
Qed.

Lemma ReadDir_ends_at_broken_record_witness :
  ReadDir BigEndian take_all
    (Some (dirstream_of BigEndian []
           ++ GetdentsOk (encode_batch BigEndian [mkDirent 101 4 x08 (str "bar") [x00; x00]]
                          ++ firstn 22 (encode_dirent BigEndian
                                          (mkDirent 102 5 x04 (str "baz") [x00; x00])))
              :: [GetdentsOk (encode_batch BigEndian
                                [mkDirent 102 5 x04 (str "baz") [x00; x00]])]))
    [] 2
  = ([mkDirEntry 101 (str "bar") x08], Returned).
Proof.
  apply (ReadDir_ends_at_broken_record BigEndian take_all []
           [mkDirent 101 4 x08 (str "bar") [x00; x00]]
           (firstn 22 (encode_dirent BigEndian (mkDirent 102 5 x04 (str "baz") [x00; x00])))
           [GetdentsOk (encode_batch BigEndian [mkDirent 102 5 x04 (str "baz") [x00; x00]])]
           [] 2).
  - constructor.
  - unfold wf_dirent. repeat (apply Forall_cons || apply Forall_nil || split);
      try discriminate; vm_compute; congruence.
  - split; [discriminate|]. right. exists 25. split; vm_compute; reflexivity.
  - vm_compute. lia.
Defined.

(** ** Whatever the kernel delivers *)

Section AnyData.

Variable order : ByteOrder.
Variable yield : list DirEntry -> DirEntry -> bool.

(** One pass through the loop body yields at most one entry, a
    reportable one, and takes none back. *)
Lemma ReadDir_body_yields (st : readdir_state) :
  forall st',
    ReadDir_body order yield st = Ret (Continue st')
    \/ ReadDir_body order yield st = Ret (Return st') ->
    st_yielded st' = st_yielded st
    \/ exists e, st_yielded st' = st_yielded st ++ [e] /\ reportable e.
Proof.
  intros st'. unfold ReadDir_body.
  destruct (refill st) as [st1|] eqn:Hre.
  2: { intros [H|H]; [discriminate|]. injection H as <-. left. reflexivity. }
  rewrite <- (refill_yielded st st1 Hre).
  destruct (slice (st_buff st1) (st_pos st1) (st_avail st1)) as [dentry| |];
    cbn [bind]; try (intros [H|H]; discriminate).
  destruct (RawDirEntry64.Len order dentry) as [[dentryLen ok1]| |];
    cbn [bind]; try (intros [H|H]; discriminate).
  destruct (negb ok1 || (dentryLen >? len dentry)).
  { intros [H|H]; [discriminate|]. injection H as <-. left. reflexivity. }
  destruct (RawDirEntry64.Ino order dentry) as [[ino ok2]| |];
    cbn [bind]; try (intros [H|H]; discriminate).
  destruct (negb ok2 || (ino =? 0)) eqn:Eino.
  { intros [H|H]; [|discriminate]. injection H as <-. left. reflexivity. }
  destruct (RawDirEntry64.Name order dentry) as [[name ok3]| |] eqn:EName;
    cbn [bind]; try (intros [H|H]; discriminate).
  destruct ok3; cbn [negb].
  2: { intros [H|H]; [discriminate|]. injection H as <-. left. reflexivity. }
  destruct (bytes_Equal name (str ".") || bytes_Equal name (str "..")) eqn:Edots.
  { intros [H|H]; [|discriminate]. injection H as <-. left. reflexivity. }
  destruct (RawDirEntry64.Type_ dentry) as [[typ ok4]| |];
    cbn [bind]; try (intros [H|H]; discriminate).
  destruct ok4; cbn [negb].
  2: { intros [H|H]; [discriminate|]. injection H as <-. left. reflexivity. }
  assert (Hrep : reportable {| Ino := ino; Name := name; Type_ := typ |}).
  { apply orb_false_iff in Eino, Edots. destruct Eino as [_ Eino]. destruct Edots as [E1 E2].
    unfold reportable. cbn [Ino Name]. repeat split.
    - apply Z.eqb_neq. exact Eino.
    - intros ->. rewrite (proj2 (bytes_Equal_eq _ _) eq_refl) in E1. discriminate.
    - intros ->. rewrite (proj2 (bytes_Equal_eq _ _) eq_refl) in E2. discriminate.
    - destruct (Name_success_record order dentry name EName) as (reclen & _ & _ & ->).
      destruct (until_NUL_prefix (sublist Offsetof_Name reclen dentry)) as (k & _ & _ & H).
      exact H. }
  destruct (yield _ _); cbn [negb]; intros [H|H]; try discriminate;
    injection H as <-; right; eexists; (split; [reflexivity | exact Hrep]).
Qed.

Lemma ReadDir_loop_extends (fuel : nat) :
  forall st, exists ext,
    fst (ReadDir_loop order yield fuel st) = st_yielded st ++ ext /\ Forall reportable ext.
Proof.
  induction fuel as [|fuel IH]; intros st; cbn [ReadDir_loop].
  - exists []. rewrite app_nil_r. split; [reflexivity | constructor].
  - pose proof (ReadDir_body_yields st) as Hbody.
    destruct (ReadDir_body order yield st) as [[st'|st']| |]; cbn [fst].
    + destruct (IH st') as (ext & Hext & Hrep). rewrite Hext.
      destruct (Hbody st' (or_introl eq_refl)) as [-> | (e & -> & He)].
      * exists ext. auto.
      * exists (e :: ext). rewrite <- app_assoc. auto.
    + destruct (Hbody st' (or_intror eq_refl)) as [-> | (e & -> & He)].
      * exists []. rewrite app_nil_r. auto.
      * exists [e]. auto.
    + exists []. rewrite app_nil_r. auto.
    + exists []. rewrite app_nil_r. auto.
Qed.


End AnyData.

(** X16.  Whatever the reads deliver, well-formed or not, and whatever
    the consumer does, every entry that [ReadDir] yields has a non-zero
    inode, a name other than "." and "..", and no NUL byte in its name. *)
Theorem ReadDir_yields_reportable (order : ByteOrder)
        (yield : list DirEntry -> DirEntry -> bool) (opened : option dirstream)
        (buff : list byte) (fuel : nat) :
  Forall reportable (fst (ReadDir order yield opened buff fuel)).
Proof.
  unfold ReadDir. destruct opened as [fd|]; [|constructor].
  destruct (ReadDir_loop_extends order yield fuel
              {| st_buff := buff; st_pos := 0; st_avail := 0; st_fd := fd; st_yielded := [] |})
    as (ext & Hext & Hrep).
  rewrite Hext. exact Hrep.
Qed.



(** * Reading a whole file *)

Lemma write_at_nil (a : list byte) (at_ : Z) : write_at a at_ [] = a.
Proof.
  unfold write_at. cbn [app length]. rewrite Nat.add_0_r. apply firstn_skipn.
Qed.

Lemma len_write_at (a w : list byte) (at_ : Z) :
  0 <= at_ -> at_ + len w <= len a -> len (write_at a at_ w) = len a.
Proof.
  intros H0 H1. unfold write_at, len in *.
  rewrite !length_app, length_firstn, length_skipn. lia.
Qed.

Lemma firstn_write_at (a w : list byte) (at_ : Z) :
  0 <= at_ -> at_ + len w <= len a ->
  firstn (Z.to_nat (at_ + len w)) (write_at a at_ w) = firstn (Z.to_nat at_) a ++ w.
Proof.
  intros H0 H1. unfold write_at, len in *.
  rewrite app_assoc. rewrite firstn_app.
  replace (Z.to_nat (at_ + Z.of_nat (length w))
           - length (firstn (Z.to_nat at_) a ++ w))%nat with 0%nat
    by (rewrite length_app, length_firstn; lia).
  cbn [firstn]. rewrite app_nil_r. apply firstn_all2.
  rewrite length_app, length_firstn. lia.
Qed.

(** A read that delivers: it hands over a non-empty start of the bytes
    left, unless none is left, and never more than there is room for. *)
Lemma Read_delivers (rest : list byte) (events : list read_event) (room : Z) :
  Forall delivers events -> 1 <= room ->
  exists k events',
    Read {| f_rest := rest; f_events := events |} room
    = (len (firstn k rest), false, firstn k rest,
       {| f_rest := skipn k rest; f_events := events' |})
    /\ (1 <= k)%nat /\ Z.of_nat k <= room /\ Forall delivers events'.
Proof.
  intros Hev Hroom. unfold Read. cbn [f_rest f_events].
  destruct events as [|[limit|n] events].
  - exists (Z.to_nat room), []. repeat split; try constructor; lia.
  - apply Forall_cons_iff in Hev. destruct Hev as [Hl Hev]. cbn [delivers] in Hl.
    exists (Z.to_nat (Z.min room limit)), events. repeat split; try assumption; lia.
  - apply Forall_cons_iff in Hev. destruct Hev as [[] _].
Qed.

Section ReadFileProofs.

Variable growslice : Z -> Z.

Lemma cap_grow (s : byteslice) : cap s < cap (grow growslice s).
Proof.
  unfold grow, cap. cbn [arr]. len_simpl.
  pose proof (len_nonneg (repeat x00 (Z.to_nat (growslice (len (arr s)) - len (arr s) - 1)))).
  lia.
Qed.

(** The loop on a file whose reads deliver: it ends with success and
    with the bytes of the file behind what the buffer held; it takes a
    new array exactly when the bytes fill the buffer to its capacity. *)
Lemma ReadFile_loop_reads_all (fuel : nat) :
  forall (rest : list byte) (events : list read_event) (s : byteslice),
    0 <= blen s < cap s ->
    Forall delivers events ->
    (length rest < fuel)%nat ->
    exists s',
      ReadFile_loop growslice fuel {| f_rest := rest; f_events := events |} s = Ret (s', true)
      /\ contents s' = contents s ++ rest
      /\ (backing s <= backing s')%nat
      /\ (blen s + len rest < cap s -> backing s' = backing s /\ cap s' = cap s)
      /\ (cap s <= blen s + len rest -> (backing s < backing s')%nat).
Proof.
  induction fuel as [|fuel IH]; intros rest events s Hs Hev Hf; [lia|].
  cbn [ReadFile_loop]. unfold cap in *.
  assert (Hsl : slice (arr s) (blen s) (len (arr s))
                = Ret (sublist (blen s) (len (arr s)) (arr s))).
  { unfold slice.
    replace ((0 <=? blen s) && (blen s <=? len (arr s)) && (len (arr s) <=? len (arr s)))
      with true by ztrue. reflexivity. }
  rewrite Hsl. cbn [bind]. rewrite len_sublist by lia.
  destruct (Read_delivers rest events (len (arr s) - blen s) Hev ltac:(lia))
    as (k & events' & HRead & Hk1 & Hk2 & Hev').
  rewrite HRead. cbn [arr blen backing].
  set (w := firstn k rest) in *.
  assert (Hw : len w <= len (arr s) - blen s).
  { unfold w, len in *. rewrite length_firstn. lia. }
  pose proof (len_nonneg w) as Hw0.
  unfold reslice, cap. cbn [arr blen backing].
  rewrite len_write_at by lia.
  replace ((0 <=? blen s + len w) && (blen s + len w <=? len (arr s))) with true by ztrue.
  cbn [bind arr blen backing].
  destruct rest as [|c rest].
  - (* nothing left: the read delivers nothing and the loop ends *)
    assert (Ew : w = []) by (unfold w; apply firstn_nil). rewrite Ew.
    change (len (@nil byte)) with 0. rewrite Z.add_0_r, Z.eqb_refl, write_at_nil.
    exists {| arr := arr s; blen := blen s; backing := backing s |}.
    unfold contents. cbn [arr blen backing]. rewrite app_nil_r.
    repeat split; try reflexivity; try lia.
  - assert (Hn : 1 <= len w).
    { unfold w, len. rewrite length_firstn. cbn [length]. lia. }
    replace (len w =? 0) with false by (symmetry; apply Z.eqb_neq; lia).
    assert (Hrest : c :: rest = w ++ skipn k (c :: rest))
      by (unfold w; symmetry; apply firstn_skipn).
    assert (Hlenrest : len (c :: rest) = len w + len (skipn k (c :: rest)))
      by (rewrite Hrest at 1; apply len_app).
    assert (Hshorter : (length (skipn k (c :: rest)) < fuel)%nat).
    { rewrite length_skipn. cbn [length] in *. lia. }
    set (rest' := skipn k (c :: rest)) in *.
    assert (Hcont : firstn (Z.to_nat (blen s + len w)) (write_at (arr s) (blen s) w)
                    = contents s ++ w) by (apply firstn_write_at; lia).
    rewrite ?len_write_at by lia.
    destruct (Z.eqb_spec (blen s + len w) (len (arr s))) as [Efull|Eroom].
    + set (s1 := {| arr := write_at (arr s) (blen s) w; blen := blen s + len w;
                    backing := backing s |}).
      assert (Hs1 : 0 <= blen (grow growslice s1) < len (arr (grow growslice s1))).
      { pose proof (cap_grow s1) as Hgrow.
        assert (Hcap1 : cap s1 = len (arr s))
          by (unfold cap, s1; cbn [arr]; apply len_write_at; lia).
        assert (Hblen1 : blen (grow growslice s1) = blen s + len w) by reflexivity.
        fold (cap (grow growslice s1)). lia. }
      destruct (IH rest' events' (grow growslice s1)) as (s' & Hloop & Hc & Hb & _ & _);
        try assumption.
      exists s'. split; [exact Hloop|]. unfold s1 in Hb. cbn [grow backing] in Hb.
      pose proof (len_nonneg rest') as Hr0.
      split.
      { rewrite Hc, Hrest, app_assoc. f_equal. unfold contents, grow, s1. cbn [arr blen].
        rewrite firstn_app.
        replace (Z.to_nat (blen s + len w) - length (write_at (arr s) (blen s) w))%nat
          with 0%nat.
        - cbn [firstn]. rewrite app_nil_r. exact Hcont.
        - pose proof (len_write_at (arr s) w (blen s) ltac:(lia) ltac:(lia)) as Hl.
          unfold len in *. lia. }
      split; [lia|]. split; [intros Hroom; lia | intros _; lia].
    + destruct (IH rest' events'
                  {| arr := write_at (arr s) (blen s) w; blen := blen s + len w;
                     backing := backing s |})
        as (s' & Hloop & Hc & Hb & Hsame & Hnew); try assumption.
      { unfold cap. cbn [arr blen]. rewrite len_write_at by lia. lia. }
      unfold cap in *. cbn [arr blen backing] in *. rewrite len_write_at in * by lia.
      exists s'. split; [exact Hloop|].
      split.
      { rewrite Hc, Hrest at 1. rewrite app_assoc. f_equal. exact Hcont. }
      split; [exact Hb|]. split.
      * intros Hroom. apply Hsame. lia.
      * intros Hfill. apply Hnew. lia.
Qed.

End ReadFileProofs.

Section ReadFileResults.

Variable growslice : Z -> Z.

(** The loop ends within the passes [ReadFile] allows it, whatever the
    reads do: a pass that goes on has read at least one byte. *)
Lemma ReadFile_loop_ends (fuel : nat) :
  forall (fd : file) (s : byteslice),
    (length (f_rest fd) < fuel)%nat ->
    ReadFile_loop growslice fuel fd s <> OutOfFuel.
Proof.
  induction fuel as [|fuel IH]; intros fd s Hf; [lia|].
  cbn [ReadFile_loop].
  unfold slice.
  destruct ((0 <=? blen s) && (blen s <=? cap s) && (cap s <=? len (arr s)));
    cbn [bind]; [|discriminate].
  set (p := sublist (blen s) (cap s) (arr s)).
  assert (Hread : forall n err w fd',
             Read fd (len p) = (n, err, w, fd') ->
             err = true \/ n = 0 \/ (length (f_rest fd') < fuel)%nat).
  { intros n err w fd'. unfold Read.
    destruct (f_events fd) as [|[limit|m] events]; intros [= <- <- <- <-]; auto;
      right; cbn [f_rest]; rewrite length_skipn; unfold len; rewrite length_firstn;
      match goal with
      | |- context [Init.Nat.min ?k ?l] =>
          destruct (Nat.eq_dec (Init.Nat.min k l) 0) as [E|E];
          [left; rewrite E; reflexivity | right; lia]
      end. }
  destruct (Read fd (len p)) as [[[n err] w] fd'] eqn:ERead.
  specialize (Hread n err w fd' eq_refl).
  unfold reslice.
  match goal with
  | |- context [if ?c then Ret ?s1 else Panic] =>
      destruct c; cbn [bind]; [set (s1' := s1) | discriminate]
  end.
  destruct err; [discriminate|].
  destruct (Z.eqb_spec n 0); [discriminate|].
  destruct Hread as [H|[H|H]]; try discriminate; try contradiction.
  destruct (blen s1' =? cap s1'); apply IH; exact H.
Qed.

Lemma ReadFile_start (buffer : byteslice) (fd : file) :
  exists s,
    ReadFile growslice (Some fd) buffer
    = ReadFile_loop growslice (S (length (f_rest fd))) fd s
    /\ blen s = 0 /\ 512 <= cap s
    /\ (512 <= cap buffer -> backing s = backing buffer /\ cap s = cap buffer)
    /\ (cap buffer < 512 -> backing s = S (backing buffer)).
Proof.
  unfold ReadFile, reslice. pose proof (len_nonneg (arr buffer)) as H0. unfold cap in *.
  replace ((0 <=? 0) && (0 <=? len (arr buffer))) with true by ztrue.
  cbn [bind arr blen backing]. zcompare.
  destruct (Z.ltb_spec (len (arr buffer)) 512) as [Hsmall|Hlarge].
  - exists (make_after {| arr := arr buffer; blen := 0; backing := backing buffer |} 512).
    split; [reflexivity|]. cbn [make_after arr blen backing].
    repeat split; try reflexivity; try lia.
  - exists {| arr := arr buffer; blen := 0; backing := backing buffer |}.
    split; [reflexivity|]. cbn [arr blen backing]. repeat split; try reflexivity; lia.
Qed.

(** X18.  [ReadFile] on a file that can be opened and read returns the
    whole contents of the file and true: whatever buffer it is given
    (none, too small, or holding other data), however the kernel splits
    the file over the reads, and however the runtime grows the buffer. *)
Theorem ReadFile_reads_whole_file (buffer : byteslice) (fd : file) :
  Forall delivers (f_events fd) ->
  exists s, ReadFile growslice (Some fd) buffer = Ret (s, true) /\ contents s = f_rest fd.
Proof.
  intros Hev. destruct (ReadFile_start buffer fd) as (s0 & -> & Hb & Hc & _).
  destruct fd as [rest events]. cbn [f_rest f_events] in *.
  destruct (ReadFile_loop_reads_all growslice (S (length rest)) rest events s0
              ltac:(lia) Hev ltac:(lia)) as (s & Hloop & Hcont & _).
  exists s. split; [exact Hloop|]. rewrite Hcont. unfold contents. rewrite Hb. reflexivity.
Qed.

(** X19.  The contents come back in the array of the buffer that was
    passed exactly when that buffer has a capacity of at least 512 bytes
    and of more bytes than the file holds; otherwise [ReadFile] returns
    them in a new array. *)
Theorem ReadFile_keeps_large_buffer (buffer : byteslice) (fd : file) :
  Forall delivers (f_events fd) ->
  exists s,
    ReadFile growslice (Some fd) buffer = Ret (s, true)
    /\ (backing s = backing buffer <-> 512 <= cap buffer /\ len (f_rest fd) < cap buffer)
    /\ (backing s = backing buffer -> cap s = cap buffer).
Proof.
  intros Hev. destruct (ReadFile_start buffer fd) as (s0 & -> & Hb & Hc & Hlarge & Hsmall).
  destruct fd as [rest events]. cbn [f_rest f_events] in *.
  destruct (ReadFile_loop_reads_all growslice (S (length rest)) rest events s0
              ltac:(lia) Hev ltac:(lia)) as (s & Hloop & _ & Hmono & Hsame & Hnew).
  exists s. split; [exact Hloop|]. rewrite Hb in Hsame, Hnew.
  destruct (Z.lt_ge_cases (cap buffer) 512) as [H512|H512].
  - specialize (Hsmall H512). split; [split; [lia | intros [? _]; lia] | lia].
  - destruct (Hlarge H512) as [Hback Hcap]. rewrite Hcap in *.
    destruct (Z.lt_ge_cases (len rest) (cap buffer)) as [Hfits|Hfull].
    + destruct (Hsame ltac:(lia)) as [Hs1 Hs2].
      split; [split; [intros _; lia | intros _; congruence] | intros _; congruence].
    + specialize (Hnew ltac:(lia)). split; [split; [lia | intros [_ ?]; lia] | lia].
Qed.

End ReadFileResults.

Lemma ReadFile_reads_whole_file_witness :
  exists s,
    ReadFile (fun c => 2 * c) (Some (mkFile (repeat x41 600) [ReadAtMost 7; ReadAtMost 1000]))
      (mkSlice [x01; x02; x03] 2 0)
    = Ret (s, true)
    /\ contents s = repeat x41 600.
Proof.
  apply (ReadFile_reads_whole_file (fun c => 2 * c) (mkSlice [x01; x02; x03] 2 0)
           (mkFile (repeat x41 600) [ReadAtMost 7; ReadAtMost 1000])).
  repeat constructor; cbn; lia.
Defined.

Lemma ReadFile_keeps_large_buffer_witness :
  exists s,
    ReadFile (fun c => c + 1) (Some (mkFile (str "hello") [ReadAtMost 2]))
      (mkSlice (repeat x00 512) 512 7)
    = Ret (s, true)
    /\ (backing s = 7%nat <-> 512 <= cap (mkSlice (repeat x00 512) 512 7)
                              /\ len (str "hello") < cap (mkSlice (repeat x00 512) 512 7))
    /\ (backing s = 7%nat -> cap s = cap (mkSlice (repeat x00 512) 512 7)).
Proof.
  apply (ReadFile_keeps_large_buffer (fun c => c + 1) (mkSlice (repeat x00 512) 512 7)
           (mkFile (str "hello") [ReadAtMost 2])).
  repeat constructor; cbn; lia.
Defined.

(** The model on the cases of the package's tests: a file that cannot be
    opened, and a small file read without a buffer. *)
Example ReadFile_test :
  ReadFile (fun c => 2 * c) None (mkSlice [] 0 0) = Ret (mkSlice [] 0 0, false)
  /\ ReadFile (fun c => 2 * c) (Some (mkFile (str "hello") [ReadAtMost 3])) (mkSlice [] 0 0)
     = Ret (mkSlice (str "hello" ++ repeat x00 507) 5 1, true).
Proof. split; vm_compute; reflexivity. Qed.

(** X20.  [ParseUint] accepts every non-empty string of decimal digits
    whose value fits 64 bits, leading zeros included, and returns that
    value. *)
Theorem ParseUint_parses_number (l : list byte) :
  l <> [] ->
  Forall (is_digit dec_digit_value) l ->
  dec_value l <= MaxUint64 ->
  ParseUint l = Ret (dec_value l, true).
Proof.
  intros Hne Hd Hv.
  pose proof (Uint64_loop_digits l [] [] 0 false (scan_fuel l 0) Hd I ltac:(lia) Hv
                ltac:(intros; contradiction) (scan_fuel_whole l)) as HU.
  rewrite <- whole_slice in HU. change (len (@nil byte)) with 0 in HU.
  unfold ParseUint, Uint64, NewBytestring. cbn [b pos]. rewrite HU. cbn [bind negb].
  unfold EOL. cbn [b pos].
  replace (0 + len l >=? len l) with true by (zcompare; ztrue). reflexivity.
Qed.

Lemma ParseUint_parses_number_witness :
  ParseUint (str "0018446744073709551615") = Ret (MaxUint64, true).
Proof.
  apply (ParseUint_parses_number (str "0018446744073709551615")).
  - discriminate.
  - repeat constructor; discriminate.
  - vm_compute. discriminate.
Defined.

(** * Entry types *)

Example DirEntryType_String_test :
  DirEntryType_String DirEntryFIFO = str "FIFO/pipe"
  /\ DirEntryType_String DirEntrySocket = str "socket"
  /\ DirEntryType_String x2a = str "DirEntryType(42)"
  /\ IsDir (mkDirEntry 1 [] DirEntryDir) = true
  /\ IsDir (mkDirEntry 1 [] x00) = false.
Proof. repeat split; vm_compute; reflexivity. Qed.

Lemma all_bytes_complete (c : byte) : In c all_bytes.
Proof.
  unfold all_bytes. apply in_map_iff. exists (Z.to_nat (u8 c)).
  pose proof (u8_range c) as Hr. split.
  - apply u8_inj. rewrite u8_byte_of_Z, Z2Nat.id by lia. apply Z.mod_small. lia.
  - apply in_seq. lia.
Qed.

Lemma all_different_sound (l : list (list byte)) : all_different l = true -> NoDup l.
Proof.
  induction l as [|x l IH]; intros H; [constructor|].
  cbn [all_different] in H. apply andb_true_iff in H. destruct H as [Hx Hl].
  constructor; [|apply IH; exact Hl].
  intros Hin. apply negb_true_iff in Hx.
  assert (Hex : existsb (bytes_Equal x) l = true).
  { apply existsb_exists. exists x. split; [exact Hin | apply bytes_Equal_eq; reflexivity]. }
  congruence.
Qed.

Lemma NoDup_map_injective {A B : Type} (f : A -> B) (l : list A) :
  NoDup (map f l) -> forall x y, In x l -> In y l -> f x = f y -> x = y.
Proof.
  induction l as [|a l IH]; intros Hnd x y Hx Hy Hf; [contradiction|].
  cbn [map] in Hnd. apply NoDup_cons_iff in Hnd. destruct Hnd as [Hna Hnd].
  destruct Hx as [-> | Hx], Hy as [-> | Hy].
  - reflexivity.
  - exfalso. apply Hna. rewrite Hf. apply in_map. exact Hy.
  - exfalso. apply Hna. rewrite <- Hf. apply in_map. exact Hx.
  - apply IH; assumption.
Qed.

(** X21.  The description tells the type: two entry types with the same
    [String] are the same type, known or unknown. *)
Theorem DirEntryType_String_injective (t u : DirEntryType) :
  DirEntryType_String t = DirEntryType_String u -> t = u.
Proof.
  apply (NoDup_map_injective DirEntryType_String all_bytes).
  - apply all_different_sound. vm_compute. reflexivity.
  - apply all_bytes_complete.
  - apply all_bytes_complete.
Qed.

Lemma DirEntryType_String_injective_witness :
  DirEntryType_String x2a = DirEntryType_String (byte_of_Z 298) /\ x2a = byte_of_Z 298.
Proof.
  assert (H : DirEntryType_String x2a = DirEntryType_String (byte_of_Z 298))
    by (vm_compute; reflexivity).
  split; [exact H | apply (DirEntryType_String_injective _ _ H)].
Defined.

(** X22.  The type tests of an entry agree with its description: each of
    [IsPipe], [IsCharDev], [IsBlockDev], [IsDir], [IsRegular],
    [IsSymlink] and [IsSocket] holds exactly for the entries whose type
    is described as such, so no two of them hold for the same entry, and
    none holds for an entry whose type has no description. *)
Theorem type_tests_match_description (d : DirEntry) :
  (IsPipe d = true <-> DirEntryType_String (Type_ d) = str "FIFO/pipe")
  /\ (IsCharDev d = true <-> DirEntryType_String (Type_ d) = str "char device")
  /\ (IsBlockDev d = true <-> DirEntryType_String (Type_ d) = str "block device")
  /\ (IsDir d = true <-> DirEntryType_String (Type_ d) = str "directory")
  /\ (IsRegular d = true <-> DirEntryType_String (Type_ d) = str "regular file")
  /\ (IsSymlink d = true <-> DirEntryType_String (Type_ d) = str "symbolic link")
  /\ (IsSocket d = true <-> DirEntryType_String (Type_ d) = str "socket").
Proof.
  assert (Hiff : forall (k : byte) (desc : list byte),
             DirEntryType_String k = desc ->
             (Byte.eqb (Type_ d) k = true <-> DirEntryType_String (Type_ d) = desc)).
  { intros k desc Hk. split.
    - intros E. apply Byte.byte_dec_bl in E. rewrite E. exact Hk.
    - intros E. rewrite <- Hk in E.
      assert (Ht : Type_ d = k).
      { apply (NoDup_map_injective DirEntryType_String all_bytes);
          [apply all_different_sound; vm_compute; reflexivity | apply all_bytes_complete ..
           | exact E]. }
      rewrite Ht. apply Byte.byte_dec_lb. reflexivity. }
  unfold IsPipe, IsCharDev, IsBlockDev, IsDir, IsRegular, IsSymlink, IsSocket.
  repeat split; apply Hiff; reflexivity.
Qed.
